(** * The authentication facade of the Monkey Island

    A shallow embedding of
    [monkey_island/cc/services/authentication_service/authentication_facade.py]
    and the properties its specification states about it.

    Conventions of the embedding:
    - a method of [AuthenticationFacade] is a computation in the monad
      [Py], which threads the mutable world of the facade (user datastore,
      OTP repository, repository encryptor, event queue, the facade's own
      lock) and either returns a value, raises a Python exception or blocks;
    - [time.monotonic()] returns a binary64 float; a reading of the clock is
      an argument [now : float] of the method that takes it, and the
      arithmetic and comparison on it are those of IEEE 754 ([PrimFloat]);
    - the random choices of [secrets] are an argument [rnd : nat -> nat], and
      the uniquifier that [set_uniquifier] draws is an argument [fresh];
    - [authorize_otp], the method that the facade guards with a lock, is a
      process ([Proc]): its calls on the lock and on the OTP repository are
      atomic steps between which a scheduler may let another caller run
      ([Threads]); run without interruption the process is a computation in
      [Py] like any other method;
    - a [str] is held as the string of its bytes in UTF-8, a surrogate code
      point written in three bytes like every other code point of its range,
      so that concatenation is preserved; [str.encode()] gives these bytes and
      raises [UnicodeEncodeError] if a surrogate is among them. *)

From Stdlib Require Import Floats Uint63 ZArith Ascii String.
From stdpp Require Import gmap strings list.

Local Open Scope string_scope.

(** ** Exceptions and outcomes *)

(** The exception classes the facade and its collaborators raise. *)
Inductive exn : Type :=
  | UnknownRecordError            (* monkey_island.cc.repositories *)
  | TokenValidationError          (* token_parser *)
  | IndexError                    (* builtin, [secrets.choice] of an empty sequence *)
  | UnicodeEncodeError            (* builtin, [str.encode] of a surrogate *)
  | DuplicateIdentityError        (* the user directory's, for a user name that exists *)
  | EncryptorError                (* failure owned by the lockable encryptor *)
  | Exception (msg : string).     (* builtin [Exception(msg)] *)

(** What a call does: it returns, it raises, or it never comes back because
    it waits for a lock that nobody releases. *)
Inductive outcome (A : Type) : Type :=
  | Return (a : A)
  | Raise (e : exn)
  | Blocked.
Arguments Return {A} a.
Arguments Raise {A} e.
Arguments Blocked {A}.

(** ** Data model *)

Abbreviation OTP := string.      (* common.types.OTP, keyed by its value *)
Abbreviation Token := string.    (* .types.Token *)

(** [.token_parser.ParsedToken]: what a successful parse gives back. *)
Record ParsedToken : Type := { user_uniquifier : string }.

(** [.user.User], the fields the facade reads or passes on; a role is held
    by its name. *)
Record User : Type := { username : string; fs_uniquifier : string; roles : list string }.

(** Modelled from the spec: the persisted record of the OTP store, whose code
    is missing; section 6 gives its layout as [{value, expires_at, used}], one
    record per OTP, keyed by value. *)
Record OTPRecord : Type := { expiration_time : float; used : bool }.

(** [IslandEventTopic] and [IslandMode], the members the facade names. *)
Inductive IslandEventTopic : Type :=
  | CLEAR_SIMULATION_DATA
  | RESET_AGENT_CONFIGURATION
  | SET_ISLAND_MODE.

Inductive IslandMode : Type := UNSET | RANSOMWARE | ADVANCED.

(** A call that reached a collaborator with an effect outside the facade.
    The world keeps them in the order in which they were made. *)
Inductive Call : Type :=
  | Publish (topic : IslandEventTopic) (mode : option IslandMode)
  | ResetKey
  | Unlock (secret : list Byte.byte).

(** Modelled from the spec: the state of the repository encryptor, whose code
    is missing. Section 4.1 gives it the states locked and unlocked;
    [reset_key] leaves it locked with fresh key material; [unlock] moves it to
    unlocked only with the right secret. [key_secret] is the secret that
    protects the current key material, [None] for fresh material that the
    next [unlock] binds. *)
Record Encryptor : Type := { key_secret : option (list Byte.byte); unlocked : bool }.

(** The world a facade instance acts on. *)
Record Island : Type := {
  datastore : list User;                 (* self._datastore, its users *)
  role_names : list string;              (* self._datastore, its roles *)
  otp_repository : gmap OTP OTPRecord;   (* self._otp_repository *)
  repository_encryptor : Encryptor;      (* self._repository_encryptor *)
  otp_read_lock : bool;                  (* self._otp_read_lock, true = held *)
  calls : list Call                      (* effects on collaborators, oldest first *)
}.

Definition set_datastore (d : list User) (w : Island) : Island :=
  {| datastore := d; role_names := role_names w; otp_repository := otp_repository w;
     repository_encryptor := repository_encryptor w;
     otp_read_lock := otp_read_lock w; calls := calls w |}.

Definition set_otp_repository (r : gmap OTP OTPRecord) (w : Island) : Island :=
  {| datastore := datastore w; role_names := role_names w; otp_repository := r;
     repository_encryptor := repository_encryptor w;
     otp_read_lock := otp_read_lock w; calls := calls w |}.

Definition set_repository_encryptor (e : Encryptor) (w : Island) : Island :=
  {| datastore := datastore w; role_names := role_names w; otp_repository := otp_repository w;
     repository_encryptor := e;
     otp_read_lock := otp_read_lock w; calls := calls w |}.

Definition set_otp_read_lock (b : bool) (w : Island) : Island :=
  {| datastore := datastore w; role_names := role_names w; otp_repository := otp_repository w;
     repository_encryptor := repository_encryptor w;
     otp_read_lock := b; calls := calls w |}.

Definition set_role_names (n : list string) (w : Island) : Island :=
  {| datastore := datastore w; role_names := n; otp_repository := otp_repository w;
     repository_encryptor := repository_encryptor w;
     otp_read_lock := otp_read_lock w; calls := calls w |}.

Definition record_call (c : Call) (w : Island) : Island :=
  {| datastore := datastore w; role_names := role_names w; otp_repository := otp_repository w;
     repository_encryptor := repository_encryptor w;
     otp_read_lock := otp_read_lock w; calls := calls w ++ [c] |}.

(** ** The monad of facade methods *)

Definition Py (A : Type) : Type := Island -> outcome A * Island.

Definition ret {A} (a : A) : Py A := fun w => (Return a, w).

Definition raise {A} (e : exn) : Py A := fun w => (Raise e, w).

Definition bind {A B} (m : Py A) (k : A -> Py B) : Py B :=
  fun w =>
    match m w with
    | (Return a, w') => k a w'
    | (Raise e, w') => (Raise e, w')
    | (Blocked, w') => (Blocked, w')
    end.

Notation "'let*' x ':=' m 'in' k" := (bind m (fun x => k))
  (at level 10, x name, m at level 100, k at level 200).
Notation "m ';;' k" := (bind m (fun _ => k))
  (at level 100, k at level 200, right associativity).

Definition get_world : Py Island := fun w => (Return w, w).
Definition modify (f : Island -> Island) : Py unit := fun w => (Return tt, f w).

(** ** Methods as processes

    A method that runs while other callers run is a process: a sequence of
    atomic steps on the shared world. A step is given the reading of the
    clock at which it is made; it yields the rest of the process and the new
    world, or it cannot be made in this world, as the step that acquires a
    held lock. *)

#[warnings="-register-all"]
Inductive Proc (A : Type) : Type :=
  | Over (r : outcome A)                                      (* the call is over *)
  | Atom (m : float -> Island -> option (Proc A * Island)).   (* the next step *)
Arguments Over {A} r.
Arguments Atom {A} m.

Declare Scope proc_scope.
Delimit Scope proc_scope with proc.
Bind Scope proc_scope with Proc.

(** [return a]. *)
Definition return_ {A} (a : A) : Proc A := Over (Return a).

(** A call into a collaborator as one atomic step; [m] is given the clock
    reading of the step. A call that blocks is a step that cannot be made. *)
Definition atomic_at {A} (m : float -> Py A) : Proc A :=
  Atom (fun now w =>
          match m now w with
          | (Blocked, _) => None
          | (r, w') => Some (Over r, w')
          end).

(** The same for a call that does not read the clock. *)
Definition atomic {A} (m : Py A) : Proc A := atomic_at (fun _ => m).

(** One statement after the other; an exception ends the sequence. *)
Fixpoint then_ {A B} (p : Proc A) (k : A -> Proc B) : Proc B :=
  match p with
  | Over (Return a) => k a
  | Over (Raise e) => Over (Raise e)
  | Over Blocked => Over Blocked
  | Atom m =>
      Atom (fun now w =>
              match m now w with
              | Some (p', w') => Some (then_ p' k, w')
              | None => None
              end)
  end.

Arguments then_ {A B} p%_proc k%_proc.

Notation "'let*' x ':=' m 'in' k" := (then_ m (fun x => k))
  (at level 10, x name, m at level 100, k at level 200) : proc_scope.
Notation "m ';;' k" := (then_ m (fun _ => k))
  (at level 100, k at level 200, right associativity) : proc_scope.

(** [try: body except UnknownRecordError: handler]; any other exception
    passes through. *)
Fixpoint try_except_UnknownRecordError {A} (body handler : Proc A) : Proc A :=
  match body with
  | Over (Raise UnknownRecordError) => handler
  | Over r => Over r
  | Atom m =>
      Atom (fun now w =>
              match m now w with
              | Some (p', w') => Some (try_except_UnknownRecordError p' handler, w')
              | None => None
              end)
  end.

(** The rest of [with self._otp_read_lock: body] once the lock is taken: the
    steps of [body], then the step that releases the lock, however [body] was
    left. *)
Fixpoint release_after {A} (body : Proc A) : Proc A :=
  match body with
  | Over r => Atom (fun _ w => Some (Over r, set_otp_read_lock false w))
  | Atom m =>
      Atom (fun now w =>
              match m now w with
              | Some (p', w') => Some (release_after p', w')
              | None => None
              end)
  end.

(** [with self._otp_read_lock: body] for a [threading.Lock]: the first step
    acquires the lock and cannot be made while the lock is held, so the
    caller waits until the lock is free. *)
Definition with_otp_read_lock {A} (body : Proc A) : Proc A :=
  Atom (fun _ w =>
          if otp_read_lock w then None
          else Some (release_after body, set_otp_read_lock true w)).

(** A process that no other caller interrupts, every step made at the clock
    reading [now], is a computation in [Py]. A step that cannot be made stays
    so when nobody else moves: the call is blocked. *)
Fixpoint call {A} (p : Proc A) (now : float) (w : Island) : outcome A * Island :=
  match p with
  | Over r => (r, w)
  | Atom m =>
      match m now w with
      | Some (p', w') => call p' now w'
      | None => (Blocked, w)
      end
  end.
Coercion call : Proc >-> Funclass.

(** ** Collaborators *)

Module OTPRepository.
(** The OTP store behind the interface [IOTPRepository]. Neither the
    interface nor an implementation of it is among the source files; its
    four operations are taken from section 6 of the spec. *)

(** Modelled from the spec: [insert(otp, expires_at)] of the OTP store, whose
    code is missing. Section 4.1 has the record persisted as (value,
    expiration, used = false), section 6 has one record per OTP, keyed by
    value. The spec does not say what [insert] does for a value that the store
    already holds; here the new record takes the place of the old one, and the
    statements that depend on it are made for runs in which [generate_otp]
    draws new values ([new_draws] below). *)
Definition insert_otp (otp : OTP) (expiration : float) : Py unit :=
  modify (fun w =>
    set_otp_repository
      (<[otp := {| expiration_time := expiration; used := false |}]> (otp_repository w)) w).

(** Modelled from the spec: [is_used(otp) -> bool] of the OTP store, whose code
    is missing; it fails with the unknown-record error if the record is
    absent (section 6). *)
Definition otp_is_used (otp : OTP) : Py bool :=
  let* w := get_world in
  match otp_repository w !! otp with
  | Some r => ret (used r)
  | None => raise UnknownRecordError
  end.

Definition mark_used (r : OTPRecord) : OTPRecord :=
  {| expiration_time := expiration_time r; used := true |}.

(** Modelled from the spec: [set_used(otp)] of the OTP store, whose code is
    missing; it sets the flag used of the record (section 6). The facade
    calls it after [is_used] has found the record. *)
Definition set_used (otp : OTP) : Py unit :=
  modify (fun w => set_otp_repository (alter mark_used otp (otp_repository w)) w).

(** Modelled from the spec: [get_expiration(otp) -> instant] of the OTP store,
    whose code is missing; it fails with the unknown-record error if the
    record is absent (section 6). *)
Definition get_expiration (otp : OTP) : Py float :=
  let* w := get_world in
  match otp_repository w !! otp with
  | Some r => ret (expiration_time r)
  | None => raise UnknownRecordError
  end.
End OTPRepository.

Module UserDatastore.
(** [flask_security.UserDatastore], the methods the facade uses.
    [find_user] gives the first user that matches, or [None];
    [set_uniquifier] stores a newly drawn uniquifier, the argument [fresh],
    on the user; [delete_user] takes the user out. A user is told from the
    others by the user name. *)

Definition find_user_by_fs_uniquifier (u : string) : Py (option User) :=
  let* w := get_world in
  ret (List.find (fun x => String.eqb (fs_uniquifier x) u) (datastore w)).

Definition find_user_by_username (n : string) : Py (option User) :=
  let* w := get_world in
  ret (List.find (fun x => String.eqb (username x) n) (datastore w)).

(** [find_user(roles=[...])]: the query is for the users whose list of roles
    is the given one. *)
Definition find_user_by_roles (rs : list string) : Py (option User) :=
  let* w := get_world in
  ret (List.find (fun x => bool_decide (roles x = rs)) (datastore w)).

(** [find_or_create_role(name)]: the role of that name, which is added to the
    roles if it is not among them. *)
Definition find_or_create_role (name : string) : Py string :=
  let* w := get_world in
  if existsb (String.eqb name) (role_names w) then ret name
  else
    modify (set_role_names (role_names w ++ [name])) ;;
    ret name.

(** Modelled from the spec: [create_user(username, password, roles, email)] of
    the user directory; the user model, which says which fields are unique,
    is missing. Section 4.1 has it fail with a duplicate-identity error if the
    user name exists. The new user gets a newly drawn uniquifier, the
    argument [fresh]; password and e-mail are fields the facade never reads. *)
Definition create_user (name password : string) (rs : list string) (email fresh : string)
    : Py User :=
  let* w := get_world in
  if existsb (fun x => String.eqb (username x) name) (datastore w)
  then raise DuplicateIdentityError
  else
    let user := {| username := name; fs_uniquifier := fresh; roles := rs |} in
    modify (set_datastore (datastore w ++ [user])) ;;
    ret user.

Definition rotate (n fresh : string) (x : User) : User :=
  if String.eqb (username x) n
  then {| username := username x; fs_uniquifier := fresh; roles := roles x |}
  else x.

Definition set_uniquifier (user : User) (fresh : string) : Py unit :=
  modify (fun w => set_datastore (List.map (rotate (username user) fresh) (datastore w)) w).

Definition delete_user (user : User) : Py unit :=
  modify (fun w =>
    set_datastore
      (List.filter (fun x => negb (String.eqb (username x) (username user))) (datastore w)) w).
End UserDatastore.

Module LockableEncryptor.
(** The operations of [ILockableEncryptor] on the [Encryptor] above. *)

(** Modelled from the spec: [reset_key()] of the repository encryptor, whose
    code is missing; it always leaves a locked encryptor with new key material
    (section 4.1). *)
Definition reset_key : Py unit :=
  modify (fun w =>
    record_call ResetKey
      (set_repository_encryptor {| key_secret := None; unlocked := false |} w)).

Fixpoint bytes_eqb (a b : list Byte.byte) : bool :=
  match a, b with
  | [], [] => true
  | x :: a', y :: b' => Byte.eqb x y && bytes_eqb a' b'
  | _, _ => false
  end.

(** Modelled from the spec: [unlock(secret_bytes)] of the repository
    encryptor, whose code is missing; it moves the encryptor from locked to
    unlocked only if the secret is the right one (section 4.1). New key
    material takes the secret of the first [unlock]; the failure with a wrong
    secret is the encryptor's own. *)
Definition unlock (secret : list Byte.byte) : Py unit :=
  modify (record_call (Unlock secret)) ;;
  let* w := get_world in
  match key_secret (repository_encryptor w) with
  | None =>
      modify (set_repository_encryptor {| key_secret := Some secret; unlocked := true |})
  | Some k =>
      if bytes_eqb k secret
      then modify (set_repository_encryptor {| key_secret := Some k; unlocked := true |})
      else raise EncryptorError
  end.
End LockableEncryptor.

Module IslandEventQueue.
(** Modelled from the spec: [publish(topic, **fields)] of the event queue,
    whose code is missing; fire and forget, no return value consumed
    (section 6). *)
Definition publish (topic : IslandEventTopic) (mode : option IslandMode) : Py unit :=
  modify (record_call (Publish topic mode)).
End IslandEventQueue.

(** ** [common.utils.code_utils.secure_generate_random_string] *)

(** [string.ascii_letters], [string.digits] of the Python standard library. *)
Definition ascii_letters : string :=
  "abcdefghijklmnopqrstuvwxyzABCDEFGHIJKLMNOPQRSTUVWXYZ".
Definition digits : string := "0123456789".

(** [secrets.choice(seq)] with the random number [r]: [IndexError] on an
    empty sequence, else the element at a position below [len(seq)]. *)
Definition secrets_choice (seq : string) (r : nat) : outcome ascii :=
  match String.get (r mod String.length seq) seq with
  | Some c => Return c
  | None => Raise IndexError
  end.

(** Modelled from the spec: [secure_generate_random_string(n, character_set)]
    of [common.utils.code_utils], whose code is missing. Section 3 describes
    its result for the facade's call as a string of characters drawn from the
    given character set; the [i]-th character is chosen with the [i]-th
    random number. *)
Fixpoint secure_generate_random_string_from
    (i n : nat) (character_set : string) (rnd : nat -> nat) : outcome string :=
  match n with
  | O => Return EmptyString
  | S n' =>
      match secrets_choice character_set (rnd i) with
      | Return c =>
          match secure_generate_random_string_from (S i) n' character_set rnd with
          | Return s => Return (String c s)
          | Raise e => Raise e
          | Blocked => Blocked
          end
      | Raise e => Raise e
      | Blocked => Blocked
      end
  end.

(** The call as a facade method sees it: the string of [n] characters, or
    the exception of [secrets.choice]; the world is not touched. *)
Definition secure_generate_random_string
    (n : nat) (character_set : string) (rnd : nat -> nat) : Py string :=
  fun w => (secure_generate_random_string_from 0 n character_set rnd, w).

(** ** The facade *)

(** [OTP_EXPIRATION_TIME = 2 * 60  # 2 minutes] *)
Definition OTP_EXPIRATION_TIME : Z := 2 * 60.

(** The conversion of a Python [int] to [float] in [float + int], for the
    non-negative integers below [2^63]. *)
Definition float_of_int (z : Z) : float := PrimFloat.of_uint63 (Uint63.of_Z z).

(** The character set of [generate_otp]:
    [string.ascii_letters + string.digits + "._-"]. *)
Definition otp_character_set : string := ascii_letters ++ digits ++ "._-".

(** [_get_secret_from_credentials]: [f"{username}:{password}"]. *)
Definition _get_secret_from_credentials (username password : string) : string :=
  username ++ ":" ++ password.

(** The string holds a surrogate: the byte 0xED followed by a byte from 0xA0
    to 0xBF, the first two of the three bytes of a code point from U+D800 to
    U+DFFF. *)
Fixpoint has_surrogate (s : string) : bool :=
  match s with
  | String c1 (String c2 _ as rest) =>
      (Ascii.eqb c1 "237"
       && Nat.leb 160 (nat_of_ascii c2) && Nat.leb (nat_of_ascii c2) 191)
      || has_surrogate rest
  | _ => false
  end.

(** [str.encode()]: the bytes of the string in UTF-8; a surrogate cannot be
    encoded. *)
Definition encode (s : string) : outcome (list Byte.byte) :=
  if has_surrogate s then Raise UnicodeEncodeError
  else Return (list_byte_of_string s).

(** [AccountRole.ISLAND_INTERFACE.name]. *)
Definition ISLAND_INTERFACE : string := "ISLAND_INTERFACE".

Section Facade.
(** The token codec and the user's own token minting are objects handed to
    the facade; the facade only calls them. [parse] is given the reading of
    the clock at which it is called, as tokens expire; it raises
    [TokenValidationError] on a token it does not accept. *)
Variable parse : float -> Token -> outcome ParsedToken. (* self._token_parser.parse *)
Variable generate_token : string -> Token.              (* self._token_generator.generate_token *)
Variable get_auth_token : User -> Token.                (* user.get_auth_token *)

Definition needs_registration : Py bool :=
  let* island_api_user_role := UserDatastore.find_or_create_role ISLAND_INTERFACE in
  let* user := UserDatastore.find_user_by_roles [island_api_user_role] in
  ret (match user with Some _ => false | None => true end).

Definition revoke_all_tokens_for_user (user : User) (fresh : string) : Py unit :=
  UserDatastore.set_uniquifier user fresh.

Definition remove_user (name fresh : string) : Py unit :=
  let* user := UserDatastore.find_user_by_username name in
  match user with
  | Some u =>
      revoke_all_tokens_for_user u fresh ;;
      UserDatastore.delete_user u
  | None => ret tt
  end.

Definition _get_refresh_token_owner (refresh_token : ParsedToken) : Py User :=
  let* user := UserDatastore.find_user_by_fs_uniquifier (user_uniquifier refresh_token) in
  match user with
  | None => raise (Exception "Invalid refresh token")
  | Some u => ret u
  end.

(** The loop [for user in User.objects: self.revoke_all_tokens_for_user(user)]
    over the users [users] that the query gave; the rotation of the [i]-th
    user draws the uniquifier [fresh i]. *)
Fixpoint revoke_each (users : list User) (fresh : nat -> string) (i : nat) : Py unit :=
  match users with
  | [] => ret tt
  | user :: rest =>
      revoke_all_tokens_for_user user (fresh i) ;;
      revoke_each rest fresh (S i)
  end.

Definition revoke_all_tokens_for_all_users (fresh : nat -> string) : Py unit :=
  let* w := get_world in
  revoke_each (datastore w) fresh 0.

Definition generate_new_token_pair (refresh_token : Token) (now : float)
    : Py (Token * Token) :=
  let* parsed_refresh_token := (fun w => (parse now refresh_token, w)) in
  let* user := _get_refresh_token_owner parsed_refresh_token in
  let new_access_token := get_auth_token user in
  let new_refresh_token := generate_token (fs_uniquifier user) in
  ret (new_access_token, new_refresh_token).

Definition generate_refresh_token (user : User) : Py Token :=
  ret (generate_token (fs_uniquifier user)).

Definition generate_otp (rnd : nat -> nat) (now : float) : Py OTP :=
  let* otp := secure_generate_random_string 32 otp_character_set rnd in
  let expiration_time := PrimFloat.add now (float_of_int OTP_EXPIRATION_TIME) in
  OTPRepository.insert_otp otp expiration_time ;;
  ret otp.

Definition create_user (username password : string) (roles : list string)
    (email fresh : string) : Py User :=
  UserDatastore.create_user username password roles email fresh.

Definition _otp_ttl_elapsed (otp : OTP) (now : float) : Py bool :=
  let* expiration := OTPRepository.get_expiration otp in
  ret (PrimFloat.ltb expiration now).

Local Open Scope proc_scope.

(** [authorize_otp] as a process: taking and releasing the lock and each
    call into the OTP repository are its steps; [_otp_ttl_elapsed] reads the
    clock in the step in which it asks for the expiration. Applied to a clock
    reading and a world, [authorize_otp otp now w] is the call that nobody
    interrupts. *)
Definition authorize_otp (otp : OTP) : Proc bool :=
  with_otp_read_lock
    (try_except_UnknownRecordError
       (let* otp_is_used := atomic (OTPRepository.otp_is_used otp) in
        atomic (OTPRepository.set_used otp) ;;
        if otp_is_used then return_ false
        else
          let* elapsed := atomic_at (_otp_ttl_elapsed otp) in
          if negb elapsed then return_ true
          else return_ false)
       (return_ false)).

Local Close Scope proc_scope.

Definition _reset_island_data : Py unit :=
  IslandEventQueue.publish CLEAR_SIMULATION_DATA None ;;
  IslandEventQueue.publish RESET_AGENT_CONFIGURATION None ;;
  IslandEventQueue.publish SET_ISLAND_MODE (Some UNSET).

Definition _reset_repository_encryptor (username password : string) : Py unit :=
  let secret := _get_secret_from_credentials username password in
  LockableEncryptor.reset_key ;;
  let* secret_bytes := (fun w => (encode secret, w)) in
  LockableEncryptor.unlock secret_bytes.

Definition handle_successful_registration (username password : string) : Py unit :=
  _reset_island_data ;;
  _reset_repository_encryptor username password.

Definition _unlock_repository_encryptor (username password : string) : Py unit :=
  let secret := _get_secret_from_credentials username password in
  let* secret_bytes := (fun w => (encode secret, w)) in
  LockableEncryptor.unlock secret_bytes.

Definition handle_successful_login (username password : string) : Py unit :=
  _unlock_repository_encryptor username password.
End Facade.

Arguments authorize_otp otp : simpl never.
Arguments authorize_otp otp%_string now%_float : extra scopes.
Arguments call {A} p now w : simpl never.


(** ** Concurrent callers of [authorize_otp]

    The request handlers that call the facade are threads that share the
    world. Each runs the process of its call; the scheduler picks the thread
    that makes the next step, and a thread whose next step cannot be made, as
    it needs the lock that another thread holds, cannot be picked. *)

Module Threads.

(** The step of a process when the clock reads [now]; [None] when it cannot
    move: its next step cannot be made in this world, or the call is over. *)
Definition step {A} (now : float) (p : Proc A) (w : Island) : option (Proc A * Island) :=
  match p with
  | Over _ => None
  | Atom m => m now w
  end.

(** The calls that are under way, each with what is left of it, and the world
    they share. *)
Definition config : Type := list (Proc bool) * Island.

(** The scheduler lets thread [i] make one step while the clock reads [now]. *)
Definition sched_step (ev : nat * float) (c : config) : option config :=
  match c.1 !! ev.1 with
  | Some p =>
      match step ev.2 p c.2 with
      | Some (p', w') => Some (<[ev.1 := p']> c.1, w')
      | None => None
      end
  | None => None
  end.

(** A schedule is the list of the scheduler's choices; it runs only if every
    chosen thread can move when it is chosen. *)
Fixpoint run (schedule : list (nat * float)) (c : config) : option config :=
  match schedule with
  | [] => Some c
  | ev :: rest =>
      match sched_step ev c with
      | Some c' => run rest c'
      | None => None
      end
  end.

(** Callers that are about to call [authorize_otp], the [i]-th with the
    [i]-th of the OTPs; [n] callers with the same OTP. *)
Definition callers_with (otps : list OTP) : list (Proc bool) :=
  authorize_otp <$> otps.

Definition callers (n : nat) (otp : OTP) : list (Proc bool) :=
  callers_with (replicate n otp).

Definition finished (p : Proc bool) : bool :=
  match p with Over _ => true | Atom _ => false end.

Definition returned (b : bool) (p : Proc bool) : bool :=
  match p with
  | Over (Return b') => Bool.eqb b b'
  | _ => false
  end.

Definition count (f : Proc bool -> bool) (ps : list (Proc bool)) : nat :=
  length (List.filter f ps).

(** The callers that presented [otp]: how many there are, and how many of
    them have returned [b]. *)
Definition presenting (otp : OTP) (otps : list OTP) : nat :=
  length (List.filter (fun o => String.eqb o otp) otps).

Definition returned_to (otp : OTP) (b : bool) (otps : list OTP) (ps : list (Proc bool)) : nat :=
  length (List.filter (fun x : OTP * Proc bool => String.eqb x.1 otp && returned b x.2)
            (zip otps ps)).

(** Thread [i] has made a step of the schedule. *)
Definition started (schedule : list (nat * float)) (i : nat) : bool :=
  existsb (fun ev : nat * float => Nat.eqb ev.1 i) schedule.

(** After the schedule, the call of thread [i] is under way: the thread has
    made a step and its call is not over. *)
Definition under_way (schedule : list (nat * float)) (c : config) (i : nat) : bool :=
  started schedule i
  && match c.1 !! i with
     | Some p => negb (finished p)
     | None => false
     end.

(** The calls are serialized: after the schedule at most one call is under
    way, and the lock is held exactly while there is one. *)
Definition serialized (schedule : list (nat * float)) (c : config) : Prop :=
  (forall i j, under_way schedule c i = true -> under_way schedule c j = true -> i = j)
  /\ (otp_read_lock c.2 = true <-> exists i, under_way schedule c i = true).

End Threads.

(** ** The positions of a caller

    What is left of a call of [authorize_otp] is told by the position the
    caller has reached and by what it has read so far. The invariants of
    concurrent callers are stated on positions; [Positions.todo] gives the
    process that a caller at a position still has to run. *)

Module Positions.

Inductive pc : Type :=
  | AtAcquire                          (* before [with self._otp_read_lock] *)
  | AtIsUsed                           (* lock held, before [otp_is_used] *)
  | AtSetUsed (otp_is_used : bool)     (* before [set_used] *)
  | AtTtlElapsed                       (* the flag was unset, before [_otp_ttl_elapsed] *)
  | AtRelease (r : outcome bool)       (* result known, leaving the [with] block *)
  | Done (r : outcome bool).           (* the call is over with [r] *)

Record thread : Type := { arg : OTP; at_pc : pc }.

Definition move (t : thread) (p : pc) : thread := {| arg := arg t; at_pc := p |}.

Local Open Scope proc_scope.

(** The statements of [authorize_otp] after [set_used], after [otp_is_used],
    and all statements of the [try] block. *)
Definition after_set_used (otp : OTP) (otp_is_used : bool) : Proc bool :=
  if otp_is_used then return_ false
  else
    let* elapsed := atomic_at (_otp_ttl_elapsed otp) in
    if negb elapsed then return_ true
    else return_ false.

Definition after_is_used (otp : OTP) (otp_is_used : bool) : Proc bool :=
  atomic (OTPRepository.set_used otp) ;; after_set_used otp otp_is_used.

Definition try_block (otp : OTP) : Proc bool :=
  let* otp_is_used := atomic (OTPRepository.otp_is_used otp) in
  after_is_used otp otp_is_used.

Local Close Scope proc_scope.

(** Statements inside [try: ... except UnknownRecordError: return False],
    inside [with self._otp_read_lock]. *)
Definition guarded (statements : Proc bool) : Proc bool :=
  release_after (try_except_UnknownRecordError statements (return_ false)).

(** The process that a thread at its position still has to run. *)
Definition todo (t : thread) : Proc bool :=
  match at_pc t with
  | AtAcquire => authorize_otp (arg t)
  | AtIsUsed => guarded (try_block (arg t))
  | AtSetUsed b => guarded (after_is_used (arg t) b)
  | AtTtlElapsed => guarded (after_set_used (arg t) false)
  | AtRelease r => release_after (Over r)
  | Done r => Over r
  end.

(** The step of a thread from its position when the clock reads [now]. *)
Definition step (now : float) (t : thread) (w : Island) : option (thread * Island) :=
  match at_pc t with
  | AtAcquire =>
      if otp_read_lock w then None
      else Some (move t AtIsUsed, set_otp_read_lock true w)
  | AtIsUsed =>
      Some (move t match otp_repository w !! arg t with
                   | Some r => AtSetUsed (used r)
                   | None => AtRelease (Return false)
                   end, w)
  | AtSetUsed b =>
      Some (move t (if b then AtRelease (Return false) else AtTtlElapsed),
            set_otp_repository (alter OTPRepository.mark_used (arg t) (otp_repository w)) w)
  | AtTtlElapsed =>
      Some (move t (AtRelease (Return match otp_repository w !! arg t with
                                      | Some r => negb (PrimFloat.ltb (expiration_time r) now)
                                      | None => false
                                      end)), w)
  | AtRelease r => Some (move t (Done r), set_otp_read_lock false w)
  | Done _ => None
  end.

(** The threads and the world they share. *)
Definition config : Type := list thread * Island.

Definition sched_step (ev : nat * float) (c : config) : option config :=
  match c.1 !! ev.1 with
  | Some t =>
      match step ev.2 t c.2 with
      | Some (t', w') => Some (<[ev.1 := t']> c.1, w')
      | None => None
      end
  | None => None
  end.

Fixpoint run (schedule : list (nat * float)) (c : config) : option config :=
  match schedule with
  | [] => Some c
  | ev :: rest =>
      match sched_step ev c with
      | Some c' => run rest c'
      | None => None
      end
  end.

(** The configuration of processes that a configuration of positions stands
    for. *)
Definition processes (c : config) : Threads.config := (todo <$> c.1, c.2).

(** Callers that are about to call [authorize_otp]. *)
Definition callers_with (otps : list OTP) : list thread :=
  (fun otp => {| arg := otp; at_pc := AtAcquire |}) <$> otps.

Definition callers (n : nat) (otp : OTP) : list thread := callers_with (replicate n otp).

(** The thread is inside the section that the lock guards. *)
Definition inside (t : thread) : bool :=
  match at_pc t with
  | AtIsUsed | AtSetUsed _ | AtTtlElapsed | AtRelease _ => true
  | AtAcquire | Done _ => false
  end.

Definition finished (t : thread) : bool :=
  match at_pc t with Done _ => true | _ => false end.

Definition returned (b : bool) (t : thread) : bool :=
  match at_pc t with
  | Done (Return b') => Bool.eqb b b'
  | _ => false
  end.

Definition count (p : thread -> bool) (ts : list thread) : nat :=
  length (List.filter p ts).

(** The threads of [ts] exclude one another: no two of them are inside the
    guarded section. *)
Definition exclusive (ts : list thread) : Prop :=
  forall i j ti tj,
    ts !! i = Some ti -> ts !! j = Some tj ->
    inside ti = true -> inside tj = true -> i = j.

(** The lock is held exactly by the one thread that is inside, if any. *)
Definition lock_owned (c : config) : Prop :=
  exists owner : option nat,
    otp_read_lock c.2 = match owner with Some _ => true | None => false end
    /\ forall i t, c.1 !! i = Some t -> (inside t = true <-> owner = Some i).

(** While the lock is held, some thread is inside the guarded section. *)
Definition owner_inside (c : config) : Prop :=
  otp_read_lock c.2 = true ->
  exists i t, c.1 !! i = Some t /\ inside t = true.

(** The threads that the schedule has moved are those that have left the
    first position. *)
Definition moved (schedule : list (nat * float)) (c : config) : Prop :=
  forall i t, c.1 !! i = Some t ->
    Threads.started schedule i = negb match at_pc t with AtAcquire => true | _ => false end.

(** The thread has read the OTP as unused and has marked it, or has the
    result [True] from that: it is the caller the OTP authorizes. *)
Definition authorized (t : thread) : bool :=
  match at_pc t with
  | AtTtlElapsed | AtRelease (Return true) | Done (Return true) => true
  | _ => false
  end.

(** What the position of a thread tells about the record [r] of its OTP. *)
Definition agrees (r : OTPRecord) (t : thread) : Prop :=
  match at_pc t with
  | AtAcquire | AtIsUsed => True
  | AtSetUsed b => b = used r
  | AtTtlElapsed => used r = true
  | AtRelease res | Done res => used r = true /\ exists b, res = Return b
  end.

(** The thread presents the OTP [o]. *)
Definition presents (o : OTP) (t : thread) : bool := String.eqb (arg t) o.

(** The thread presents [o] and is the caller that [o] authorizes. *)
Definition authorized_for (o : OTP) (t : thread) : bool :=
  presents o t && authorized t.

(** The thread presented [o] and its call returned [b]. *)
Definition returned_for (o : OTP) (b : bool) (t : thread) : bool :=
  presents o t && returned b t.

(** The invariant of callers of [authorize_otp], of which some present the
    OTP [o] that expires at [expiration]: the record is there, and the right
    to the answer [True] is either still with the record (the flag used is
    unset) or with exactly one thread. *)
Definition one_right (o : OTP) (expiration : float) (c : config) : Prop :=
  exists r,
    otp_repository c.2 !! o = Some r
    /\ expiration_time r = expiration
    /\ count (authorized_for o) c.1 + (if used r then 0 else 1) = 1
    /\ Forall (fun t => arg t = o -> agrees r t) c.1.

(** What the position of a thread that presents an unknown OTP can be: it
    never gets to mark or to ask for the expiration, and its result is
    [False]. *)
Definition turned_down (t : thread) : Prop :=
  match at_pc t with
  | AtAcquire | AtIsUsed => True
  | AtSetUsed _ | AtTtlElapsed => False
  | AtRelease res | Done res => res = Return false
  end.

(** The invariant of callers some of which present the OTP [o] that the
    repository does not hold. *)
Definition unknown_stays (o : OTP) (c : config) : Prop :=
  otp_repository c.2 !! o = None
  /\ Forall (fun t => arg t = o -> turned_down t) c.1.

(** The world of the callers of [authorize_otp(o)] that started in [w0]: only
    the lock and the mark on [o] can differ, and the mark is there once a
    caller has passed [set_used]. *)
Definition only_marked (o : OTP) (w0 : Island) (c : config) : Prop :=
  set_otp_read_lock false (set_otp_repository ∅ c.2)
  = set_otp_read_lock false (set_otp_repository ∅ w0)
  /\ (otp_repository c.2 = otp_repository w0
      \/ otp_repository c.2 = alter OTPRepository.mark_used o (otp_repository w0))
  /\ Forall (fun t => arg t = o)  c.1
  /\ Forall (fun t =>
               match at_pc t with
               | AtTtlElapsed | AtRelease _ | Done _ =>
                   otp_repository c.2 = alter OTPRepository.mark_used o (otp_repository w0)
               | AtAcquire | AtIsUsed | AtSetUsed _ => True
               end) c.1.

(** The steps a thread has left at most before its call is over. *)
Definition steps_left (t : thread) : nat :=
  match at_pc t with
  | AtAcquire => 5
  | AtIsUsed => 4
  | AtSetUsed _ => 3
  | AtTtlElapsed => 2
  | AtRelease _ => 1
  | Done _ => 0
  end.

Definition total_steps_left (ts : list thread) : nat :=
  list_sum (List.map steps_left ts).

End Positions.

(** ** Runs of facade operations

    A client of the facade as a list of the calls it makes, with the clock
    reading and the random numbers of each. *)

Inductive Op : Type :=
  | GenerateOtp (rnd : nat -> nat) (now : float)
  | AuthorizeOtp (otp : OTP) (now : float)
  | GenerateNewTokenPair (refresh_token : Token) (now : float)
  | GenerateRefreshToken (user : User)
  | RevokeAllTokensForUser (user : User) (fresh : string)
  | RevokeAllTokensForAllUsers (fresh : nat -> string)
  | RemoveUser (name fresh : string)
  | NeedsRegistration
  | CreateUser (username password : string) (roles : list string) (email fresh : string)
  | HandleSuccessfulRegistration (username password : string)
  | HandleSuccessfulLogin (username password : string).

Section Runs.
Variable parse : float -> Token -> outcome ParsedToken.
Variable generate_token : string -> Token.
Variable get_auth_token : User -> Token.

(** The world after the call [op]; what the call returned is dropped. *)
Definition exec (op : Op) (w : Island) : Island :=
  match op with
  | GenerateOtp rnd now => (generate_otp rnd now w).2
  | AuthorizeOtp otp now => (authorize_otp otp now w).2
  | GenerateNewTokenPair r now =>
      (generate_new_token_pair parse generate_token get_auth_token r now w).2
  | GenerateRefreshToken u => (generate_refresh_token generate_token u w).2
  | RevokeAllTokensForUser u fresh => (revoke_all_tokens_for_user u fresh w).2
  | RevokeAllTokensForAllUsers fresh => (revoke_all_tokens_for_all_users fresh w).2
  | RemoveUser n fresh => (remove_user n fresh w).2
  | NeedsRegistration => (needs_registration w).2
  | CreateUser u p rs email fresh => (create_user u p rs email fresh w).2
  | HandleSuccessfulRegistration u p => (handle_successful_registration u p w).2
  | HandleSuccessfulLogin u p => (handle_successful_login u p w).2
  end.

Definition exec_all (ops : list Op) (w : Island) : Island :=
  fold_left (fun w op => exec op w) ops w.
End Runs.

(** The OTP value that [generate_otp] draws with the random numbers [rnd]. *)
Definition drawn_otp (rnd : nat -> nat) : outcome string :=
  secure_generate_random_string_from 0 32 otp_character_set rnd.

(** [op], called in the world [w], is not a [generate_otp] that draws a value
    the OTP repository already holds: the OTPs it creates are new ones. *)
Definition new_draw (op : Op) (w : Island) : bool :=
  match op with
  | GenerateOtp rnd _ =>
      match drawn_otp rnd with
      | Return v => match otp_repository w !! v with None => true | Some _ => false end
      | _ => true
      end
  | _ => true
  end.

(** [op] is not a call of [authorize_otp] with [otp]. *)
Definition not_authorize (otp : OTP) (op : Op) : bool :=
  match op with
  | AuthorizeOtp otp' _ => negb (String.eqb otp' otp)
  | _ => true
  end.

(** [op] is not applied to the user [subject]: it neither revokes the tokens
    of this user, alone or with those of all users, nor removes the user. *)
Definition keeps_subject (subject : User) (op : Op) : bool :=
  match op with
  | RevokeAllTokensForUser user _ => negb (String.eqb (username user) (username subject))
  | RevokeAllTokensForAllUsers _ => false
  | RemoveUser name _ => negb (String.eqb name (username subject))
  | _ => true
  end.


Section Clients.
Variable parse : float -> Token -> outcome ParsedToken.
Variable generate_token : string -> Token.
Variable get_auth_token : User -> Token.

(** Every [generate_otp] of the run [ops] from [w] draws a new value. *)
Fixpoint new_draws (ops : list Op) (w : Island) : bool :=
  match ops with
  | [] => true
  | op :: rest =>
      new_draw op w && new_draws rest (exec parse generate_token get_auth_token op w)
  end.

(** The user a refresh token belongs to in the world [w] when the clock
    reads [now], if the codec accepts the token and the user is there. *)
Definition owner (refresh_token : Token) (now : float) (w : Island) : option User :=
  match parse now refresh_token with
  | Return p =>
      List.find (fun x => String.eqb (fs_uniquifier x) (user_uniquifier p)) (datastore w)
  | _ => None
  end.
End Clients.


(** The characters section 3 of the spec allows in an OTP value: letters,
    digits and [._-]. *)
Definition otp_char_ok (c : ascii) : bool :=
  let n := nat_of_ascii c in
  (Nat.leb 97 n && Nat.leb n 122) || (Nat.leb 65 n && Nat.leb n 90)
  || (Nat.leb 48 n && Nat.leb n 57)
  || Ascii.eqb c "." || Ascii.eqb c "_" || Ascii.eqb c "-".

(** ** A token codec to run the token flow on

    The real codec signs the uniquifier; to evaluate the facade on concrete
    tokens this one writes the uniquifier after the prefix [rt:] and accepts
    exactly the tokens of that shape, whatever the clock reads. *)

Module PlainCodec.
Definition generate_token (uniquifier : string) : Token := "rt:" ++ uniquifier.

Definition parse (_ : float) (t : Token) : outcome ParsedToken :=
  if String.prefix "rt:" t
  then Return {| user_uniquifier := String.substring 3 (String.length t - 3) t |}
  else Raise TokenValidationError.

Definition get_auth_token (u : User) : Token := "at:" ++ fs_uniquifier u.
End PlainCodec.

(** Modelled from the spec: a token codec whose tokens expire. The codec is
    missing; sections 3 and 6 have a token encode the subject's uniquifier and
    an expiry, and [parse] fail with the token-validation error on a token
    whose expiry has passed. This one issues the tokens of [PlainCodec] and
    lets all of them expire at the instant [expires]. *)
Module ExpiringCodec.
Definition parse (expires now : float) (t : Token) : outcome ParsedToken :=
  if PrimFloat.ltb expires now then Raise TokenValidationError
  else PlainCodec.parse now t.
End ExpiringCodec.

(** A world with nothing in it: no user, no OTP, a locked encryptor without
    key material, the lock free. *)
Definition empty_island : Island :=
  {| datastore := []; role_names := []; otp_repository := ∅;
     repository_encryptor := {| key_secret := None; unlocked := false |};
     otp_read_lock := false; calls := [] |}.

(** ** Sample runs

    Concrete worlds and clients on which the statements below are run. *)

Module Sample.
(** Random numbers 0, 1, 2, ...: the OTP drawn is the first 32 characters of
    the character set. *)
Definition rnd (i : nat) : nat := i.
Definition otp : OTP := "abcdefghijklmnopqrstuvwxyzABCDEF".

(** Random numbers 1, 2, 3, ...: another OTP. *)
Definition rnd' (i : nat) : nat := S i.
Definition otp' : OTP := "bcdefghijklmnopqrstuvwxyzABCDEFG".

(** The world after [generate_otp] at the clock reading 1000.0 in the empty
    world; the OTP expires at 1120.0. *)
Definition world : Island := (generate_otp rnd 1000 empty_island).2.

(** The string of one code point, the surrogate U+D800, which
    [str.encode()] cannot encode. *)
Definition lone_surrogate : string := String "237" (String "160" (String "128" "")).

(** Two registered users and the world that holds them and nothing else. *)
Definition alice : User :=
  {| username := "alice"; fs_uniquifier := "u1"; roles := [ISLAND_INTERFACE] |}.
Definition bob : User := {| username := "bob"; fs_uniquifier := "u2"; roles := [] |}.
Definition island : Island := set_datastore [alice; bob] empty_island.

(** What a client does between the creation of [otp] and its first use. *)
Definition before : list Op :=
  [ GenerateOtp rnd' 1001;
    AuthorizeOtp "unknown" 1002;
    HandleSuccessfulRegistration "alice" "secret";
    AuthorizeOtp otp' 1003 ].

(** What a client does after the first use of [otp]. *)
Definition after : list Op :=
  [ AuthorizeOtp otp 1101;
    GenerateOtp (fun i => i + 2) 1102;
    HandleSuccessfulLogin "alice" "secret";
    AuthorizeOtp otp 1103 ].

(** Three callers of [authorize_otp(otp)]: the scheduler lets caller 2 in
    first, then caller 0, then caller 1, while the clock goes from 1005.0 to
    the expiration 1120.0. Caller 2 makes five steps; the others find the OTP
    used and are through after four. *)
Definition schedule : list (nat * float) :=
  [ (2, 1005%float); (2, 1006%float); (2, 1007%float); (2, 1008%float);
    (2, 1009%float);
    (0, 1010%float); (0, 1011%float); (0, 1012%float); (0, 1013%float);
    (1, 1120%float); (1, 1120%float); (1, 1120%float); (1, 1120%float) ].
End Sample.

(** ** Further notions for the token flow *)

(** What the rotations of [revoke_each] make of the list of users. *)
Fixpoint rotate_each (users : list User) (fresh : nat -> string) (i : nat)
    (l : list User) : list User :=
  match users with
  | [] => l
  | user :: rest =>
      rotate_each rest fresh (S i)
        (List.map (UserDatastore.rotate (username user) (fresh i)) l)
  end.

(** Among the users [l] only those with the user name of [user] have the
    uniquifier [u]. *)
Definition only_holder (user : User) (u : string) (l : list User) : bool :=
  forallb (fun x => implb (String.eqb (fs_uniquifier x) u)
                          (String.eqb (username x) (username user))) l.

(** Among the users [l] only those called [name] have the uniquifier [u]. *)
Definition only_named (name u : string) (l : list User) : bool :=
  forallb (fun x => implb (String.eqb (fs_uniquifier x) u)
                          (String.eqb (username x) name)) l.

(** None of the first [n] uniquifiers that [fresh] draws is [u]. *)
Definition none_drawn (fresh : nat -> string) (n : nat) (u : string) : bool :=
  forallb (fun i => negb (String.eqb (fresh i) u)) (seq 0 n).

(** The string has no colon. *)
Fixpoint no_colon (s : string) : bool :=
  match s with
  | EmptyString => true
  | String c s' => negb (Ascii.eqb c ":") && no_colon s'
  end.

(** ** More sample runs *)

Module Sample2.
(** The world after a second [generate_otp], at the clock reading 1001.0. *)
Definition world : Island := (generate_otp Sample.rnd' 1001 Sample.world).2.

(** Four callers: one presents the first OTP, two the second, one an OTP that
    was never created. *)
Definition mixed : list OTP := [ Sample.otp; Sample.otp'; "unknown"; Sample.otp' ].

(** The scheduler lets in caller 3, then 0, then 2 (which is through after
    three steps), then 1 (which finds its OTP used, four steps). *)
Definition schedule : list (nat * float) :=
  (replicate 5 (3, 1010%float) ++ replicate 5 (0, 1020%float) ++
   replicate 3 (2, 1030%float) ++ replicate 4 (1, 1040%float))%list.
End Sample2.

(** * The version update service

    A shallow embedding of [monkey_island/cc/services/version_update.py].
    The class attribute [newer_version] and the requests sent are the state;
    the file system, the JSON parser, the version server and the builtins
    [str] and [int] are what the service is run against. *)

Module VersionUpdate.

(** The Python values that a JSON document is made of. *)
#[warnings="-register-all"]
Inductive pyval : Type :=
  | PyNone
  | PyBool (b : bool)
  | PyInt (z : Z)
  | PyFloat (f : float)
  | PyStr (s : string)
  | PyList (l : list pyval)
  | PyDict (d : list (string * pyval)).

(** The exceptions of the service and of what it calls; all of them are
    subclasses of [Exception]. *)
Inductive error : Type :=
  | OSError                        (* [open] *)
  | JSONDecodeError                (* [json.load], [reply.json()] *)
  | KeyError (key : string)
  | TypeError
  | AttributeError
  | ValueError
  | RequestException               (* [requests.exceptions.RequestException] *)
  | VersionServerConnectionError.

Inductive result (A : Type) : Type :=
  | Ok (a : A)
  | Err (e : error).
Arguments Ok {A} a.
Arguments Err {A} e.

(** The state of the service: the class attribute [newer_version] and the
    URLs requested so far, oldest first. *)
Record service : Type := { newer_version : pyval; requested : list string }.

(** [VERSION_SERVER_URL_PREF], [VERSION_SERVER_CHECK_NEW_URL],
    [VERSION_SERVER_DOWNLOAD_URL]. *)
Definition VERSION_SERVER_URL_PREF : string := "https://updates.infectionmonkey.com".
Definition VERSION_SERVER_CHECK_NEW_URL : string :=
  VERSION_SERVER_URL_PREF ++ "?deployment=%s&monkey_version=%s".
Definition VERSION_SERVER_DOWNLOAD_URL : string :=
  VERSION_SERVER_CHECK_NEW_URL ++ "&is_download=true".

(** The value under the key in a dictionary, the first entry counts. *)
Fixpoint assoc (key : string) (d : list (string * pyval)) : option pyval :=
  match d with
  | [] => None
  | (k, v) :: d' => if String.eqb k key then Some v else assoc key d'
  end.

(** [obj[key]] for a string [key]: the entry of a dictionary or [KeyError];
    a list or a string wants an integer index, the other values cannot be
    subscripted. *)
Definition subscript (obj : pyval) (key : string) : result pyval :=
  match obj with
  | PyDict d => match assoc key d with Some v => Ok v | None => Err (KeyError key) end
  | _ => Err TypeError
  end.

(** [obj.get(key, None)]: only a dictionary has the method. *)
Definition get_method (obj : pyval) (key : string) : result pyval :=
  match obj with
  | PyDict d => match assoc key d with Some v => Ok v | None => Ok PyNone end
  | _ => Err AttributeError
  end.

(** [s.split(sep)] for a separator of one character. *)
Fixpoint split (sep : ascii) (s : string) : list string :=
  match s with
  | EmptyString => [EmptyString]
  | String c s' =>
      if Ascii.eqb c sep then EmptyString :: split sep s'
      else match split sep s' with
           | h :: t => String c h :: t
           | [] => [String c EmptyString]
           end
  end.

Section Service.
Variable MONKEY_ISLAND_ABS_PATH : string.
Variable os_path_join : string -> list string -> string.   (* os.path.join(a, *p) *)
Variable open_read : string -> result string.              (* open(path, "r"), read *)
Variable json_loads : string -> result pyval.              (* json.loads *)
Variable get_version : string.                             (* common.version.get_version() *)
Variable str_of : pyval -> string.                         (* str(x) for x not a str *)
Variable int_accepts : string -> bool.                     (* int(x) does not raise *)

(** What [%s] puts for a value: a [str] as it is, [str(x)] for another. *)
Definition format_s (v : pyval) : string :=
  match v with
  | PyStr s => s
  | _ => str_of v
  end.

(** [fmt % args] for a format with the conversions [%s] and [%%] only;
    [None] for a format with another conversion. Too few or too many
    arguments are a [TypeError]. *)
Fixpoint percent_format (fmt : string) (args : list pyval) : option (result string) :=
  match fmt with
  | EmptyString =>
      match args with
      | [] => Some (Ok EmptyString)
      | _ :: _ => Some (Err TypeError)
      end
  | String "%" (String "s" rest) =>
      match args with
      | a :: args' =>
          match percent_format rest args' with
          | Some (Ok r) => Some (Ok (format_s a ++ r))
          | other => other
          end
      | [] => Some (Err TypeError)
      end
  | String "%" (String "%" rest) =>
      match percent_format rest args with
      | Some (Ok r) => Some (Ok (String "%" r))
      | other => other
      end
  | String "%" _ => None
  | String c rest =>
      match percent_format rest args with
      | Some (Ok r) => Some (Ok (String c r))
      | other => other
      end
  end.

(** [fmt % args] in the service: its formats have no other conversion. *)
Definition percent (fmt : string) (args : list pyval) : result string :=
  match percent_format fmt args with
  | Some r => r
  | None => Err ValueError
  end.

(** The body of the [try] in [get_deployment_from_file]. *)
Definition read_deployment (file_path : string) : result pyval :=
  match open_read file_path with
  | Ok content =>
      match json_loads content with
      | Ok deployment_info => subscript deployment_info "deployment"
      | Err e => Err e
      end
  | Err e => Err e
  end.

(** [get_deployment_from_file]: [except Exception] takes every failure. *)
Definition get_deployment_from_file (file_path : string) : result pyval :=
  match read_deployment file_path with
  | Ok deployment => Ok deployment
  | Err _ => Ok (PyStr "unknown")
  end.

Definition deployment_info_file_path : string :=
  os_path_join MONKEY_ISLAND_ABS_PATH ["cc"; "deployment.json"].

(** [get_download_link]. *)
Definition get_download_link : result string :=
  match get_deployment_from_file deployment_info_file_path with
  | Ok deployment => percent VERSION_SERVER_DOWNLOAD_URL [deployment; PyStr get_version]
  | Err e => Err e
  end.

(** The URL that [_check_new_version] asks. *)
Definition check_new_url : result string :=
  match get_deployment_from_file deployment_info_file_path with
  | Ok deployment => percent VERSION_SERVER_CHECK_NEW_URL [deployment; PyStr get_version]
  | Err e => Err e
  end.

(** [[int(x) for x in parts]]: the first part that [int] turns down raises
    [ValueError]. *)
Fixpoint all_int (parts : list string) : result unit :=
  match parts with
  | [] => Ok tt
  | x :: rest => if int_accepts x then all_int rest else Err ValueError
  end.

(** What [_check_new_version] does with the value [res] of the reply. *)
Definition validate (res : pyval) : result pyval :=
  match res with
  | PyBool false => Ok res
  | PyStr s =>
      match all_int (split "." s) with
      | Ok _ => Ok res
      | Err e => Err e
      end
  | _ => Err AttributeError            (* no method [split] *)
  end.

(** [_check_new_version] against the version server [server]: what
    [requests.get(url)] does, and for a reply what [reply.json()] gives. *)
Definition _check_new_version (server : string -> result (result pyval))
    (st : service) : result pyval * service :=
  match check_new_url with
  | Err e => (Err e, st)
  | Ok url =>
      let st' := {| newer_version := newer_version st;
                    requested := requested st ++ [url] |} in
      match server url with
      | Err RequestException => (Err VersionServerConnectionError, st')
      | Err e => (Err e, st')
      | Ok reply =>
          match reply with
          | Err e => (Err e, st')
          | Ok body =>
              match get_method body "newer_version" with
              | Err e => (Err e, st')
              | Ok res => (validate res, st')
              end
          end
      end
  end.

(** [get_newer_version]. *)
Definition get_newer_version (server : string -> result (result pyval))
    (st : service) : result pyval * service :=
  match newer_version st with
  | PyNone =>
      match _check_new_version server st with
      | (Ok v, st') =>
          (Ok v, {| newer_version := v; requested := requested st' |})
      | (Err VersionServerConnectionError, st') => (Ok (newer_version st'), st')
      | (Err e, st') => (Err e, st')
      end
  | cached => (Ok cached, st)
  end.

(** The state after the calls of [get_newer_version] against the servers
    [servers], one server per call; what the calls return is dropped. *)
Definition poll (servers : list (string -> result (result pyval))) (st : service) : service :=
  fold_left (fun st server => (get_newer_version server st).2) servers st.

(** What [newer_version] may hold: [None], [False], or a version string all
    of whose parts between the dots [int] accepts. *)
Definition well_formed (v : pyval) : bool :=
  match v with
  | PyNone => true
  | PyBool false => true
  | PyStr s => forallb int_accepts (split "." s)
  | _ => false
  end.
End Service.

End VersionUpdate.

(** ** A sample installation for the version update service *)

Module SampleService.
Import VersionUpdate.

(** No deployment file. *)
Definition open_read (_ : string) : result string := Err OSError.
Definition json_loads (_ : string) : result pyval := Err JSONDecodeError.
Definition os_path_join (a : string) (p : list string) : string :=
  fold_left (fun acc x => acc ++ "/" ++ x) p a.
Definition str_of (_ : pyval) : string := "?".

(** A stand-in for [int] that agrees with it on the sample inputs: it accepts
    the strings of decimal digits that are not empty. [int] itself also
    accepts a sign, blanks around the number and underscores between digits;
    the properties of the service are stated for every [int_accepts]. *)
Definition int_accepts (s : string) : bool :=
  negb (String.eqb s EmptyString)
  && forallb (fun c => Nat.leb 48 (nat_of_ascii c) && Nat.leb (nat_of_ascii c) 57)
       (list_ascii_of_string s).

(** A version server that cannot be reached, and one that answers. *)
Definition server_down (_ : string) : result (result pyval) := Err RequestException.
Definition server_says (v : pyval) (_ : string) : result (result pyval) :=
  Ok (Ok (PyDict [("newer_version", v)])).

(** The service before its first check. *)
Definition fresh : service := {| newer_version := PyNone; requested := [] |}.

Definition get_newer_version :=
  VersionUpdate.get_newer_version "/island" os_path_join open_read json_loads "2.0.0"
    str_of int_accepts.
Definition _check_new_version :=
  VersionUpdate._check_new_version "/island" os_path_join open_read json_loads "2.0.0"
    str_of int_accepts.
Definition poll :=
  VersionUpdate.poll "/island" os_path_join open_read json_loads "2.0.0"
    str_of int_accepts.
End SampleService.

(** Unfolds the combinators of [Py] in the goal and in the hypotheses. *)
Ltac unfold_py :=
  unfold bind, ret, raise, get_world, modify in *; simpl in *.

(** * Properties *)

(** ** What the facade's OTP methods compute *)

Lemma mark_used_of_used (r : OTPRecord) :
  used r = true -> OTPRepository.mark_used r = r.
Proof. destruct r; simpl; intros ->; reflexivity. Qed.

Lemma call_over {A} (r : outcome A) (now : float) (w : Island) :
  Over r now w = (r, w).
Proof. reflexivity. Qed.

Lemma call_atom {A} (m : float -> Island -> option (Proc A * Island))
    (now : float) (w : Island) :
  Atom m now w
  = match m now w with
    | Some (p', w') => p' now w'
    | None => (Blocked, w)
    end.
Proof. reflexivity. Qed.

(** [authorize_otp] in closed form. *)
Lemma authorize_otp_eq (otp : OTP) (now : float) (w : Island) :
  authorize_otp otp now w =
    if otp_read_lock w then (Blocked, w)
    else
      match otp_repository w !! otp with
      | None => (Return false, w)
      | Some r =>
          (Return (negb (used r) && negb (PrimFloat.ltb (expiration_time r) now)),
           set_otp_repository (alter OTPRepository.mark_used otp (otp_repository w)) w)
      end.
Proof.
  unfold authorize_otp, with_otp_read_lock. rewrite call_atom.
  destruct (otp_read_lock w) eqn:Hlock; [reflexivity|].
  unfold atomic, atomic_at, OTPRepository.otp_is_used, OTPRepository.set_used,
    _otp_ttl_elapsed, OTPRepository.get_expiration, return_.
  unfold_py. cbn. rewrite call_atom. cbn.
  destruct (otp_repository w !! otp) as [r|] eqn:Hr; cbn.
  - rewrite call_atom. cbn. destruct (used r) eqn:Hu; cbn.
    + rewrite call_atom, call_over. f_equal. destruct w; simpl in *; subst; reflexivity.
    + rewrite call_atom. cbn. rewrite lookup_alter_eq, Hr; cbn.
      destruct (PrimFloat.ltb (expiration_time r) now); cbn;
        rewrite call_atom, call_over;
        (f_equal; destruct w; simpl in *; subst; reflexivity).
  - rewrite call_atom, call_over. f_equal. destruct w; simpl in *; subst; reflexivity.
Qed.

(** ** The random string *)

Lemma get_in_range (s : string) (n : nat) :
  n < String.length s ->
  exists c, String.get n s = Some c /\ In c (list_ascii_of_string s).
Proof.
  revert n; induction s as [|a s IH]; intros n Hn; simpl in *; [lia|].
  destruct n as [|n].
  - exists a; split; [reflexivity | now left].
  - destruct (IH n) as (c & Hc & Hin); [lia|].
    exists c; split; [exact Hc | now right].
Qed.

Lemma secrets_choice_returns (seq : string) (r : nat) :
  seq <> EmptyString ->
  exists c, secrets_choice seq r = Return c /\ In c (list_ascii_of_string seq).
Proof.
  intros Hne. unfold secrets_choice.
  destruct (get_in_range seq (r mod String.length seq)) as (c & Hc & Hin).
  - apply Nat.mod_upper_bound. destruct seq; [congruence | simpl; lia].
  - exists c. rewrite Hc. split; [reflexivity | exact Hin].
Qed.

(** On a character set that is not empty the random string is returned, has
    the length asked for and holds characters of the set only. *)
Lemma secure_generate_random_string_from_returns
    (character_set : string) (rnd : nat -> nat) (n i : nat) :
  character_set <> EmptyString ->
  exists s,
    secure_generate_random_string_from i n character_set rnd = Return s
    /\ String.length s = n
    /\ Forall (fun c => In c (list_ascii_of_string character_set)) (list_ascii_of_string s).
Proof.
  intros Hne. revert i; induction n as [|n IH]; intros i; simpl.
  - exists EmptyString; repeat split; constructor.
  - destruct (secrets_choice_returns character_set (rnd i) Hne) as (c & -> & Hin).
    destruct (IH (S i)) as (s & -> & Hlen & Hall).
    exists (String c s); simpl; repeat split; [congruence|].
    constructor; assumption.
Qed.

Lemma otp_character_set_ok :
  forallb otp_char_ok (list_ascii_of_string otp_character_set) = true.
Proof. vm_compute. reflexivity. Qed.

Lemma drawn_otp_returns (rnd : nat -> nat) :
  exists o,
    drawn_otp rnd = Return o
    /\ String.length o = 32
    /\ Forall (fun c => otp_char_ok c = true) (list_ascii_of_string o).
Proof.
  destruct (secure_generate_random_string_from_returns otp_character_set rnd 32 0)
    as (o & Ho & Hlen & Hall); [discriminate|].
  exists o; repeat split; [exact Ho | exact Hlen |].
  eapply Forall_impl; [exact Hall|]. intros c Hc; simpl in Hc.
  pose proof otp_character_set_ok as Hok.
  rewrite forallb_forall in Hok. apply Hok, Hc.
Qed.

(** [generate_otp] in closed form. *)
Lemma generate_otp_eq (rnd : nat -> nat) (now : float) (w : Island) (o : OTP) :
  drawn_otp rnd = Return o ->
  generate_otp rnd now w =
    (Return o,
     set_otp_repository
       (<[o := {| expiration_time := PrimFloat.add now (float_of_int OTP_EXPIRATION_TIME);
                  used := false |}]> (otp_repository w)) w).
Proof.
  intros Ho. unfold generate_otp, secure_generate_random_string, bind.
  unfold drawn_otp in Ho. rewrite Ho. reflexivity.
Qed.

Lemma generate_otp_inv (rnd : nat -> nat) (now : float) (w w' : Island) (o : OTP) :
  generate_otp rnd now w = (Return o, w') ->
  drawn_otp rnd = Return o
  /\ w' = set_otp_repository
       (<[o := {| expiration_time := PrimFloat.add now (float_of_int OTP_EXPIRATION_TIME);
                  used := false |}]> (otp_repository w)) w.
Proof.
  intros H. destruct (drawn_otp_returns rnd) as (o' & Ho' & _).
  rewrite (generate_otp_eq rnd now w o' Ho') in H.
  injection H as <- <-. split; [exact Ho' | reflexivity].
Qed.

(** ** What each call leaves alone *)

Lemma set_same_datastore (w : Island) : set_datastore (datastore w) w = w.
Proof. destruct w; reflexivity. Qed.

Lemma revoke_each_eq (users : list User) (fresh : nat -> string) (i : nat) (w : Island) :
  revoke_each users fresh i w
  = (Return tt, set_datastore (rotate_each users fresh i (datastore w)) w).
Proof.
  revert i w; induction users as [|u users IH]; intros i w; simpl.
  - unfold ret. rewrite set_same_datastore. reflexivity.
  - unfold revoke_all_tokens_for_user, UserDatastore.set_uniquifier. unfold_py.
    rewrite IH. reflexivity.
Qed.

Lemma revoke_all_tokens_for_all_users_eq (fresh : nat -> string) (w : Island) :
  revoke_all_tokens_for_all_users fresh w
  = (Return tt, set_datastore (rotate_each (datastore w) fresh 0 (datastore w)) w).
Proof.
  unfold revoke_all_tokens_for_all_users. unfold_py. apply revoke_each_eq.
Qed.

Lemma needs_registration_frame (w : Island) :
  otp_repository (needs_registration w).2 = otp_repository w
  /\ otp_read_lock (needs_registration w).2 = otp_read_lock w
  /\ datastore (needs_registration w).2 = datastore w
  /\ repository_encryptor (needs_registration w).2 = repository_encryptor w
  /\ calls (needs_registration w).2 = calls w.
Proof.
  unfold needs_registration, UserDatastore.find_or_create_role,
    UserDatastore.find_user_by_roles.
  unfold_py. destruct (existsb _ (role_names w)); simpl; auto.
Qed.

Lemma create_user_frame (u p : string) (rs : list string) (email fresh : string)
    (w : Island) :
  otp_repository (create_user u p rs email fresh w).2 = otp_repository w
  /\ otp_read_lock (create_user u p rs email fresh w).2 = otp_read_lock w
  /\ repository_encryptor (create_user u p rs email fresh w).2 = repository_encryptor w
  /\ calls (create_user u p rs email fresh w).2 = calls w
  /\ exists new : list User,
       datastore (create_user u p rs email fresh w).2 = (datastore w ++ new)%list.
Proof.
  unfold create_user, UserDatastore.create_user. unfold_py.
  destruct (existsb _ (datastore w)); simpl; repeat split.
  - exists []. rewrite app_nil_r. reflexivity.
  - eexists. reflexivity.
Qed.

Section Frames.
Variable parse : float -> Token -> outcome ParsedToken.
Variable generate_token : string -> Token.
Variable get_auth_token : User -> Token.

Local Abbreviation call := (exec parse generate_token get_auth_token).
Local Abbreviation run := (exec_all parse generate_token get_auth_token).
Local Abbreviation refresh :=
  (generate_new_token_pair parse generate_token get_auth_token).
Local Abbreviation all_new := (new_draws parse generate_token get_auth_token).

(** The refresh flow writes nothing, whatever its outcome. *)
Lemma generate_new_token_pair_frame (r : Token) (now : float) (w : Island) :
  (refresh r now w).2 = w.
Proof.
  unfold generate_new_token_pair, _get_refresh_token_owner,
    UserDatastore.find_user_by_fs_uniquifier.
  unfold_py. destruct (parse now r) as [p| |]; simpl; try reflexivity.
  destruct (List.find _ (datastore w)); reflexivity.
Qed.

Lemma remove_user_otp_repository (n fresh : string) (w : Island) :
  otp_repository (remove_user n fresh w).2 = otp_repository w
  /\ otp_read_lock (remove_user n fresh w).2 = otp_read_lock w.
Proof.
  unfold remove_user, revoke_all_tokens_for_user, UserDatastore.find_user_by_username,
    UserDatastore.set_uniquifier, UserDatastore.delete_user.
  unfold_py. destruct (List.find _ (datastore w)); split; reflexivity.
Qed.

Lemma unlock_otp_repository (secret : list Byte.byte) (w : Island) :
  otp_repository (LockableEncryptor.unlock secret w).2 = otp_repository w
  /\ otp_read_lock (LockableEncryptor.unlock secret w).2 = otp_read_lock w
  /\ datastore (LockableEncryptor.unlock secret w).2 = datastore w.
Proof.
  unfold LockableEncryptor.unlock. unfold_py.
  destruct (key_secret (repository_encryptor w)) as [k|]; simpl; [|auto].
  destruct (LockableEncryptor.bytes_eqb k secret); simpl; auto.
Qed.

Lemma handle_successful_login_frame (u p : string) (w : Island) :
  otp_repository (handle_successful_login u p w).2 = otp_repository w
  /\ otp_read_lock (handle_successful_login u p w).2 = otp_read_lock w
  /\ datastore (handle_successful_login u p w).2 = datastore w.
Proof.
  unfold handle_successful_login, _unlock_repository_encryptor. unfold bind.
  destruct (encode _) as [b| |]; simpl; auto.
  apply unlock_otp_repository.
Qed.

Lemma handle_successful_registration_frame (u p : string) (w : Island) :
  otp_repository (handle_successful_registration u p w).2 = otp_repository w
  /\ otp_read_lock (handle_successful_registration u p w).2 = otp_read_lock w
  /\ datastore (handle_successful_registration u p w).2 = datastore w.
Proof.
  unfold handle_successful_registration, _reset_island_data, _reset_repository_encryptor,
    IslandEventQueue.publish, LockableEncryptor.reset_key, LockableEncryptor.unlock.
  unfold_py. destruct (encode _) as [b| |]; simpl; auto.
Qed.

(** No call leaves the facade's lock in another state than it found it. *)
Lemma exec_otp_read_lock (op : Op) (w : Island) :
  otp_read_lock (call op w) = otp_read_lock w.
Proof.
  destruct op; cbn [exec].
  - destruct (drawn_otp_returns rnd) as (o & Ho & _).
    rewrite (generate_otp_eq _ _ _ _ Ho). reflexivity.
  - rewrite authorize_otp_eq. destruct (otp_read_lock w) eqn:Hl; simpl; [exact Hl|].
    destruct (otp_repository w !! otp); simpl; exact Hl.
  - rewrite generate_new_token_pair_frame. reflexivity.
  - reflexivity.
  - reflexivity.
  - rewrite revoke_all_tokens_for_all_users_eq. reflexivity.
  - apply remove_user_otp_repository.
  - apply needs_registration_frame.
  - apply create_user_frame.
  - apply handle_successful_registration_frame.
  - apply handle_successful_login_frame.
Qed.

Lemma exec_all_otp_read_lock (ops : list Op) (w : Island) :
  otp_read_lock (run ops w) = otp_read_lock w.
Proof.
  revert w; induction ops as [|op ops IH]; intros w; simpl; [reflexivity|].
  unfold exec_all in *; simpl. rewrite IH. apply exec_otp_read_lock.
Qed.

(** Only [generate_otp] and [authorize_otp] write the OTP repository. *)
Lemma exec_otp_repository (op : Op) (w : Island) :
  otp_repository (call op w) = otp_repository w
  \/ (exists rnd now v,
        op = GenerateOtp rnd now /\ drawn_otp rnd = Return v
        /\ otp_repository (call op w)
           = <[v := {| expiration_time := PrimFloat.add now (float_of_int OTP_EXPIRATION_TIME);
                       used := false |}]> (otp_repository w))
  \/ (exists otp now,
        op = AuthorizeOtp otp now
        /\ otp_repository (call op w)
           = alter OTPRepository.mark_used otp (otp_repository w)).
Proof.
  destruct op; cbn [exec].
  - right; left. destruct (drawn_otp_returns rnd) as (o & Ho & _).
    rewrite (generate_otp_eq _ _ _ _ Ho). simpl. eauto 6.
  - rewrite authorize_otp_eq. destruct (otp_read_lock w); simpl; [left; reflexivity|].
    destruct (otp_repository w !! otp) as [r'|] eqn:Hr'; simpl; [|left; reflexivity].
    right; right. eauto.
  - left. rewrite generate_new_token_pair_frame. reflexivity.
  - left. reflexivity.
  - left. reflexivity.
  - left. rewrite revoke_all_tokens_for_all_users_eq. reflexivity.
  - left. apply remove_user_otp_repository.
  - left. apply needs_registration_frame.
  - left. apply create_user_frame.
  - left. apply handle_successful_registration_frame.
  - left. apply handle_successful_login_frame.
Qed.

(** A call that creates no OTP twice leaves the record of [o] as it is, but
    for [authorize_otp(o)], which marks it used. *)
Lemma exec_record (o : OTP) (r : OTPRecord) (op : Op) (w : Island) :
  new_draw op w = true ->
  otp_repository w !! o = Some r ->
  otp_repository (call op w) !! o = Some r
  \/ (not_authorize o op = false
      /\ otp_repository (call op w) !! o = Some (OTPRepository.mark_used r)).
Proof.
  intros Hnew Hr.
  destruct (exec_otp_repository op w)
    as [->|[(rnd & now & v & -> & Hv & ->)|(otp & now & -> & ->)]].
  - left. exact Hr.
  - left. cbn [new_draw] in Hnew. rewrite Hv in Hnew.
    rewrite lookup_insert_ne; [exact Hr|]. intros Heq. subst v.
    rewrite Hr in Hnew. discriminate.
  - cbn [not_authorize]. destruct (String.eqb_spec otp o) as [->|Hne].
    + right. split; [reflexivity|]. rewrite lookup_alter_eq, Hr. reflexivity.
    + left. rewrite lookup_alter_ne; [exact Hr | exact Hne].
Qed.

(** The used flag never goes back in a run that creates no OTP twice. *)
Lemma exec_all_keeps_used (o : OTP) (r : OTPRecord) (ops : list Op) (w : Island) :
  all_new ops w = true ->
  otp_repository w !! o = Some r -> used r = true ->
  otp_repository (run ops w) !! o = Some r.
Proof.
  revert w; induction ops as [|op ops IH]; intros w Hnew Hr Hu; [exact Hr|].
  simpl in Hnew. apply andb_prop in Hnew as [Hop Hrest].
  unfold exec_all in *; simpl. apply IH; [exact Hrest| |exact Hu].
  destruct (exec_record o r op w Hop Hr) as [H|[_ H]]; [exact H|].
  rewrite H. f_equal. apply mark_used_of_used, Hu.
Qed.

(** A run that creates no OTP twice and never authorizes [o] leaves the
    record of [o] as it is. *)
Lemma exec_all_leaves_record (o : OTP) (r : OTPRecord) (ops : list Op) (w : Island) :
  all_new ops w = true ->
  forallb (not_authorize o) ops = true ->
  otp_repository w !! o = Some r ->
  otp_repository (run ops w) !! o = Some r.
Proof.
  revert w; induction ops as [|op ops IH]; intros w Hnew Hna Hr; [exact Hr|].
  simpl in Hnew, Hna.
  apply andb_prop in Hnew as [Hop Hrest]. apply andb_prop in Hna as [Hna1 Hna2].
  unfold exec_all in *; simpl. apply IH; [exact Hrest|exact Hna2|].
  destruct (exec_record o r op w Hop Hr) as [H|[Hc _]]; [exact H|congruence].
Qed.



End Frames.

(** ** Comparison of clock readings *)

Lemma SFcompare_opp (x y : spec_float) :
  SFcompare y x = option_map CompOpp (SFcompare x y).
Proof.
  destruct x as [sx|sx| |sx mx ex], y as [sy|sy| |sy my ey]; simpl;
    try reflexivity; try (destruct sx; reflexivity); try (destruct sy; reflexivity);
    try (destruct sx, sy; reflexivity).
  f_equal. rewrite (Z.compare_antisym ey ex).
  change (PosDef.Pos.compare_cont Eq my mx) with (Pos.compare my mx).
  change (PosDef.Pos.compare_cont Eq mx my) with (Pos.compare mx my).
  rewrite (Pos.compare_antisym my mx).
  destruct sx, sy; simpl; try reflexivity;
    destruct (ey ?= ex)%Z; simpl; try reflexivity;
    destruct (my ?= mx)%positive; reflexivity.
Qed.

(** A reading [now <= expiration] is not past the expiration. *)
Lemma ltb_false_of_leb (expiration now : float) :
  PrimFloat.leb now expiration = true -> PrimFloat.ltb expiration now = false.
Proof.
  rewrite FloatAxioms.leb_spec, FloatAxioms.ltb_spec. unfold SFleb, SFltb.
  rewrite (SFcompare_opp (Prim2SF now) (Prim2SF expiration)).
  destruct (SFcompare (Prim2SF now) (Prim2SF expiration)) as [[]|]; simpl; congruence.
Qed.

(** A reading equal to the expiration is not past it. *)
Lemma ltb_false_of_eqb (expiration now : float) :
  PrimFloat.eqb expiration now = true -> PrimFloat.ltb expiration now = false.
Proof.
  rewrite FloatAxioms.eqb_spec, FloatAxioms.ltb_spec. unfold SFeqb, SFltb.
  destruct (SFcompare _ _) as [[]|]; simpl; congruence.
Qed.

(** A reading past the expiration is at or after it. *)
Lemma leb_of_ltb (expiration now : float) :
  PrimFloat.ltb expiration now = true -> PrimFloat.leb expiration now = true.
Proof.
  rewrite FloatAxioms.leb_spec, FloatAxioms.ltb_spec. unfold SFleb, SFltb.
  destruct (SFcompare _ _) as [[]|]; simpl; congruence.
Qed.

(** ** One-time passcodes, one caller at a time *)

(** The expiration [generate_otp] gives an OTP it creates when the clock
    reads [now]. *)
Lemma generate_otp_record (rnd : nat -> nat) (now : float) (w w' : Island) (o : OTP) :
  generate_otp rnd now w = (Return o, w') ->
  otp_repository w' !! o =
    Some {| expiration_time := PrimFloat.add now (float_of_int OTP_EXPIRATION_TIME);
            used := false |}
  /\ otp_read_lock w' = otp_read_lock w.
Proof.
  intros H. apply generate_otp_inv in H as [_ ->]. simpl.
  split; [apply lookup_insert_eq | reflexivity].
Qed.

(** C1. An OTP that [generate_otp] created authorizes once: the first
    [authorize_otp] with it, made while its time to live has not elapsed
    (the expiration is not below the clock reading), returns [True], and every
    later [authorize_otp] with it returns [False], whatever the clock reads
    then. The calls the facade serves in between are arbitrary, as long as no
    [generate_otp] draws a value that the repository already holds. *)
Theorem generated_otp_authorizes_once
    (parse : float -> Token -> outcome ParsedToken) (generate_token : string -> Token)
    (get_auth_token : User -> Token)
    (w w1 : Island) (rnd : nat -> nat) (created : float) (o : OTP)
    (before after : list Op) (first later : float) :
  let run := exec_all parse generate_token get_auth_token in
  let all_new := new_draws parse generate_token get_auth_token in
  otp_read_lock w = false ->
  generate_otp rnd created w = (Return o, w1) ->
  all_new before w1 = true ->
  forallb (not_authorize o) before = true ->
  PrimFloat.ltb (PrimFloat.add created (float_of_int OTP_EXPIRATION_TIME)) first = false ->
  all_new after (authorize_otp o first (run before w1)).2 = true ->
  (authorize_otp o first (run before w1)).1 = Return true
  /\ (authorize_otp o later (run after (authorize_otp o first (run before w1)).2)).1
     = Return false.
Proof.
  intros run all_new Hlock Hgen Hnew1 Hna Httl Hnew2.
  destruct (generate_otp_record _ _ _ _ _ Hgen) as [Hrec Hl1].
  pose proof (exec_all_leaves_record parse generate_token get_auth_token
                o _ before w1 Hnew1 Hna Hrec) as Hrec2.
  pose proof (exec_all_otp_read_lock parse generate_token get_auth_token before w1) as Hl2.
  fold run in Hrec2, Hl2. rewrite Hl1, Hlock in Hl2.
  revert Hnew2. rewrite (authorize_otp_eq o first), Hl2, Hrec2; simpl. rewrite Httl; simpl.
  intros Hnew2. split; [reflexivity|].
  set (w2 := set_otp_repository _ _) in *.
  assert (Hrec3 : otp_repository w2 !! o =
            Some {| expiration_time := PrimFloat.add created (float_of_int OTP_EXPIRATION_TIME);
                    used := true |}).
  { subst w2; simpl. rewrite lookup_alter_eq, Hrec2. reflexivity. }
  pose proof (exec_all_keeps_used parse generate_token get_auth_token
                o _ after w2 Hnew2 Hrec3 eq_refl) as Hrec4.
  pose proof (exec_all_otp_read_lock parse generate_token get_auth_token after w2) as Hl4.
  fold run in Hrec4, Hl4.
  rewrite authorize_otp_eq, Hl4. subst w2; simpl. rewrite Hl2.
  simpl in Hrec4. rewrite Hrec4. reflexivity.
Qed.

Lemma generated_otp_authorizes_once_witness :
  (authorize_otp Sample.otp 1120
     (exec_all PlainCodec.parse PlainCodec.generate_token PlainCodec.get_auth_token
        Sample.before Sample.world)).1 = Return true
  /\ (authorize_otp Sample.otp 1110
        (exec_all PlainCodec.parse PlainCodec.generate_token PlainCodec.get_auth_token
           Sample.after
           (authorize_otp Sample.otp 1120
              (exec_all PlainCodec.parse PlainCodec.generate_token PlainCodec.get_auth_token
                 Sample.before Sample.world)).2)).1 = Return false.
Proof.
  apply (generated_otp_authorizes_once
           PlainCodec.parse PlainCodec.generate_token PlainCodec.get_auth_token
           empty_island Sample.world Sample.rnd 1000 Sample.otp
           Sample.before Sample.after 1120 1110);
    vm_compute; reflexivity.
Defined.

(** C2, as the code has it. For an OTP in the repository, [authorize_otp]
    returns [False] when the clock reads more than the expiration, also on the
    first call; when the clock reads exactly the expiration the OTP is not
    treated as expired, and a first call returns [True]. *)
Theorem otp_past_expiration_is_refused
    (w : Island) (o : OTP) (r : OTPRecord) (now : float) :
  otp_read_lock w = false ->
  otp_repository w !! o = Some r ->
  (PrimFloat.ltb (expiration_time r) now = true ->
     (authorize_otp o now w).1 = Return false)
  /\ (PrimFloat.eqb (expiration_time r) now = true -> used r = false ->
     (authorize_otp o now w).1 = Return true).
Proof.
  intros Hlock Hr. rewrite authorize_otp_eq, Hlock, Hr; simpl. split.
  - intros ->. rewrite andb_false_r. reflexivity.
  - intros Heq ->. rewrite (ltb_false_of_eqb _ _ Heq). reflexivity.
Qed.

Lemma otp_past_expiration_is_refused_witness :
  (authorize_otp Sample.otp 1120.5 Sample.world).1 = Return false
  /\ (authorize_otp Sample.otp 1120 Sample.world).1 = Return true.
Proof.
  split.
  - apply (proj1 (otp_past_expiration_is_refused Sample.world Sample.otp
                    {| expiration_time := 1120; used := false |} 1120.5
                    eq_refl eq_refl)).
    reflexivity.
  - apply (proj2 (otp_past_expiration_is_refused Sample.world Sample.otp
                    {| expiration_time := 1120; used := false |} 1120
                    eq_refl eq_refl)); reflexivity.
Defined.

(** C2 as the spec words it fails at the expiration instant: the OTP created
    at 1000.0 expires at 1120.0, and its first [authorize_otp] at the clock
    reading 1120.0, for which [now >= expires_at] holds, returns [True]. *)
Lemma otp_at_expiration_counterexample :
  ~ (forall (w : Island) (o : OTP) (r : OTPRecord) (now : float),
       otp_read_lock w = false ->
       otp_repository w !! o = Some r ->
       PrimFloat.leb (expiration_time r) now = true ->
       (authorize_otp o now w).1 = Return false).
Proof.
  intros H.
  specialize (H Sample.world Sample.otp {| expiration_time := 1120; used := false |}
                1120%float eq_refl eq_refl eq_refl).
  vm_compute in H. discriminate H.
Qed.

(** [authorize_otp] raises nothing, whatever OTP it is given. *)
Lemma authorize_otp_never_raises (w : Island) (o : OTP) (now : float) (e : exn) :
  (authorize_otp o now w).1 <> Raise e.
Proof.
  rewrite authorize_otp_eq. destruct (otp_read_lock w); [discriminate|].
  destruct (otp_repository w !! o); discriminate.
Qed.

(** C5. For an OTP that the repository does not hold, the repository raises
    [UnknownRecordError]; [authorize_otp] catches it and returns [False], and
    leaves the world as it found it. *)
Theorem unknown_otp_is_refused (w : Island) (o : OTP) (now : float) :
  otp_read_lock w = false ->
  otp_repository w !! o = None ->
  (OTPRepository.otp_is_used o w).1 = Raise UnknownRecordError
  /\ authorize_otp o now w = (Return false, w)
  /\ forall e, (authorize_otp o now w).1 <> Raise e.
Proof.
  intros Hlock Hr. split; [|split].
  - unfold OTPRepository.otp_is_used. unfold_py. rewrite Hr. reflexivity.
  - rewrite authorize_otp_eq, Hlock, Hr. reflexivity.
  - intros e. apply authorize_otp_never_raises.
Qed.

Lemma unknown_otp_is_refused_witness :
  (OTPRepository.otp_is_used "unknown" Sample.world).1 = Raise UnknownRecordError
  /\ authorize_otp "unknown" 1001 Sample.world = (Return false, Sample.world)
  /\ forall e, (authorize_otp "unknown" 1001 Sample.world).1 <> Raise e.
Proof.
  apply (unknown_otp_is_refused Sample.world "unknown" 1001); reflexivity.
Defined.

(** C8. [generate_otp] returns a value of 32 characters, each a letter, a
    digit or one of [._-]; the world it returns holds the record of that value
    with the flag used unset and the expiration at the clock reading plus
    [OTP_EXPIRATION_TIME], which is 2 * 60 = 120 seconds. *)
Theorem generate_otp_persists_record (rnd : nat -> nat) (now : float) (w : Island) :
  exists (o : OTP) (w' : Island),
    generate_otp rnd now w = (Return o, w')
    /\ String.length o = 32 /\ 32 <= String.length o
    /\ Forall (fun c => otp_char_ok c = true) (list_ascii_of_string o)
    /\ otp_repository w' !! o =
         Some {| expiration_time := PrimFloat.add now 120; used := false |}
    /\ OTP_EXPIRATION_TIME = (2 * 60)%Z
    /\ float_of_int OTP_EXPIRATION_TIME = 120%float.
Proof.
  destruct (drawn_otp_returns rnd) as (o & Ho & Hlen & Hall).
  exists o. eexists. split; [apply generate_otp_eq, Ho|].
  repeat split; try assumption.
  - rewrite Hlen. apply le_n.
  - simpl. apply lookup_insert_eq.
Qed.

(** ** Concurrent callers *)

(** *** Callers by their positions *)

Module PositionFacts.
Import Positions.

(** The steps of a thread, one case per statement of [authorize_otp]. *)
Lemma step_cases (now : float) (t t' : thread) (w w' : Island) :
  step now t w = Some (t', w') ->
  (at_pc t = AtAcquire /\ otp_read_lock w = false
   /\ t' = move t AtIsUsed /\ w' = set_otp_read_lock true w)
  \/ (at_pc t = AtIsUsed /\ w' = w
      /\ t' = move t match otp_repository w !! arg t with
                     | Some r => AtSetUsed (used r)
                     | None => AtRelease (Return false)
                     end)
  \/ (exists b, at_pc t = AtSetUsed b
      /\ w' = set_otp_repository (alter OTPRepository.mark_used (arg t) (otp_repository w)) w
      /\ t' = move t (if b then AtRelease (Return false) else AtTtlElapsed))
  \/ (at_pc t = AtTtlElapsed /\ w' = w
      /\ t' = move t (AtRelease (Return
                 match otp_repository w !! arg t with
                 | Some r => negb (PrimFloat.ltb (expiration_time r) now)
                 | None => false
                 end)))
  \/ (exists r, at_pc t = AtRelease r
      /\ w' = set_otp_read_lock false w /\ t' = move t (Done r)).
Proof.
  unfold step. destruct (at_pc t) as [| |b| |r|r] eqn:Hpc.
  - destruct (otp_read_lock w) eqn:Hl; [discriminate|].
    intros [= <- <-]. left. auto.
  - intros [= <- <-]. right; left. auto.
  - intros [= <- <-]. right; right; left. eauto.
  - intros [= <- <-]. do 3 right; left. auto.
  - intros [= <- <-]. do 4 right. eauto.
  - discriminate.
Qed.

Lemma sched_step_inv (ev : nat * float) (c c' : config) :
  sched_step ev c = Some c' ->
  exists t t' w',
    c.1 !! ev.1 = Some t /\ step ev.2 t c.2 = Some (t', w')
    /\ c' = (<[ev.1 := t']> c.1, w').
Proof.
  unfold sched_step. destruct (c.1 !! ev.1) as [t|]; [|discriminate].
  destruct (step ev.2 t c.2) as [[t' w']|] eqn:Hst; [|discriminate].
  intros [= <-]. exists t, t', w'. auto.
Qed.

(** A property of configurations that every step of the schedule keeps holds
    after the run; [Q] is what the scheduler's choices are known to meet. *)
Lemma run_invariant (Q : nat * float -> Prop) (P : config -> Prop) :
  (forall ev c c', Q ev -> P c -> sched_step ev c = Some c' -> P c') ->
  forall schedule c c',
    Forall Q schedule -> P c -> run schedule c = Some c' -> P c'.
Proof.
  intros Hstep schedule; induction schedule as [|ev rest IH]; intros c c' HQ HP; simpl.
  - intros [= <-]. exact HP.
  - destruct (sched_step ev c) as [c1|] eqn:H1; [|discriminate].
    apply Forall_cons in HQ as [Hev Hrest].
    apply IH; [exact Hrest|]. eapply Hstep; eassumption.
Qed.

Lemma lookup_after_step (ts : list thread) (i j : nat) (t t' tj : thread) :
  ts !! i = Some t ->
  <[i := t']> ts !! j = Some tj ->
  (j = i /\ tj = t') \/ (j <> i /\ ts !! j = Some tj).
Proof.
  intros Hi Hj. destruct (decide (j = i)) as [->|Hne].
  - left. split; [reflexivity|].
    rewrite list_lookup_insert_eq in Hj; [congruence|].
    eapply lookup_lt_Some, Hi.
  - right. split; [exact Hne|]. rewrite list_lookup_insert_ne in Hj; auto.
Qed.

Lemma run_app (s1 s2 : list (nat * float)) (c c1 : config) :
  run s1 c = Some c1 -> run (s1 ++ s2) c = run s2 c1.
Proof.
  revert c; induction s1 as [|ev s1 IH]; intros c; simpl.
  - intros [= ->]. reflexivity.
  - destruct (sched_step ev c) as [c'|]; [apply IH | discriminate].
Qed.

Lemma run_snoc (schedule : list (nat * float)) (ev : nat * float) (c c1 c2 : config) :
  run schedule c = Some c1 -> sched_step ev c1 = Some c2 ->
  run (schedule ++ [ev]) c = Some c2.
Proof.
  intros H1 H2. rewrite (run_app _ _ _ _ H1). simpl. rewrite H2. reflexivity.
Qed.

Lemma run_snoc_inv (schedule : list (nat * float)) (ev : nat * float) (c c2 : config) :
  run (schedule ++ [ev]) c = Some c2 ->
  exists c1, run schedule c = Some c1 /\ sched_step ev c1 = Some c2.
Proof.
  revert c; induction schedule as [|e s IH]; intros c; simpl.
  - destruct (sched_step ev c) as [c'|] eqn:Hst; [|discriminate]. intros [= <-]. eauto.
  - destruct (sched_step e c) as [c'|]; [apply IH | discriminate].
Qed.

Lemma run_length (schedule : list (nat * float)) (c c' : config) :
  run schedule c = Some c' -> length c'.1 = length c.1.
Proof.
  intros Hrun.
  apply (run_invariant (fun _ => True) (fun x => length x.1 = length c.1)
           ltac:(intros ev c1 c2 _ Hlen Hst;
                 apply sched_step_inv in Hst as (t & t' & w' & _ & _ & ->);
                 simpl; rewrite length_insert; exact Hlen)
           schedule c c'); [apply Forall_true; auto | reflexivity | exact Hrun].
Qed.

Lemma callers_at_start (otps : list OTP) :
  Forall (fun t => at_pc t = AtAcquire) (callers_with otps).
Proof. unfold callers_with. apply Forall_fmap, Forall_true. reflexivity. Qed.

(** *** The lock *)

(** The lock is owned by the thread inside, and every step keeps it so. *)
Lemma lock_owned_step (ev : nat * float) (c c' : config) :
  lock_owned c -> sched_step ev c = Some c' -> lock_owned c'.
Proof.
  intros (owner & Hlock & Hown) Hstep.
  apply sched_step_inv in Hstep as (t & t' & w' & Hi & Hst & ->).
  destruct ev as [i now], c as [ts w]; simpl in *.
  pose proof (Hown i t Hi) as Hti.
  apply step_cases in Hst
    as [(Hpc & Hfree & -> & ->)|[(Hpc & -> & ->)|[(b & Hpc & -> & ->)
       |[(Hpc & -> & ->)|(r & Hpc & -> & ->)]]]].
  - (* acquire: the lock was free, nobody was inside *)
    rewrite Hfree in Hlock. destruct owner; [discriminate|].
    exists (Some i); simpl. split; [reflexivity|]. intros j tj Hj.
    destruct (lookup_after_step _ _ _ _ _ _ Hi Hj) as [[-> ->]|[Hne Hj']].
    + unfold inside; simpl. split; auto.
    + rewrite (Hown j tj Hj'). split; [discriminate | congruence].
  - exists owner; simpl. split; [exact Hlock|]. intros j tj Hj.
    destruct (lookup_after_step _ _ _ _ _ _ Hi Hj) as [[-> ->]|[Hne Hj']].
    + rewrite <- Hti. unfold inside; rewrite Hpc; simpl.
      destruct (otp_repository w !! arg t); simpl; tauto.
    + apply Hown, Hj'.
  - exists owner; simpl. split; [exact Hlock|]. intros j tj Hj.
    destruct (lookup_after_step _ _ _ _ _ _ Hi Hj) as [[-> ->]|[Hne Hj']].
    + rewrite <- Hti. unfold inside; rewrite Hpc; simpl. destruct b; tauto.
    + apply Hown, Hj'.
  - exists owner; simpl. split; [exact Hlock|]. intros j tj Hj.
    destruct (lookup_after_step _ _ _ _ _ _ Hi Hj) as [[-> ->]|[Hne Hj']].
    + rewrite <- Hti. unfold inside; rewrite Hpc; simpl. tauto.
    + apply Hown, Hj'.
  - (* release: the thread that leaves was the owner *)
    assert (Ho : owner = Some i) by (apply Hti; unfold inside; rewrite Hpc; reflexivity).
    exists None; simpl. split; [reflexivity|]. intros j tj Hj.
    destruct (lookup_after_step _ _ _ _ _ _ Hi Hj) as [[-> ->]|[Hne Hj']].
    + unfold inside; simpl. split; discriminate.
    + rewrite (Hown j tj Hj'), Ho. split; [congruence | discriminate].
Qed.

Lemma lock_owned_exclusive (c : config) : lock_owned c -> exclusive c.1.
Proof.
  intros (owner & _ & Hown) i j ti tj Hi Hj Hini Hinj.
  apply (Hown i ti Hi) in Hini. apply (Hown j tj Hj) in Hinj. congruence.
Qed.

(** Before any caller has moved the lock is free and nobody is inside. *)
Lemma lock_owned_start (ts : list thread) (w : Island) :
  otp_read_lock w = false ->
  Forall (fun t => at_pc t = AtAcquire) ts ->
  lock_owned (ts, w).
Proof.
  intros Hlock Hall. exists None; simpl. split; [exact Hlock|].
  intros i t Hi. rewrite Forall_lookup in Hall. specialize (Hall i t Hi).
  unfold inside. rewrite Hall. split; discriminate.
Qed.

Lemma lock_owned_reached (ts : list thread) (w : Island)
    (schedule : list (nat * float)) (c : config) :
  otp_read_lock w = false ->
  Forall (fun t => at_pc t = AtAcquire) ts ->
  run schedule (ts, w) = Some c ->
  lock_owned c.
Proof.
  intros Hlock Hall Hrun.
  eapply (run_invariant (fun _ => True) lock_owned);
    [|apply Forall_true; auto|apply lock_owned_start; eassumption|exact Hrun].
  intros ev c1 c2 _. apply lock_owned_step.
Qed.

Lemma owner_inside_step (ev : nat * float) (c c' : config) :
  sched_step ev c = Some c' -> owner_inside c'.
Proof.
  intros Hstep. apply sched_step_inv in Hstep as (t & t' & w' & Hi & Hst & ->).
  destruct ev as [i now], c as [ts w]; simpl in *.
  pose proof (lookup_lt_Some _ _ _ Hi) as Hlt.
  unfold owner_inside; simpl.
  apply step_cases in Hst
    as [(Hpc & Hfree & -> & ->)|[(Hpc & -> & ->)|[(b & Hpc & -> & ->)
       |[(Hpc & -> & ->)|(r & Hpc & -> & ->)]]]]; simpl; intros Hheld;
    try discriminate;
    eexists i, _; (split; [apply list_lookup_insert_eq, Hlt|]);
    unfold inside; simpl; try reflexivity.
  - destruct (otp_repository w !! arg t); reflexivity.
  - destruct b; reflexivity.
Qed.

(** While the lock is held, a thread is inside, in every configuration that
    callers reach from a free lock. *)
Lemma owner_inside_reached (ts : list thread) (w : Island)
    (schedule : list (nat * float)) (c : config) :
  otp_read_lock w = false ->
  run schedule (ts, w) = Some c ->
  owner_inside c.
Proof.
  intros Hlock Hrun.
  eapply (run_invariant (fun _ => True) owner_inside);
    [|apply Forall_true; auto| |exact Hrun].
  - intros ev c1 c2 _ _. apply owner_inside_step.
  - unfold owner_inside; simpl. congruence.
Qed.

(** The threads that have left the first position are those that the
    schedule has moved. *)
Lemma moved_reached (ts : list thread) (w : Island) (schedule : list (nat * float)) :
  Forall (fun t => at_pc t = AtAcquire) ts ->
  forall c, run schedule (ts, w) = Some c -> moved schedule c.
Proof.
  intros Hall. induction schedule as [|ev schedule IH] using rev_ind; intros c Hrun.
  - injection Hrun as <-. intros i t Hi. simpl in *.
    rewrite Forall_lookup in Hall. rewrite (Hall i t Hi). reflexivity.
  - apply run_snoc_inv in Hrun as (c1 & Hrun1 & Hstep).
    specialize (IH c1 Hrun1).
    apply sched_step_inv in Hstep as (t & t' & w' & Hi & Hst & ->).
    intros j tj Hj. simpl in Hj.
    unfold Threads.started. rewrite existsb_app. simpl. rewrite orb_false_r.
    destruct (lookup_after_step _ _ _ _ _ _ Hi Hj) as [[-> ->]|[Hne Hj']].
    + rewrite Nat.eqb_refl, orb_true_r.
      apply step_cases in Hst
        as [(Hpc & Hfree & -> & _)|[(Hpc & _ & ->)|[(b & Hpc & _ & ->)
           |[(Hpc & _ & ->)|(r & Hpc & _ & ->)]]]]; simpl; try reflexivity.
      * destruct (otp_repository c1.2 !! arg t); reflexivity.
      * destruct b; reflexivity.
    + rewrite (proj2 (Nat.eqb_neq _ _)) by congruence. rewrite orb_false_r.
      apply (IH j tj Hj').
Qed.

(** *** Exactly one caller is authorized *)

Lemma count_insert (p : thread -> bool) (ts : list thread) (i : nat) (t t' : thread) :
  ts !! i = Some t ->
  count p (<[i := t']> ts) + Nat.b2n (p t) = count p ts + Nat.b2n (p t').
Proof.
  unfold count. revert i; induction ts as [|a ts IH]; intros i Hi; [discriminate|].
  destruct i as [|i]; simpl in *.
  - injection Hi as ->. destruct (p t), (p t'); simpl; lia.
  - specialize (IH i Hi). destruct (p a); simpl; lia.
Qed.

Lemma count_insert_same (p : thread -> bool) (ts : list thread) (i : nat) (t t' : thread) :
  ts !! i = Some t -> p t' = p t -> count p (<[i := t']> ts) = count p ts.
Proof.
  intros Hi Hp. pose proof (count_insert p ts i t t' Hi) as H.
  rewrite Hp in H. lia.
Qed.

Lemma presents_move (o : OTP) (t : thread) (p : pc) :
  presents o (move t p) = presents o t.
Proof. reflexivity. Qed.

Lemma presents_true (o : OTP) (t : thread) : presents o t = true <-> arg t = o.
Proof. unfold presents. apply String.eqb_eq. Qed.

(** While the clock has not passed the expiration of [o], every step of a
    caller, whatever OTP it presents, keeps the lock owned and the right to
    [True] for [o] single. *)
Lemma one_right_step (o : OTP) (expiration : float) (ev : nat * float)
    (c c' : config) :
  PrimFloat.ltb expiration ev.2 = false ->
  lock_owned c /\ one_right o expiration c ->
  sched_step ev c = Some c' ->
  lock_owned c' /\ one_right o expiration c'.
Proof.
  intros Hclock [Hlk Hone] Hstep.
  split; [eapply lock_owned_step; eassumption|].
  destruct Hlk as (owner & _ & Hown).
  destruct Hone as (r & Hr & Hexp & Hcount & Hagree).
  apply sched_step_inv in Hstep as (t & t' & w' & Hi & Hst & ->).
  destruct ev as [i now], c as [ts w]; simpl in *.
  pose proof (Hown i t Hi) as Hti.
  assert (Hagt : arg t = o -> agrees r t)
    by (rewrite Forall_lookup in Hagree; eapply Hagree, Hi).
  unfold one_right.
  destruct (String.eqb_spec (arg t) o) as [Harg|Harg].
  - (* the caller presents [o] *)
    specialize (Hagt Harg).
    assert (Hauth : forall p, authorized_for o (move t p) = authorized (move t p)).
    { intros p. unfold authorized_for. rewrite presents_move.
      rewrite (proj2 (presents_true o t) Harg). reflexivity. }
    assert (Hauth0 : authorized_for o t = authorized t).
    { unfold authorized_for. rewrite (proj2 (presents_true o t) Harg). reflexivity. }
    apply step_cases in Hst
      as [(Hpc & Hfree & -> & ->)|[(Hpc & -> & ->)|[(b & Hpc & -> & ->)
         |[(Hpc & -> & ->)|(res & Hpc & -> & ->)]]]]; simpl.
    + exists r. repeat split; try assumption.
      * rewrite (count_insert_same _ _ _ t); [exact Hcount|exact Hi|].
        rewrite Hauth, Hauth0. unfold authorized; rewrite Hpc; reflexivity.
      * apply Forall_insert; [exact Hagree | intros _; exact I].
    + rewrite Harg, Hr. exists r. repeat split; try assumption.
      * rewrite (count_insert_same _ _ _ t); [exact Hcount|exact Hi|].
        rewrite Hauth, Hauth0. unfold authorized; rewrite Hpc; reflexivity.
      * apply Forall_insert; [exact Hagree | intros _; reflexivity].
    + (* set_used: the right passes from the record to this thread *)
      unfold agrees in Hagt; rewrite Hpc in Hagt; subst b.
      rewrite Harg. exists (OTPRepository.mark_used r).
      split; [rewrite lookup_alter_eq, Hr; reflexivity|].
      split; [exact Hexp|]. split; simpl.
      * pose proof (count_insert (authorized_for o) ts i t
                      (move t (if used r then AtRelease (Return false) else AtTtlElapsed))
                      Hi) as Hc.
        assert (Ht : authorized_for o t = false)
          by (rewrite Hauth0; unfold authorized; rewrite Hpc; reflexivity).
        assert (Ht' : authorized_for o
                        (move t (if used r then AtRelease (Return false) else AtTtlElapsed))
                      = negb (used r))
          by (rewrite Hauth; unfold authorized; simpl; destruct (used r); reflexivity).
        rewrite Ht, Ht' in Hc. destruct (used r); simpl in *; lia.
      * assert (Ho : owner = Some i)
          by (apply Hti; unfold inside; rewrite Hpc; reflexivity).
        rewrite Forall_lookup. intros j tj Hj Hargj.
        destruct (lookup_after_step _ _ _ _ _ _ Hi Hj) as [[-> ->]|[Hne Hj']].
        -- unfold agrees; simpl. destruct (used r); simpl; eauto.
        -- rewrite Forall_lookup in Hagree. specialize (Hagree j tj Hj' Hargj).
           pose proof (Hown j tj Hj') as Htj. rewrite Ho in Htj.
           unfold agrees, inside in *.
           destruct (at_pc tj); simpl in *; try tauto;
             exfalso; apply Hne; (assert (Some i = Some j) as [= ->] by tauto); reflexivity.
    + (* the expiry check: the clock has not passed the expiration *)
      unfold agrees in Hagt; rewrite Hpc in Hagt.
      rewrite Harg, Hr, Hexp, Hclock; simpl.
      exists r. repeat split; try assumption.
      * rewrite (count_insert_same _ _ _ t); [exact Hcount|exact Hi|].
        rewrite Hauth, Hauth0. unfold authorized; rewrite Hpc; reflexivity.
      * apply Forall_insert; [exact Hagree|]. intros _. unfold agrees; simpl. eauto.
    + exists r. repeat split; try assumption.
      * rewrite (count_insert_same _ _ _ t); [exact Hcount|exact Hi|].
        rewrite Hauth, Hauth0. unfold authorized; rewrite Hpc; reflexivity.
      * apply Forall_insert; [exact Hagree|]. intros _.
        unfold agrees in *; rewrite Hpc in Hagt; exact Hagt.
  - (* the caller presents another OTP: the record of [o] is not touched *)
    assert (Ht' : arg t' = arg t /\ otp_repository w' !! o = otp_repository w !! o).
    { apply step_cases in Hst
        as [(_ & _ & -> & ->)|[(_ & -> & ->)|[(b & _ & -> & ->)
           |[(_ & -> & ->)|(res & _ & -> & ->)]]]]; simpl; split; try reflexivity.
      apply lookup_alter_ne. exact Harg. }
    destruct Ht' as [Harg' Hsame]. simpl. rewrite Hsame.
    exists r. repeat split; try assumption.
    + rewrite (count_insert_same _ _ _ t); [exact Hcount|exact Hi|].
      unfold authorized_for, presents. rewrite Harg'.
      rewrite (proj2 (String.eqb_neq _ _) Harg). reflexivity.
    + apply Forall_insert; [exact Hagree|]. intros H. congruence.
Qed.

Lemma one_right_start (o : OTP) (r : OTPRecord) (ts : list thread) (w : Island) :
  otp_repository w !! o = Some r -> used r = false ->
  Forall (fun t => at_pc t = AtAcquire) ts ->
  one_right o (expiration_time r) (ts, w).
Proof.
  intros Hr Hu Hstart. exists r. split; [exact Hr|]. split; [reflexivity|]. simpl. split.
  - rewrite Hu. assert (H0 : count (authorized_for o) ts = 0); [|rewrite H0; reflexivity].
    clear -Hstart. unfold count. induction Hstart as [|t ts Ht _ IH]; [reflexivity|].
    simpl. unfold authorized_for at 1, authorized. rewrite Ht, andb_false_r. exact IH.
  - eapply Forall_impl; [exact Hstart|]. intros t Ht _. unfold agrees. rewrite Ht.
    exact I.
Qed.

Lemma args_step (ev : nat * float) (c c' : config) :
  sched_step ev c = Some c' -> fmap arg c'.1 = fmap arg c.1.
Proof.
  intros Hstep. apply sched_step_inv in Hstep as (t & t' & w' & Hi & Hst & ->). simpl.
  assert (Harg : arg t' = arg t).
  { apply step_cases in Hst
      as [(_ & _ & -> & _)|[(_ & _ & ->)|[(b & _ & _ & ->)
         |[(_ & _ & ->)|(res & _ & _ & ->)]]]]; reflexivity. }
  rewrite list_fmap_insert, Harg. apply list_insert_id.
  rewrite list_lookup_fmap, Hi. reflexivity.
Qed.

Lemma args_run (schedule : list (nat * float)) (c c' : config) :
  run schedule c = Some c' -> fmap arg c'.1 = fmap arg c.1.
Proof.
  intros Hrun.
  apply (run_invariant (fun _ => True) (fun x => fmap arg x.1 = fmap arg c.1)
           ltac:(intros ev c1 c2 _ H Hst; cbv beta in *;
                 rewrite (args_step _ _ _ Hst); exact H)
           schedule c c'); [apply Forall_true; auto | reflexivity | exact Hrun].
Qed.

Lemma args_callers_with (otps : list OTP) : fmap arg (callers_with otps) = otps.
Proof.
  unfold callers_with. rewrite <- list_fmap_compose. apply list_fmap_id.
Qed.

Lemma count_presents (o : OTP) (ts ts' : list thread) :
  fmap arg ts' = fmap arg ts -> count (presents o) ts' = count (presents o) ts.
Proof.
  unfold count. revert ts'; induction ts as [|a ts IH]; intros [|a' ts'] H;
    try discriminate; [reflexivity|].
  rewrite !fmap_cons in H. injection H as Ha Hts. cbn [List.filter].
  assert (Hp : presents o a' = presents o a) by (unfold presents; rewrite Ha; reflexivity).
  rewrite Hp. specialize (IH ts' Hts). destruct (presents o a); simpl; lia.
Qed.

(** Once all calls are over, among the callers that presented [o] the
    authorized ones are those that got [True], and each got [True] or
    [False]. *)
Lemma finished_counts (o : OTP) (r : OTPRecord) (ts : list thread) :
  Forall (fun t => arg t = o -> agrees r t) ts ->
  forallb finished ts = true ->
  count (authorized_for o) ts = count (returned_for o true) ts
  /\ count (returned_for o true) ts + count (returned_for o false) ts
     = count (presents o) ts.
Proof.
  unfold count. induction 1 as [|t ts Ht _ IH]; simpl; [auto|].
  intros Hfin. apply andb_prop in Hfin as [Hf1 Hf2].
  destruct (IH Hf2) as [IH1 IH2].
  assert (Hb : exists b, authorized_for o t = presents o t && b
                         /\ returned_for o true t = presents o t && b
                         /\ returned_for o false t = presents o t && negb b).
  { unfold authorized_for, returned_for.
    destruct (presents o t) eqn:Hp; simpl; [|exists true; auto].
    apply presents_true in Hp. specialize (Ht Hp).
    unfold finished, agrees, authorized, returned in *.
    destruct (at_pc t) as [| | | | |res]; try discriminate.
    destruct Ht as [_ [b ->]]. exists b. destruct b; auto. }
  destruct Hb as (b & -> & -> & ->).
  destruct (presents o t), b; simpl; lia.
Qed.

(** Among callers that present whatever OTPs, those that present the unused
    and unexpired OTP [o] get exactly one [True] between them once all calls
    are over. *)
Lemma one_true_among
    (o : OTP) (r : OTPRecord) (w : Island) (otps : list OTP)
    (schedule : list (nat * float)) (c : config) :
  otp_read_lock w = false ->
  otp_repository w !! o = Some r -> used r = false ->
  In o otps ->
  Forall (fun ev : nat * float => PrimFloat.ltb (expiration_time r) ev.2 = false) schedule ->
  run schedule (callers_with otps, w) = Some c ->
  forallb finished c.1 = true ->
  count (returned_for o true) c.1 = 1
  /\ count (returned_for o true) c.1 + count (returned_for o false) c.1
     = count (presents o) (callers_with otps).
Proof.
  intros Hlock Hrec Hu Hsome Hclock Hrun Hfin.
  pose proof (callers_at_start otps) as Hstart.
  assert (Hinit : lock_owned (callers_with otps, w)
                  /\ one_right o (expiration_time r) (callers_with otps, w)).
  { split; [apply lock_owned_start; assumption|].
    apply one_right_start; assumption. }
  pose proof (run_invariant _ _
                (fun ev c1 c2 Hev => one_right_step o _ ev c1 c2 Hev)
                schedule _ c Hclock Hinit Hrun) as [_ (r' & _ & _ & Hcount & Hagree)].
  destruct (finished_counts o r' c.1 Hagree Hfin) as [Hauth Hsum].
  pose proof (args_run _ _ _ Hrun) as Hargs. simpl in Hargs.
  rewrite (count_presents o _ c.1 Hargs) in Hsum. split; [|exact Hsum].
  assert (Hused : used r' = true).
  { assert (Hin : In o (List.map arg c.1)).
    { change (In o (arg <$> c.1)). rewrite Hargs, args_callers_with. exact Hsome. }
    apply in_map_iff in Hin as (t & Harg & Hin).
    rewrite forallb_forall in Hfin. specialize (Hfin t Hin).
    rewrite List.Forall_forall in Hagree. specialize (Hagree t Hin Harg).
    unfold finished, agrees in *. destruct (at_pc t); try discriminate. tauto. }
  rewrite Hused in Hcount. lia.
Qed.

Lemma all_returned_for (o : OTP) (b : bool) (ts : list thread) :
  Forall (fun t => arg t = o) ts ->
  count (returned_for o b) ts = count (returned b) ts.
Proof.
  unfold count. induction 1 as [|t ts Ht _ IH]; simpl; [reflexivity|].
  unfold returned_for at 1, presents. rewrite Ht, String.eqb_refl. simpl.
  destruct (returned b t); simpl; rewrite IH; reflexivity.
Qed.

Lemma args_reached (otps : list OTP) (w : Island) (schedule : list (nat * float))
    (c : config) :
  run schedule (callers_with otps, w) = Some c -> fmap arg c.1 = otps.
Proof.
  intros Hrun. rewrite (args_run _ _ _ Hrun). apply args_callers_with.
Qed.

Lemma count_presents_replicate (o : OTP) (n : nat) :
  count (presents o) (callers n o) = n.
Proof.
  unfold count, callers, callers_with. induction n as [|n IH]; [reflexivity|].
  cbn [replicate]. rewrite fmap_cons. cbn [List.filter].
  unfold presents at 1. cbn [arg]. rewrite String.eqb_refl. cbn [length].
  rewrite IH. reflexivity.
Qed.

(** Callers that all present the unused and unexpired OTP [o]: once all
    calls are over, one has got [True] and the others [False]. *)
Lemma one_true (o : OTP) (r : OTPRecord) (w : Island) (n : nat)
    (schedule : list (nat * float)) (c : config) :
  otp_read_lock w = false ->
  otp_repository w !! o = Some r -> used r = false ->
  1 <= n ->
  Forall (fun ev : nat * float => PrimFloat.ltb (expiration_time r) ev.2 = false) schedule ->
  run schedule (callers n o, w) = Some c ->
  forallb finished c.1 = true ->
  count (returned true) c.1 = 1 /\ count (returned false) c.1 = n - 1.
Proof.
  intros Hlock Hrec Hu Hn Hclock Hrun Hfin.
  assert (Hin : In o (replicate n o)) by (destruct n; [lia | now left]).
  destruct (one_true_among o r w (replicate n o) schedule c Hlock Hrec Hu Hin Hclock
              Hrun Hfin) as [H1 Hsum].
  fold (callers n o) in Hsum. rewrite count_presents_replicate in Hsum.
  assert (Hall : Forall (fun t => arg t = o) c.1).
  { pose proof (args_reached _ _ _ _ Hrun) as Hargs.
    apply (proj1 (Forall_fmap arg (fun x => x = o) c.1)).
    rewrite Hargs. apply Forall_replicate. reflexivity. }
  rewrite <- !(all_returned_for o _ c.1 Hall). lia.
Qed.

(** *** Progress *)

Lemma inside_can_step (now : float) (t : thread) (w : Island) :
  inside t = true -> exists t' w', step now t w = Some (t', w').
Proof.
  unfold inside, step. destruct (at_pc t) as [| |b| |r|r]; try discriminate;
    intros _; eauto.
Qed.

(** As long as one call is not over, some caller can move. *)
Lemma some_caller_can_step
    (ts : list thread) (w : Island) (schedule : list (nat * float)) (c : config)
    (now : float) :
  otp_read_lock w = false ->
  run schedule (ts, w) = Some c ->
  forallb finished c.1 = false ->
  exists (i : nat) (c' : config), sched_step (i, now) c = Some c'.
Proof.
  intros Hlock Hrun Hunf.
  pose proof (owner_inside_reached ts w schedule c Hlock Hrun) as Hown.
  assert (Hex : exists j tj, c.1 !! j = Some tj /\ finished tj = false).
  { clear -Hunf. destruct c as [l w']; simpl in *.
    induction l as [|a l IH]; simpl in *; [discriminate|].
    destruct (finished a) eqn:Ha; simpl in *.
    - destruct (IH Hunf) as (j & tj & Hj & Hf). exists (S j), tj. auto.
    - exists 0, a. auto. }
  destruct Hex as (j & tj & Hj & Hf).
  assert (Hcan : forall i t, c.1 !! i = Some t -> inside t = true ->
                 exists c', sched_step (i, now) c = Some c').
  { intros i t Hi Hin. destruct (inside_can_step now t c.2 Hin) as (t' & w' & Hst).
    unfold sched_step; simpl. rewrite Hi, Hst. eauto. }
  destruct (inside tj) eqn:Hin.
  - destruct (Hcan j tj Hj Hin) as [c' Hc']. eauto.
  - assert (Hpc : at_pc tj = AtAcquire).
    { unfold inside, finished in *. destruct (at_pc tj); congruence. }
    destruct (otp_read_lock c.2) eqn:Hl.
    + destruct (Hown Hl) as (i & t & Hi & Hti).
      destruct (Hcan i t Hi Hti) as [c' Hc']. eauto.
    + exists j. unfold sched_step, step; simpl. rewrite Hj, Hpc, Hl. eauto.
Qed.

Lemma step_steps_left (now : float) (t t' : thread) (w w' : Island) :
  step now t w = Some (t', w') -> steps_left t' < steps_left t.
Proof.
  intros Hst. apply step_cases in Hst
    as [(Hpc & _ & -> & _)|[(Hpc & _ & ->)|[(b & Hpc & _ & ->)
       |[(Hpc & _ & ->)|(r & Hpc & _ & ->)]]]];
    unfold steps_left; rewrite Hpc; simpl; try lia.
  - destruct (otp_repository w !! arg t); simpl; lia.
  - destruct b; simpl; lia.
Qed.

Lemma total_steps_left_insert (ts : list thread) (i : nat) (t t' : thread) :
  ts !! i = Some t ->
  total_steps_left (<[i := t']> ts) + steps_left t = total_steps_left ts + steps_left t'.
Proof.
  unfold total_steps_left. revert i; induction ts as [|a ts IH]; intros i Hi;
    [discriminate|].
  destruct i as [|i]; simpl in *.
  - injection Hi as ->. lia.
  - specialize (IH i Hi). lia.
Qed.

Lemma sched_step_steps_left (ev : nat * float) (c c' : config) :
  sched_step ev c = Some c' -> total_steps_left c'.1 < total_steps_left c.1.
Proof.
  intros Hstep. apply sched_step_inv in Hstep as (t & t' & w' & Hi & Hst & ->).
  simpl. pose proof (total_steps_left_insert _ _ _ t' Hi).
  pose proof (step_steps_left _ _ _ _ _ Hst). lia.
Qed.

(** Every call can go on to its end. *)
Lemma calls_can_finish
    (ts : list thread) (w : Island) (schedule : list (nat * float)) (c : config)
    (now : float) :
  otp_read_lock w = false ->
  run schedule (ts, w) = Some c ->
  exists (rest : list (nat * float)) (c' : config),
    run (schedule ++ rest) (ts, w) = Some c'
    /\ forallb finished c'.1 = true
    /\ Forall (fun ev : nat * float => ev.2 = now) rest.
Proof.
  intros Hlock.
  remember (total_steps_left c.1) as m eqn:Hm.
  revert schedule c Hm.
  induction m as [m IH] using lt_wf_ind. intros schedule c Hm Hrun.
  destruct (forallb finished c.1) eqn:Hfin.
  - exists [], c. rewrite app_nil_r. auto.
  - destruct (some_caller_can_step ts w schedule c now Hlock Hrun Hfin)
      as (i & c1 & Hstep).
    pose proof (sched_step_steps_left _ _ _ Hstep) as Hlt.
    destruct (IH (total_steps_left c1.1) ltac:(lia) (schedule ++ [(i, now)])%list c1 eq_refl
                 (run_snoc _ _ _ _ _ Hrun Hstep))
      as (rest & c' & Hrun' & Hfin' & Hnow).
    exists ((i, now) :: rest), c'. rewrite <- List.app_assoc in Hrun'.
    split; [exact Hrun'|]. split; [exact Hfin'|]. constructor; [reflexivity | exact Hnow].
Qed.

(** *** An OTP that the repository does not hold *)

(** Every step of a caller, whatever OTP it presents, keeps an OTP that the
    repository does not hold unknown, and keeps its callers turned down. *)
Lemma unknown_stays_step (o : OTP) (ev : nat * float) (c c' : config) :
  unknown_stays o c -> sched_step ev c = Some c' -> unknown_stays o c'.
Proof.
  intros [Hnone Hall] Hstep.
  apply sched_step_inv in Hstep as (t & t' & w' & Hi & Hst & ->).
  destruct ev as [i now], c as [ts w]; simpl in *.
  assert (Ht : arg t = o -> turned_down t)
    by (rewrite Forall_lookup in Hall; eapply Hall, Hi).
  unfold unknown_stays; simpl.
  apply step_cases in Hst
    as [(Hpc & Hfree & -> & ->)|[(Hpc & -> & ->)|[(b & Hpc & -> & ->)
       |[(Hpc & -> & ->)|(res & Hpc & -> & ->)]]]]; simpl.
  - split; [exact Hnone|]. apply Forall_insert; [exact Hall|]. intros _. exact I.
  - split; [exact Hnone|]. apply Forall_insert; [exact Hall|]. simpl. intros Harg.
    rewrite Harg, Hnone. reflexivity.
  - destruct (String.eqb_spec (arg t) o) as [Harg|Harg].
    + specialize (Ht Harg). unfold turned_down in Ht. rewrite Hpc in Ht. contradiction.
    + split; [rewrite lookup_alter_ne; [exact Hnone | exact Harg]|].
      apply Forall_insert; [exact Hall|]. simpl. congruence.
  - split; [exact Hnone|]. apply Forall_insert; [exact Hall|]. simpl. intros Harg.
    specialize (Ht Harg). unfold turned_down in Ht. rewrite Hpc in Ht. contradiction.
  - split; [exact Hnone|]. apply Forall_insert; [exact Hall|]. simpl. intros Harg.
    specialize (Ht Harg). unfold turned_down in *. rewrite Hpc in Ht. exact Ht.
Qed.

Lemma unknown_stays_reached (o : OTP) (otps : list OTP) (w : Island)
    (schedule : list (nat * float)) (c : config) :
  otp_repository w !! o = None ->
  run schedule (callers_with otps, w) = Some c ->
  unknown_stays o c.
Proof.
  intros Hnone Hrun.
  assert (Hinit : unknown_stays o (callers_with otps, w)).
  { split; [exact Hnone|]. simpl. eapply Forall_impl; [apply callers_at_start|].
    intros t Ht _. unfold turned_down. rewrite Ht. exact I. }
  exact (run_invariant (fun _ => True) (unknown_stays o)
           (fun ev c1 c2 _ H => unknown_stays_step o ev c1 c2 H)
           schedule _ c ltac:(apply Forall_true; auto) Hinit Hrun).
Qed.

(** *** The world that concurrent callers leave *)

Lemma mark_used_twice (o : OTP) (m : gmap OTP OTPRecord) :
  alter OTPRepository.mark_used o (alter OTPRepository.mark_used o m)
  = alter OTPRepository.mark_used o m.
Proof.
  apply map_eq. intros k. destruct (decide (k = o)) as [->|Hne].
  - rewrite !lookup_alter_eq. destruct (m !! o); reflexivity.
  - rewrite !lookup_alter_ne by congruence. reflexivity.
Qed.

Lemma only_marked_step (o : OTP) (w0 : Island) (ev : nat * float) (c c' : config) :
  only_marked o w0 c -> sched_step ev c = Some c' -> only_marked o w0 c'.
Proof.
  intros (Hw & Hs & Hargs & Hpos) Hstep.
  apply sched_step_inv in Hstep as (t & t' & w' & Hi & Hst & ->).
  destruct ev as [i now], c as [ts w]; simpl in *.
  assert (Harg : arg t = o) by (rewrite Forall_lookup in Hargs; eapply Hargs, Hi).
  assert (Ht : match at_pc t with
               | AtTtlElapsed | AtRelease _ | Done _ =>
                   otp_repository w = alter OTPRepository.mark_used o (otp_repository w0)
               | AtAcquire | AtIsUsed | AtSetUsed _ => True
               end) by (rewrite Forall_lookup in Hpos; eapply (Hpos i t), Hi).
  unfold only_marked; simpl.
  apply step_cases in Hst
    as [(Hpc & Hfree & -> & ->)|[(Hpc & -> & ->)|[(b & Hpc & -> & ->)
       |[(Hpc & -> & ->)|(res & Hpc & -> & ->)]]]]; simpl.
  - (* the lock is taken *)
    split; [exact Hw|]. split; [exact Hs|].
    split; apply Forall_insert; auto. exact I.
  - (* the flag is read *)
    split; [exact Hw|]. split; [exact Hs|].
    split; apply Forall_insert; auto. simpl. rewrite Harg.
    destruct (otp_repository w !! o) as [r|] eqn:Hr; simpl; [exact I|].
    destruct Hs as [Hs|Hs]; [|exact Hs].
    rewrite Hs. symmetry. apply alter_id. intros x Hx. rewrite Hs in Hr. congruence.
  - (* the mark is written *)
    assert (Hnew : alter OTPRepository.mark_used (arg t) (otp_repository w)
                   = alter OTPRepository.mark_used o (otp_repository w0))
      by (rewrite Harg; destruct Hs as [->| ->]; [reflexivity | apply mark_used_twice]).
    split; [exact Hw|]. split; [right; exact Hnew|].
    split; apply Forall_insert; auto.
    + eapply Forall_impl; [exact Hpos|]. intros x _. destruct (at_pc x); auto.
    + simpl. destruct b; exact Hnew.
  - (* the expiry check *)
    rewrite Hpc in Ht.
    split; [exact Hw|]. split; [exact Hs|].
    split; apply Forall_insert; auto.
  - (* the lock is given back *)
    rewrite Hpc in Ht.
    split; [exact Hw|]. split; [exact Hs|].
    split; apply Forall_insert; auto.
Qed.

(** Once all callers of [authorize_otp(o)] are through, the world is the one
    they started in with [o] marked used and the lock free. *)
Lemma one_mark_left (o : OTP) (n : nat) (w : Island) (schedule : list (nat * float))
    (c : config) :
  otp_read_lock w = false ->
  1 <= n ->
  run schedule (callers n o, w) = Some c ->
  forallb finished c.1 = true ->
  c.2 = set_otp_repository (alter OTPRepository.mark_used o (otp_repository w)) w.
Proof.
  intros Hlock Hn Hrun Hfin.
  assert (Hinit : only_marked o w (callers n o, w)).
  { unfold only_marked; simpl. repeat split; auto.
    - unfold callers, callers_with. apply Forall_fmap, Forall_replicate. reflexivity.
    - eapply Forall_impl; [apply (callers_at_start (replicate n o))|].
      intros t Ht. simpl in Ht. rewrite Ht. exact I. }
  pose proof (run_invariant (fun _ => True) (only_marked o w)
                (fun ev c1 c2 _ H => only_marked_step o w ev c1 c2 H)
                schedule _ c ltac:(apply Forall_true; auto) Hinit Hrun)
    as (Hw & _ & _ & Hpos).
  pose proof (owner_inside_reached _ _ _ _ Hlock Hrun) as Hown.
  pose proof (run_length _ _ _ Hrun) as Hlen. simpl in Hlen.
  unfold callers, callers_with in Hlen. rewrite length_fmap, length_replicate in Hlen.
  assert (Hfree : otp_read_lock c.2 = false).
  { destruct (otp_read_lock c.2) eqn:Hl; [|reflexivity].
    destruct (Hown Hl) as (i & t & Hi & Hin).
    pose proof (proj1 (forallb_forall _ _) Hfin t
                  (proj1 (list_elem_of_In _ _) (list_elem_of_lookup_2 _ _ _ Hi))) as Hft.
    unfold inside, finished in *. destruct (at_pc t); discriminate. }
  assert (Hstore : otp_repository c.2
                   = alter OTPRepository.mark_used o (otp_repository w)).
  { destruct c.1 as [|t ts]; simpl in *; [lia|].
    apply andb_prop in Hfin as [Hf _]. apply Forall_cons in Hpos as [Ht _].
    unfold finished in Hf. destruct (at_pc t); try discriminate. exact Ht. }
  destruct c as [ts w']. simpl in *.
  destruct w', w; simpl in *. injection Hw as -> -> -> ->.
  unfold set_otp_repository; simpl. subst. reflexivity.
Qed.

(** *** Positions and processes *)

(** The process of a thread at a position makes the step of the position. *)
Lemma todo_step (now : float) (t : thread) (w : Island) :
  Threads.step now (todo t) w
  = match step now t w with
    | Some (t', w') => Some (todo t', w')
    | None => None
    end.
Proof.
  destruct t as [o p]. unfold step, todo; simpl. destruct p as [| |b| |r|r]; simpl.
  - unfold authorize_otp, with_otp_read_lock; simpl.
    destruct (otp_read_lock w); reflexivity.
  - unfold guarded, try_block, atomic, atomic_at, OTPRepository.otp_is_used.
    unfold_py. cbn.
    destruct (otp_repository w !! o); reflexivity.
  - unfold guarded, after_is_used, atomic, atomic_at, OTPRepository.set_used.
    unfold_py. cbn. destruct b; reflexivity.
  - unfold guarded, after_set_used, atomic_at, _otp_ttl_elapsed,
      OTPRepository.get_expiration.
    unfold_py. cbn.
    destruct (otp_repository w !! o) as [r|]; cbn; [|reflexivity].
    destruct (PrimFloat.ltb (expiration_time r) now); reflexivity.
  - reflexivity.
  - reflexivity.
Qed.

Lemma processes_sched_step (ev : nat * float) (c : config) :
  Threads.sched_step ev (processes c) = processes <$> sched_step ev c.
Proof.
  unfold Threads.sched_step, sched_step, processes; simpl.
  rewrite list_lookup_fmap. destruct (c.1 !! ev.1) as [t|]; simpl; [|reflexivity].
  rewrite todo_step. destruct (step ev.2 t c.2) as [[t' w']|]; simpl; [|reflexivity].
  rewrite list_fmap_insert. reflexivity.
Qed.

(** The processes run as the positions say. *)
Lemma processes_run (schedule : list (nat * float)) (c : config) :
  Threads.run schedule (processes c) = processes <$> run schedule c.
Proof.
  revert c; induction schedule as [|ev schedule IH]; intros c; simpl; [reflexivity|].
  rewrite processes_sched_step. destruct (sched_step ev c) as [c'|]; simpl; [|reflexivity].
  apply IH.
Qed.

Lemma processes_callers_with (otps : list OTP) (w : Island) :
  processes (callers_with otps, w) = (Threads.callers_with otps, w).
Proof.
  unfold processes, callers_with, Threads.callers_with; simpl.
  rewrite <- list_fmap_compose. reflexivity.
Qed.

(** A run of callers of [authorize_otp] is the run of their positions. *)
Lemma run_positions (otps : list OTP) (w : Island) (schedule : list (nat * float))
    (c : Threads.config) :
  Threads.run schedule (Threads.callers_with otps, w) = Some c ->
  exists c0, run schedule (callers_with otps, w) = Some c0 /\ c = processes c0.
Proof.
  rewrite <- processes_callers_with, processes_run.
  destruct (run schedule (callers_with otps, w)) as [c0|]; simpl; [|discriminate].
  intros [= <-]. eauto.
Qed.

Lemma run_processes (otps : list OTP) (w : Island) (schedule : list (nat * float))
    (c0 : config) :
  run schedule (callers_with otps, w) = Some c0 ->
  Threads.run schedule (Threads.callers_with otps, w) = Some (processes c0).
Proof.
  intros H. rewrite <- processes_callers_with, processes_run, H. reflexivity.
Qed.

Lemma finished_todo (t : thread) : Threads.finished (todo t) = finished t.
Proof. destruct t as [o [| |b| |r|r]]; reflexivity. Qed.

Lemma returned_todo (b : bool) (t : thread) : Threads.returned b (todo t) = returned b t.
Proof. destruct t as [o [| |b'| |r|r]]; reflexivity. Qed.

Lemma all_finished_todo (ts : list thread) :
  forallb Threads.finished (todo <$> ts) = forallb finished ts.
Proof.
  induction ts as [|t ts IH]; [reflexivity|]. rewrite fmap_cons. cbn [forallb].
  rewrite finished_todo, IH. reflexivity.
Qed.

Lemma count_returned_todo (b : bool) (ts : list thread) :
  Threads.count (Threads.returned b) (todo <$> ts) = count (returned b) ts.
Proof.
  unfold Threads.count, count. induction ts as [|t ts IH]; [reflexivity|].
  rewrite fmap_cons. cbn [List.filter]. rewrite returned_todo.
  destruct (returned b t); cbn [length]; rewrite IH; reflexivity.
Qed.

Lemma returned_to_todo (o : OTP) (b : bool) (ts : list thread) :
  Threads.returned_to o b (fmap arg ts) (todo <$> ts) = count (returned_for o b) ts.
Proof.
  unfold Threads.returned_to, count. induction ts as [|t ts IH]; [reflexivity|].
  rewrite !fmap_cons. cbn [zip zip_with List.filter fst snd].
  rewrite returned_todo. unfold returned_for at 1, presents.
  destruct (String.eqb (arg t) o && returned b t); cbn [length]; rewrite IH; reflexivity.
Qed.

Lemma presenting_callers (o : OTP) (otps : list OTP) :
  Threads.presenting o otps = count (presents o) (callers_with otps).
Proof.
  unfold Threads.presenting, count, callers_with.
  induction otps as [|x otps IH]; [reflexivity|].
  rewrite fmap_cons. cbn [List.filter]. unfold presents at 1. cbn [arg].
  destruct (String.eqb x o); cbn [length]; rewrite IH; reflexivity.
Qed.


(** A call is under way when its thread is inside the guarded section. *)
Lemma under_way_inside (schedule : list (nat * float)) (c : config) (i : nat) :
  moved schedule c ->
  Threads.under_way schedule (processes c) i = true
  <-> exists t, c.1 !! i = Some t /\ inside t = true.
Proof.
  intros Hmoved. unfold Threads.under_way, processes; simpl.
  rewrite list_lookup_fmap. destruct (c.1 !! i) as [t|] eqn:Hi; simpl.
  - rewrite finished_todo, (Hmoved i t Hi). unfold inside, finished. split.
    + intros H. exists t. split; [reflexivity|]. destruct (at_pc t); simpl in *; congruence.
    + intros (t' & [= <-] & H). destruct (at_pc t); simpl in *; congruence.
  - rewrite andb_false_r. split; [discriminate|]. intros (t & Ht & _). discriminate.
Qed.

(** The calls of concurrent callers are serialized, whatever OTPs they
    present. *)
Lemma serialized_reached (otps : list OTP) (w : Island) (schedule : list (nat * float))
    (c : Threads.config) :
  otp_read_lock w = false ->
  Threads.run schedule (Threads.callers_with otps, w) = Some c ->
  Threads.serialized schedule c.
Proof.
  intros Hlock Hrun. apply run_positions in Hrun as (c0 & Hrun & ->).
  pose proof (moved_reached _ w schedule (callers_at_start otps) c0 Hrun) as Hmoved.
  pose proof (lock_owned_reached _ _ _ _ Hlock (callers_at_start otps) Hrun) as Hlk.
  pose proof (owner_inside_reached _ _ _ _ Hlock Hrun) as Hown.
  split.
  - intros i j Hi Hj.
    apply (under_way_inside _ _ _ Hmoved) in Hi as (ti & Hi & Hini).
    apply (under_way_inside _ _ _ Hmoved) in Hj as (tj & Hj & Hinj).
    exact (lock_owned_exclusive _ Hlk i j ti tj Hi Hj Hini Hinj).
  - simpl. split.
    + intros Hheld. destruct (Hown Hheld) as (i & t & Hi & Hin).
      exists i. apply (under_way_inside _ _ _ Hmoved). eauto.
    + intros [i Hi]. apply (under_way_inside _ _ _ Hmoved) in Hi as (t & Hi & Hin).
      destruct Hlk as (owner & Hl & Hownr). rewrite Hl.
      apply (Hownr i t Hi) in Hin. rewrite Hin. reflexivity.
Qed.

(** A caller's first step is made with the lock free, every later step with
    the lock held. *)
Lemma step_under_lock (otps : list OTP) (w : Island) (schedule : list (nat * float))
    (c c' : Threads.config) (ev : nat * float) :
  otp_read_lock w = false ->
  Threads.run schedule (Threads.callers_with otps, w) = Some c ->
  Threads.sched_step ev c = Some c' ->
  otp_read_lock c.2 = Threads.started schedule ev.1.
Proof.
  intros Hlock Hrun Hstep. apply run_positions in Hrun as (c0 & Hrun & ->).
  pose proof (moved_reached _ w schedule (callers_at_start otps) c0 Hrun) as Hmoved.
  pose proof (lock_owned_reached _ _ _ _ Hlock (callers_at_start otps) Hrun) as Hlk.
  rewrite processes_sched_step in Hstep.
  destruct (sched_step ev c0) as [c1|] eqn:Hst; [|discriminate].
  apply sched_step_inv in Hst as (t & t' & w' & Hi & Hst & _).
  rewrite (Hmoved _ t Hi). simpl.
  destruct Hlk as (owner & Hl & Hown). pose proof (Hown _ t Hi) as Hti.
  unfold step in Hst. unfold inside in Hti.
  destruct (at_pc t); simpl in *.
  - destruct (otp_read_lock c0.2); [discriminate | reflexivity].
  - rewrite Hl, (proj1 Hti eq_refl). reflexivity.
  - rewrite Hl, (proj1 Hti eq_refl). reflexivity.
  - rewrite Hl, (proj1 Hti eq_refl). reflexivity.
  - rewrite Hl, (proj1 Hti eq_refl). reflexivity.
  - discriminate.
Qed.

(** Callers that are turned down have not got [True], and have got [False]
    once their calls are over. *)
Lemma turned_down_counts (o : OTP) (ts : list thread) :
  Forall (fun t => arg t = o -> turned_down t) ts ->
  count (returned_for o true) ts = 0
  /\ (forallb finished ts = true ->
      count (returned_for o false) ts = count (presents o) ts).
Proof.
  unfold count. induction 1 as [|t ts Ht _ [IH1 IH2]]; [split; reflexivity|].
  cbn [List.filter forallb].
  assert (Htrue : returned_for o true t = false).
  { unfold returned_for. destruct (presents o t) eqn:Hp; [|reflexivity].
    apply presents_true in Hp. specialize (Ht Hp). unfold turned_down, returned in *.
    destruct (at_pc t) as [| | | | |res]; try reflexivity. rewrite Ht. reflexivity. }
  rewrite Htrue. split; [exact IH1|].
  intros Hfin. apply andb_prop in Hfin as [Hf Hfin]. specialize (IH2 Hfin).
  assert (Hfalse : returned_for o false t = presents o t).
  { unfold returned_for. destruct (presents o t) eqn:Hp; [|reflexivity].
    apply presents_true in Hp. specialize (Ht Hp).
    unfold turned_down, returned, finished in *.
    destruct (at_pc t) as [| | | | |res]; try discriminate. rewrite Ht. reflexivity. }
  rewrite Hfalse. destruct (presents o t); cbn [length]; rewrite IH2; reflexivity.
Qed.

End PositionFacts.

Import Threads.

(** C3. [n] callers, [n >= 1], call [authorize_otp(o)] at once for an OTP [o]
    that [generate_otp] has just created, and the clock does not pass the
    expiration while they run. Whatever the schedule: the calls are
    serialized, at most one is under way between its first and its last step
    and the facade's lock is held exactly then; when all calls are over
    exactly one has returned [True] and [n - 1] have returned [False]. The
    serialization holds for callers with any OTPs: the first step of a call
    takes the one lock of the facade, and every other step of the call, the
    read of the flag, its write and the expiry check among them, is made with
    the lock held. And there are schedules under which all calls are over. *)
Theorem concurrent_authorize_otp_once
    (w w1 : Island) (rnd : nat -> nat) (created : float) (o : OTP)
    (n : nat) (schedule : list (nat * float)) (c : config) :
  otp_read_lock w = false ->
  generate_otp rnd created w = (Return o, w1) ->
  1 <= n ->
  Forall (fun ev : nat * float =>
            PrimFloat.ltb (PrimFloat.add created (float_of_int OTP_EXPIRATION_TIME)) ev.2
            = false) schedule ->
  run schedule (callers n o, w1) = Some c ->
  serialized schedule c
  /\ (forallb finished c.1 = true ->
      count (returned true) c.1 = 1 /\ count (returned false) c.1 = n - 1)
  /\ (forall (otps : list OTP) (sched : list (nat * float)) (c' : config),
        run sched (callers_with otps, w1) = Some c' ->
        serialized sched c'
        /\ forall (ev : nat * float) (c'' : config),
             sched_step ev c' = Some c'' -> otp_read_lock c'.2 = started sched ev.1)
  /\ (forall now : float,
        exists (sched : list (nat * float)) (c' : config),
          Forall (fun ev : nat * float => ev.2 = now) sched
          /\ run sched (callers n o, w1) = Some c'
          /\ forallb finished c'.1 = true).
Proof.
  intros Hlock Hgen Hn Hclock Hrun.
  destruct (generate_otp_record _ _ _ _ _ Hgen) as [Hrec Hl1]. rewrite Hlock in Hl1.
  split; [exact (PositionFacts.serialized_reached _ _ _ _ Hl1 Hrun)|].
  split; [|split].
  - intros Hfin. apply PositionFacts.run_positions in Hrun as (c0 & Hrun & ->).
    simpl in Hfin. rewrite PositionFacts.all_finished_todo in Hfin.
    simpl. rewrite !PositionFacts.count_returned_todo.
    exact (PositionFacts.one_true o _ w1 n schedule c0 Hl1 Hrec eq_refl Hn Hclock Hrun Hfin).
  - intros otps sched c' Hrun'. split.
    + exact (PositionFacts.serialized_reached _ _ _ _ Hl1 Hrun').
    + intros ev c'' Hstep.
      exact (PositionFacts.step_under_lock _ _ _ _ _ _ Hl1 Hrun' Hstep).
  - intros now.
    destruct (PositionFacts.calls_can_finish (Positions.callers n o) w1 [] _ now Hl1 eq_refl)
      as (sched & c0 & Hrun0 & Hfin0 & Hnow).
    exists sched, (Positions.processes c0). split; [exact Hnow|]. split.
    + apply PositionFacts.run_processes. exact Hrun0.
    + simpl. rewrite PositionFacts.all_finished_todo. exact Hfin0.
Qed.

Lemma concurrent_authorize_otp_once_witness :
  exists c : config,
    run Sample.schedule (callers 3 Sample.otp, Sample.world) = Some c
    /\ forallb finished c.1 = true
    /\ serialized Sample.schedule c
    /\ (forallb finished c.1 = true ->
        count (returned true) c.1 = 1 /\ count (returned false) c.1 = 3 - 1)
    /\ (forall (otps : list OTP) (sched : list (nat * float)) (c' : config),
          run sched (callers_with otps, Sample.world) = Some c' ->
          serialized sched c'
          /\ forall (ev : nat * float) (c'' : config),
               sched_step ev c' = Some c'' -> otp_read_lock c'.2 = started sched ev.1)
    /\ (forall now : float,
          exists (sched : list (nat * float)) (c' : config),
            Forall (fun ev : nat * float => ev.2 = now) sched
            /\ run sched (callers 3 Sample.otp, Sample.world) = Some c'
            /\ forallb finished c'.1 = true).
Proof.
  eexists. split; [vm_compute; reflexivity|]. split; [reflexivity|].
  apply (concurrent_authorize_otp_once
           empty_island Sample.world Sample.rnd 1000 Sample.otp 3 Sample.schedule).
  - reflexivity.
  - vm_compute; reflexivity.
  - lia.
  - repeat constructor.
  - vm_compute; reflexivity.
Defined.

(** ** The flag used *)






(** ** The refresh flow *)

Section Refresh.
Variable parse : float -> Token -> outcome ParsedToken.
Variable generate_token : string -> Token.
Variable get_auth_token : User -> Token.

Local Abbreviation call := (exec parse generate_token get_auth_token).
Local Abbreviation run_all := (exec_all parse generate_token get_auth_token).
Local Abbreviation refresh :=
  (generate_new_token_pair parse generate_token get_auth_token).

(** [generate_new_token_pair] in closed form: the result is decided by the
    codec and by the lookup of the uniquifier, and the world is not written. *)
Lemma generate_new_token_pair_eq (r : Token) (now : float) (w : Island) :
  refresh r now w =
    (match parse now r with
     | Return p =>
         match List.find (fun x => String.eqb (fs_uniquifier x) (user_uniquifier p))
                 (datastore w) with
         | Some user => Return (get_auth_token user, generate_token (fs_uniquifier user))
         | None => Raise (Exception "Invalid refresh token")
         end
     | Raise e => Raise e
     | Blocked => Blocked
     end, w).
Proof.
  unfold generate_new_token_pair, _get_refresh_token_owner,
    UserDatastore.find_user_by_fs_uniquifier.
  unfold_py. destruct (parse now r) as [p| |]; simpl; try reflexivity.
  destruct (List.find _ (datastore w)); reflexivity.
Qed.

Lemma find_finds {A} (f : A -> bool) (l : list A) (x : A) :
  In x l -> f x = true -> exists y, List.find f l = Some y.
Proof.
  intros Hin Hf. destruct (List.find f l) as [y|] eqn:Hfind; [eauto|].
  pose proof (List.find_none f l Hfind x Hin). congruence.
Qed.

(** A call that is not applied to [subject] leaves [subject] in the datastore. *)
Lemma exec_keeps_subject (subject : User) (op : Op) (w : Island) :
  keeps_subject subject op = true ->
  In subject (datastore w) -> In subject (datastore (call op w)).
Proof.
  intros Hkeep Hin. destruct op; cbn [exec keeps_subject] in *.
  - destruct (drawn_otp_returns rnd) as (o & Ho & _).
    rewrite (generate_otp_eq _ _ _ _ Ho). exact Hin.
  - rewrite authorize_otp_eq. destruct (otp_read_lock w); [exact Hin|].
    destruct (otp_repository w !! otp); exact Hin.
  - rewrite generate_new_token_pair_frame. exact Hin.
  - exact Hin.
  - unfold revoke_all_tokens_for_user, UserDatastore.set_uniquifier. unfold_py.
    apply in_map_iff. exists subject. split; [|exact Hin].
    unfold UserDatastore.rotate.
    destruct (String.eqb_spec (username subject) (username user)) as [He|_];
      [|reflexivity].
    rewrite He, String.eqb_refl in Hkeep. discriminate.
  - discriminate.
  - apply negb_true_iff in Hkeep.
    assert (Hne : forall u : User, username u = name ->
                  String.eqb (username subject) (username u) = false).
    { intros u <-. rewrite String.eqb_sym. exact Hkeep. }
    unfold remove_user, revoke_all_tokens_for_user, UserDatastore.find_user_by_username,
      UserDatastore.set_uniquifier, UserDatastore.delete_user.
    unfold_py.
    destruct (List.find _ (datastore w)) as [u|] eqn:Hfind; simpl; [|exact Hin].
    apply List.find_some in Hfind as [_ Hu]. apply String.eqb_eq in Hu.
    apply filter_In. split.
    + apply in_map_iff. exists subject. split; [|exact Hin].
      unfold UserDatastore.rotate. rewrite (Hne u Hu). reflexivity.
    + rewrite (Hne u Hu). reflexivity.
  - destruct (needs_registration_frame w) as (_ & _ & -> & _). exact Hin.
  - destruct (create_user_frame username0 password roles0 email fresh w)
      as (_ & _ & _ & _ & new & ->).
    apply in_or_app. left. exact Hin.
  - destruct (handle_successful_registration_frame username0 password w) as (_ & _ & ->).
    exact Hin.
  - destruct (handle_successful_login_frame username0 password w) as (_ & _ & ->).
    exact Hin.
Qed.

Lemma exec_all_keeps_subject (subject : User) (ops : list Op) (w : Island) :
  forallb (keeps_subject subject) ops = true ->
  In subject (datastore w) -> In subject (datastore (run_all ops w)).
Proof.
  revert w; induction ops as [|op ops IH]; intros w Hkeep Hin; [exact Hin|].
  simpl in Hkeep. apply andb_prop in Hkeep as [H1 H2].
  unfold exec_all in *; simpl. apply IH; [exact H2|].
  apply exec_keeps_subject; assumption.
Qed.

End Refresh.

(** A refresh token that the codec turns down: its exception is what
    [generate_new_token_pair] raises. *)
Lemma refresh_of_rejected_token
    (parse : float -> Token -> outcome ParsedToken) (generate_token : string -> Token)
    (get_auth_token : User -> Token) (w : Island) (r : Token) (now : float) (e : exn) :
  parse now r = Raise e ->
  generate_new_token_pair parse generate_token get_auth_token r now w = (Raise e, w).
Proof. intros H. rewrite generate_new_token_pair_eq, H. reflexivity. Qed.

(** C7, as the code has it. A [generate_new_token_pair(r)] that succeeds
    leaves the world as it found it: no uniquifier is rotated, no store is
    written. The token [r] therefore stays good for as long as the codec
    accepts it: after any further calls of the facade, among them
    [generate_new_token_pair(r)] itself, none of which revokes the tokens of
    the user the token belongs to or removes that user, a
    [generate_new_token_pair(r)] made at a reading of the clock at which the
    codec reads [r] as before succeeds again; made when the codec turns [r]
    down, as it does once [r] has expired, it raises the codec's exception. *)
Theorem refresh_keeps_token_valid
    (parse : float -> Token -> outcome ParsedToken) (generate_token : string -> Token)
    (get_auth_token : User -> Token)
    (w w' : Island) (r : Token) (now : float) (pair : Token * Token) :
  generate_new_token_pair parse generate_token get_auth_token r now w = (Return pair, w') ->
  w' = w
  /\ exists subject : User,
       owner parse r now w = Some subject
       /\ forall (ops : list Op) (later : float),
            forallb (keeps_subject subject) ops = true ->
            (parse later r = parse now r ->
             exists pair' : Token * Token,
               generate_new_token_pair parse generate_token get_auth_token r later
                 (exec_all parse generate_token get_auth_token ops w')
               = (Return pair', exec_all parse generate_token get_auth_token ops w'))
            /\ (forall e : exn,
                  parse later r = Raise e ->
                  generate_new_token_pair parse generate_token get_auth_token r later
                    (exec_all parse generate_token get_auth_token ops w')
                  = (Raise e, exec_all parse generate_token get_auth_token ops w')).
Proof.
  rewrite generate_new_token_pair_eq. unfold owner.
  destruct (parse now r) as [p| |] eqn:Hp; try discriminate.
  destruct (List.find _ (datastore w)) as [subject|] eqn:Hfind; [|discriminate].
  intros [= <- <-]. split; [reflexivity|].
  exists subject. split; [reflexivity|]. intros ops later Hkeep. split.
  - intros Hlater.
    apply List.find_some in Hfind as [Hin Hu].
    pose proof (exec_all_keeps_subject parse generate_token get_auth_token
                  subject ops w Hkeep Hin) as Hin'.
    destruct (find_finds (fun x => String.eqb (fs_uniquifier x) (user_uniquifier p))
                _ subject Hin' Hu) as [user Huser].
    rewrite generate_new_token_pair_eq, Hlater, Huser. eauto.
  - intros e He. apply refresh_of_rejected_token, He.
Qed.

Lemma refresh_keeps_token_valid_witness :
  Sample.island = Sample.island
  /\ exists subject : User,
       owner (ExpiringCodec.parse 2000) "rt:u1" 1000 Sample.island = Some subject
       /\ forall (ops : list Op) (later : float),
            forallb (keeps_subject subject) ops = true ->
            (ExpiringCodec.parse 2000 later "rt:u1"
             = ExpiringCodec.parse 2000 1000 "rt:u1" ->
             exists pair' : Token * Token,
               generate_new_token_pair
                 (ExpiringCodec.parse 2000) PlainCodec.generate_token
                 PlainCodec.get_auth_token "rt:u1" later
                 (exec_all (ExpiringCodec.parse 2000) PlainCodec.generate_token
                    PlainCodec.get_auth_token ops Sample.island)
               = (Return pair',
                  exec_all (ExpiringCodec.parse 2000) PlainCodec.generate_token
                    PlainCodec.get_auth_token ops Sample.island))
            /\ (forall e : exn,
                  ExpiringCodec.parse 2000 later "rt:u1" = Raise e ->
                  generate_new_token_pair
                    (ExpiringCodec.parse 2000) PlainCodec.generate_token
                    PlainCodec.get_auth_token "rt:u1" later
                    (exec_all (ExpiringCodec.parse 2000) PlainCodec.generate_token
                       PlainCodec.get_auth_token ops Sample.island)
                  = (Raise e,
                     exec_all (ExpiringCodec.parse 2000) PlainCodec.generate_token
                       PlainCodec.get_auth_token ops Sample.island)).
Proof.
  apply (refresh_keeps_token_valid
           (ExpiringCodec.parse 2000) PlainCodec.generate_token PlainCodec.get_auth_token
           Sample.island Sample.island "rt:u1" 1000 ("at:u1", "rt:u1")).
  reflexivity.
Defined.

(** C7 as the spec words it fails for a token that expires: with a codec
    whose tokens expire at 2000.0, the refresh token of [alice] is exchanged
    at 1000.0, no call revokes it, and the exchange at 2000.5 raises
    [TokenValidationError]. *)
Lemma expired_token_counterexample :
  ~ (forall (parse : float -> Token -> outcome ParsedToken)
            (generate_token : string -> Token) (get_auth_token : User -> Token)
            (w : Island) (r : Token) (now later : float) (pair : Token * Token),
       generate_new_token_pair parse generate_token get_auth_token r now w
       = (Return pair, w) ->
       exists pair' : Token * Token,
         generate_new_token_pair parse generate_token get_auth_token r later w
         = (Return pair', w)).
Proof.
  intros H.
  destruct (H (ExpiringCodec.parse 2000) PlainCodec.generate_token PlainCodec.get_auth_token
              Sample.island "rt:u1" 1000%float 2000.5%float ("at:u1", "rt:u1") eq_refl)
    as [pair' Hpair].
  vm_compute in Hpair. discriminate Hpair.
Qed.

(** The refresh token of a user is good for a second exchange, and for a
    third after other users' tokens were revoked. *)
Example refresh_token_used_again :
  let refresh :=
    generate_new_token_pair
      PlainCodec.parse PlainCodec.generate_token PlainCodec.get_auth_token in
  let w :=
    exec_all PlainCodec.parse PlainCodec.generate_token PlainCodec.get_auth_token
      [ GenerateNewTokenPair "rt:u1" 1000;
        RevokeAllTokensForUser Sample.bob "u3";
        GenerateNewTokenPair "rt:u1" 1001;
        RemoveUser "bob" "u4" ] Sample.island in
  refresh "rt:u1" 1002%float w = (Return ("at:u1", "rt:u1"), w).
Proof. vm_compute. reflexivity. Qed.

(** C4, where the code departs from it. For a refresh token that the codec
    accepts and whose uniquifier no user of the datastore has,
    [generate_new_token_pair] raises the builtin [Exception("Invalid refresh
    token")], which is not a [TokenValidationError]. *)
Theorem refresh_without_subject_raises_exception
    (parse : float -> Token -> outcome ParsedToken) (generate_token : string -> Token)
    (get_auth_token : User -> Token) (w : Island) (r : Token) (now : float)
    (p : ParsedToken) :
  parse now r = Return p ->
  List.find (fun x => String.eqb (fs_uniquifier x) (user_uniquifier p)) (datastore w) = None ->
  generate_new_token_pair parse generate_token get_auth_token r now w
  = (Raise (Exception "Invalid refresh token"), w)
  /\ (generate_new_token_pair parse generate_token get_auth_token r now w).1
     <> Raise TokenValidationError.
Proof.
  intros Hp Hfind. rewrite generate_new_token_pair_eq, Hp, Hfind.
  split; [reflexivity | discriminate].
Qed.

(** The refresh token of [alice], presented after
    [revoke_all_tokens_for_user(alice)]. *)
Lemma refresh_without_subject_raises_exception_witness :
  let w := (revoke_all_tokens_for_user Sample.alice "u3" Sample.island).2 in
  generate_new_token_pair
    PlainCodec.parse PlainCodec.generate_token PlainCodec.get_auth_token "rt:u1" 1000 w
  = (Raise (Exception "Invalid refresh token"), w)
  /\ (generate_new_token_pair
        PlainCodec.parse PlainCodec.generate_token PlainCodec.get_auth_token "rt:u1" 1000 w).1
     <> Raise TokenValidationError.
Proof.
  apply (refresh_without_subject_raises_exception
           PlainCodec.parse PlainCodec.generate_token PlainCodec.get_auth_token
           (revoke_all_tokens_for_user Sample.alice "u3" Sample.island).2
           "rt:u1" 1000 {| user_uniquifier := "u1" |});
    reflexivity.
Defined.

(** ** Registration, login and the encryptor *)

(** The world once [handle_successful_registration] has published its events
    and has reset the key. *)
Lemma registration_reset (w : Island) :
  (bind _reset_island_data (fun _ => LockableEncryptor.reset_key) w)
  = (Return tt,
     record_call ResetKey
       (set_repository_encryptor {| key_secret := None; unlocked := false |}
          (record_call (Publish SET_ISLAND_MODE (Some UNSET))
             (record_call (Publish RESET_AGENT_CONFIGURATION None)
                (record_call (Publish CLEAR_SIMULATION_DATA None) w))))).
Proof. reflexivity. Qed.

(** [handle_successful_registration] in closed form. *)
Lemma handle_successful_registration_eq (username password : string) (w : Island) :
  handle_successful_registration username password w =
    let w1 :=
      record_call ResetKey
        (set_repository_encryptor {| key_secret := None; unlocked := false |}
           (record_call (Publish SET_ISLAND_MODE (Some UNSET))
              (record_call (Publish RESET_AGENT_CONFIGURATION None)
                 (record_call (Publish CLEAR_SIMULATION_DATA None) w)))) in
    match encode (_get_secret_from_credentials username password) with
    | Return secret_bytes =>
        (Return tt,
         set_repository_encryptor {| key_secret := Some secret_bytes; unlocked := true |}
           (record_call (Unlock secret_bytes) w1))
    | Raise e => (Raise e, w1)
    | Blocked => (Blocked, w1)
    end.
Proof.
  unfold handle_successful_registration, _reset_island_data, _reset_repository_encryptor,
    IslandEventQueue.publish, LockableEncryptor.reset_key, LockableEncryptor.unlock.
  unfold_py. destruct (encode _) as [b| |]; reflexivity.
Qed.

(** [str.encode()] raises nothing but [UnicodeEncodeError]. *)
Lemma encode_cases (s : string) :
  (has_surrogate s = false /\ encode s = Return (list_byte_of_string s))
  \/ (has_surrogate s = true /\ encode s = Raise UnicodeEncodeError).
Proof. unfold encode. destruct (has_surrogate s); auto. Qed.

(** C9, as the code has it. The secret is [username + ":" + password]. If
    [str.encode()] can encode the secret, [handle_successful_registration]
    returns, and the calls it makes on its collaborators are, in this order:
    publish [CLEAR_SIMULATION_DATA], publish [RESET_AGENT_CONFIGURATION],
    publish [SET_ISLAND_MODE] with the mode [UNSET], [reset_key], and [unlock]
    with the bytes of the secret; the encryptor is then unlocked under that
    secret. If the secret holds a surrogate, the first four calls are made and
    [str.encode()] raises [UnicodeEncodeError]: there is no [unlock], and the
    encryptor is left locked with the key material [reset_key] made. Nothing
    else of the world changes. *)
Theorem registration_resets_then_unlocks (username password : string) (w : Island) :
  _get_secret_from_credentials username password = username ++ ":" ++ password
  /\ (has_surrogate (username ++ ":" ++ password) = false ->
      exists w' : Island,
        handle_successful_registration username password w = (Return tt, w')
        /\ calls w' =
             (calls w ++
              [ Publish CLEAR_SIMULATION_DATA None;
                Publish RESET_AGENT_CONFIGURATION None;
                Publish SET_ISLAND_MODE (Some UNSET);
                ResetKey;
                Unlock (list_byte_of_string (username ++ ":" ++ password)) ])%list
        /\ encode (username ++ ":" ++ password)
           = Return (list_byte_of_string (username ++ ":" ++ password))
        /\ repository_encryptor w' =
             {| key_secret := Some (list_byte_of_string (username ++ ":" ++ password));
                unlocked := true |}
        /\ datastore w' = datastore w
        /\ role_names w' = role_names w
        /\ otp_repository w' = otp_repository w
        /\ otp_read_lock w' = otp_read_lock w)
  /\ (has_surrogate (username ++ ":" ++ password) = true ->
      exists w' : Island,
        handle_successful_registration username password w = (Raise UnicodeEncodeError, w')
        /\ calls w' =
             (calls w ++
              [ Publish CLEAR_SIMULATION_DATA None;
                Publish RESET_AGENT_CONFIGURATION None;
                Publish SET_ISLAND_MODE (Some UNSET);
                ResetKey ])%list
        /\ repository_encryptor w' = {| key_secret := None; unlocked := false |}
        /\ datastore w' = datastore w
        /\ role_names w' = role_names w
        /\ otp_repository w' = otp_repository w
        /\ otp_read_lock w' = otp_read_lock w).
Proof.
  split; [reflexivity|].
  change (username ++ ":" ++ password)
    with (_get_secret_from_credentials username password).
  rewrite handle_successful_registration_eq. cbv zeta.
  destruct (encode_cases (_get_secret_from_credentials username password))
    as [[Hs He]|[Hs He]]; rewrite Hs, He; split; intros Hc; try discriminate Hc;
    eexists; (split; [reflexivity|]); simpl;
    rewrite <- ?app_assoc; repeat split; reflexivity.
Qed.

(** C9 as the spec words it fails for credentials that [str.encode()] cannot
    encode: after a registration with the user name "\ud800" the calls made
    end with [reset_key], and no [unlock] follows. *)
Lemma registration_surrogate_counterexample :
  ~ (forall (username password : string) (w : Island),
       exists secret_bytes : list Byte.byte,
         calls (handle_successful_registration username password w).2
         = (calls w ++
            [ Publish CLEAR_SIMULATION_DATA None;
              Publish RESET_AGENT_CONFIGURATION None;
              Publish SET_ISLAND_MODE (Some UNSET);
              ResetKey;
              Unlock secret_bytes ])%list).
Proof.
  intros H. destruct (H Sample.lone_surrogate "p" empty_island) as [b Hb].
  vm_compute in Hb. discriminate Hb.
Qed.

Lemma append_assoc (a b c : string) : (a ++ b) ++ c = a ++ (b ++ c).
Proof.
  induction a as [|x a IH]; [reflexivity|].
  change (String x ((a ++ b) ++ c) = String x (a ++ (b ++ c))).
  rewrite IH. reflexivity.
Qed.

(** The secret does not tell where the user name ends. *)
Lemma secret_of_shifted_colon (a b c : string) :
  _get_secret_from_credentials (a ++ ":" ++ b) c
  = _get_secret_from_credentials a (b ++ ":" ++ c).
Proof. unfold _get_secret_from_credentials. rewrite !append_assoc. reflexivity. Qed.

(** [handle_successful_login] depends on the credentials through the secret
    only. *)
Lemma login_by_secret (u1 p1 u2 p2 : string) (w : Island) :
  _get_secret_from_credentials u1 p1 = _get_secret_from_credentials u2 p2 ->
  handle_successful_login u1 p1 w = handle_successful_login u2 p2 w.
Proof.
  intros H. unfold handle_successful_login, _unlock_repository_encryptor.
  cbv zeta. rewrite H. reflexivity.
Qed.

Lemma bytes_eqb_eq (a b : list Byte.byte) :
  LockableEncryptor.bytes_eqb a b = true <-> a = b.
Proof.
  revert b; induction a as [|x a IH]; intros [|y b]; simpl; split;
    try discriminate; try reflexivity.
  - intros H. apply andb_prop in H as [Hxy Hab].
    apply Byte.byte_dec_bl in Hxy. apply IH in Hab. congruence.
  - intros [= -> ->]. apply andb_true_intro. split.
    + apply Byte.byte_dec_lb. reflexivity.
    + apply IH. reflexivity.
Qed.

(** [handle_successful_login] in closed form. *)
Lemma handle_successful_login_eq (username password : string) (w : Island) :
  handle_successful_login username password w
  = match encode (_get_secret_from_credentials username password) with
    | Return secret =>
        let w1 := record_call (Unlock secret) w in
        match key_secret (repository_encryptor w) with
        | None =>
            (Return tt,
             set_repository_encryptor {| key_secret := Some secret; unlocked := true |} w1)
        | Some k =>
            if LockableEncryptor.bytes_eqb k secret
            then (Return tt,
                  set_repository_encryptor {| key_secret := Some k; unlocked := true |} w1)
            else (Raise EncryptorError, w1)
        end
    | Raise e => (Raise e, w)
    | Blocked => (Blocked, w)
    end.
Proof.
  unfold handle_successful_login, _unlock_repository_encryptor, LockableEncryptor.unlock.
  unfold_py. destruct (encode _) as [b| |]; simpl; try reflexivity.
  destruct (key_secret (repository_encryptor w)) as [k|]; simpl; [|reflexivity].
  destruct (LockableEncryptor.bytes_eqb k _); reflexivity.
Qed.

(** A login with the secret that the key material is bound to opens a locked
    encryptor. *)
Lemma login_unlocks (username password : string) (w : Island) (k : list Byte.byte) :
  encode (_get_secret_from_credentials username password) = Return k ->
  key_secret (repository_encryptor w) = Some k ->
  handle_successful_login username password w
  = (Return tt,
     set_repository_encryptor {| key_secret := Some k; unlocked := true |}
       (record_call (Unlock k) w)).
Proof.
  intros He Hk. rewrite handle_successful_login_eq, He. cbv zeta. rewrite Hk.
  rewrite (proj2 (bytes_eqb_eq k k) eq_refl). reflexivity.
Qed.

(** C10. The secret is [username + ":" + password], and it is not injective:
    a colon may be counted to the user name or to the password, so the pairs
    ("a:b", "c") and ("a", "b:c") differ and give the same secret "a:b:c".
    [handle_successful_login] therefore does the same with both, in every
    world. After a registration with ("a:b", "c") the key material is bound to
    that secret: an encryptor that holds this key material and is locked, as
    it is when the island starts again, is unlocked by a login with
    ("a", "b:c") as it is by a login with ("a:b", "c"), with the very same call
    on the encryptor, while a login with a pair of another secret is turned
    down and leaves it locked. The same holds for every two pairs with one
    secret. *)
Theorem secret_is_not_injective :
  (forall username password : string,
     _get_secret_from_credentials username password = username ++ ":" ++ password)
  /\ (forall a b c : string,
        _get_secret_from_credentials (a ++ ":" ++ b) c
        = _get_secret_from_credentials a (b ++ ":" ++ c))
  /\ ("a:b", "c") <> ("a", "b:c")
  /\ _get_secret_from_credentials "a:b" "c" = "a:b:c"
  /\ _get_secret_from_credentials "a" "b:c" = "a:b:c"
  /\ (forall w : Island,
        handle_successful_login "a" "b:c" w = handle_successful_login "a:b" "c" w)
  /\ (forall w : Island,
        let registered := (handle_successful_registration "a:b" "c" w).2 in
        let restarted :=
          set_repository_encryptor
            {| key_secret := key_secret (repository_encryptor registered);
               unlocked := false |} registered in
        unlocked (repository_encryptor restarted) = false
        /\ (handle_successful_login "a" "b:c" restarted).1 = Return tt
        /\ unlocked (repository_encryptor
                       (handle_successful_login "a" "b:c" restarted).2) = true
        /\ calls (handle_successful_login "a" "b:c" restarted).2
           = (calls restarted ++ [Unlock (list_byte_of_string "a:b:c")])%list
        /\ (handle_successful_login "a" "c" restarted).1 = Raise EncryptorError
        /\ unlocked (repository_encryptor
                       (handle_successful_login "a" "c" restarted).2) = false)
  /\ (forall (u p u' p' : string) (w : Island) (k : list Byte.byte),
        _get_secret_from_credentials u' p' = _get_secret_from_credentials u p ->
        encode (_get_secret_from_credentials u p) = Return k ->
        key_secret (repository_encryptor w) = Some k ->
        unlocked (repository_encryptor w) = false ->
        (handle_successful_login u' p' w).1 = Return tt
        /\ unlocked (repository_encryptor (handle_successful_login u' p' w).2) = true
        /\ calls (handle_successful_login u' p' w).2 = (calls w ++ [Unlock k])%list).
Proof.
  split; [reflexivity|]. split; [apply secret_of_shifted_colon|].
  split; [discriminate|].
  split; [reflexivity|]. split; [reflexivity|]. split; [|split].
  - intros w. apply login_by_secret. reflexivity.
  - intros w. cbv zeta.
    rewrite handle_successful_registration_eq. cbv zeta.
    change (encode (_get_secret_from_credentials "a:b" "c"))
      with (Return (A := list Byte.byte) (list_byte_of_string "a:b:c")).
    cbn [snd]. rewrite !handle_successful_login_eq.
    change (encode (_get_secret_from_credentials "a" "b:c"))
      with (Return (A := list Byte.byte) (list_byte_of_string "a:b:c")).
    change (encode (_get_secret_from_credentials "a" "c"))
      with (Return (A := list Byte.byte) (list_byte_of_string "a:c")).
    repeat split; reflexivity.
  - intros u p u' p' w k Hs He Hk Hl.
    rewrite (login_by_secret u' p' u p w Hs), (login_unlocks u p w k He Hk).
    repeat split; reflexivity.
Qed.

(** * Further properties of the facade *)

(** ** More on [authorize_otp] and [generate_otp] *)

Lemma set_same_otp_repository (w : Island) :
  set_otp_repository (otp_repository w) w = w.
Proof. destruct w; reflexivity. Qed.

(** The world [authorize_otp] leaves when it finds the lock free: the record
    of the OTP is marked, if there is one. *)
Lemma authorize_otp_world (o : OTP) (now : float) (w : Island) :
  otp_read_lock w = false ->
  (authorize_otp o now w).2
  = set_otp_repository (alter OTPRepository.mark_used o (otp_repository w)) w.
Proof.
  intros Hlock. rewrite authorize_otp_eq, Hlock.
  destruct (otp_repository w !! o) as [r|] eqn:Hr; [reflexivity|]. simpl.
  rewrite alter_id; [symmetry; apply set_same_otp_repository|].
  intros x Hx. congruence.
Qed.

(** A call of [authorize_otp] that no other call runs beside, so that it
    finds the lock free, says [True] exactly for an OTP that the repository
    holds, that is not marked used and whose expiration is not below the clock
    reading; for every other OTP it says [False]. *)
Theorem authorize_otp_true_iff (o : OTP) (now : float) (w : Island) :
  otp_read_lock w = false ->
  ((authorize_otp o now w).1 = Return true
   <-> exists r : OTPRecord,
         otp_repository w !! o = Some r
         /\ used r = false
         /\ PrimFloat.ltb (expiration_time r) now = false)
  /\ ((authorize_otp o now w).1 = Return true \/ (authorize_otp o now w).1 = Return false).
Proof.
  intros Hlock. rewrite authorize_otp_eq, Hlock. split; [split|].
  - destruct (otp_repository w !! o) as [r|]; [|discriminate]. simpl.
    intros [= H]. apply andb_prop in H as [Hu Ht].
    apply negb_true_iff in Hu. apply negb_true_iff in Ht.
    exists r. auto.
  - intros (r & -> & -> & ->). reflexivity.
  - destruct (otp_repository w !! o) as [r|]; simpl; [|auto].
    destruct (negb (used r) && negb (PrimFloat.ltb (expiration_time r) now)); auto.
Qed.

Lemma authorize_otp_true_iff_witness :
  ((authorize_otp Sample.otp 1001 Sample.world).1 = Return true
   <-> exists r : OTPRecord,
         otp_repository Sample.world !! Sample.otp = Some r
         /\ used r = false
         /\ PrimFloat.ltb (expiration_time r) 1001 = false)
  /\ ((authorize_otp Sample.otp 1001 Sample.world).1 = Return true
      \/ (authorize_otp Sample.otp 1001 Sample.world).1 = Return false).
Proof. apply (authorize_otp_true_iff Sample.otp 1001 Sample.world). reflexivity. Defined.

(** Whatever [authorize_otp(o)] answers, it writes nothing but the flag
    used of [o]: users, encryptor, the calls on collaborators and the lock are
    as before, no OTP record appears or disappears, the records of the other
    OTPs and the expiration of [o] are as before. *)
Theorem authorize_otp_frame (o : OTP) (now : float) (w : Island) :
  datastore (authorize_otp o now w).2 = datastore w
  /\ repository_encryptor (authorize_otp o now w).2 = repository_encryptor w
  /\ calls (authorize_otp o now w).2 = calls w
  /\ otp_read_lock (authorize_otp o now w).2 = otp_read_lock w
  /\ dom (otp_repository (authorize_otp o now w).2) = dom (otp_repository w)
  /\ (forall o' : OTP, o' <> o ->
        otp_repository (authorize_otp o now w).2 !! o' = otp_repository w !! o')
  /\ expiration_time <$> otp_repository (authorize_otp o now w).2 !! o
     = expiration_time <$> otp_repository w !! o.
Proof.
  destruct (otp_read_lock w) eqn:Hlock.
  - rewrite authorize_otp_eq, Hlock. simpl. rewrite Hlock. repeat split; reflexivity.
  - rewrite (authorize_otp_world o now w Hlock). simpl.
    repeat split; try reflexivity; try assumption.
    + apply dom_alter_L.
    + intros o' Hne. apply lookup_alter_ne. congruence.
    + rewrite lookup_alter_eq. destruct (otp_repository w !! o); reflexivity.
Qed.

(** Calls of [authorize_otp] with different OTPs do not disturb one another:
    each answers what it would have answered alone, and the two orders leave
    the same world. *)
Theorem authorize_otp_commutes (o1 o2 : OTP) (t1 t2 : float) (w : Island) :
  o1 <> o2 ->
  (authorize_otp o2 t2 (authorize_otp o1 t1 w).2).1 = (authorize_otp o2 t2 w).1
  /\ (authorize_otp o1 t1 (authorize_otp o2 t2 w).2).1 = (authorize_otp o1 t1 w).1
  /\ (authorize_otp o2 t2 (authorize_otp o1 t1 w).2).2
     = (authorize_otp o1 t1 (authorize_otp o2 t2 w).2).2.
Proof.
  intros Hne. destruct (otp_read_lock w) eqn:Hlock.
  - rewrite !(authorize_otp_eq _ _ w), Hlock. simpl.
    rewrite !authorize_otp_eq, Hlock. auto.
  - assert (H1 : otp_read_lock (authorize_otp o1 t1 w).2 = false)
      by (rewrite (authorize_otp_world _ _ _ Hlock); exact Hlock).
    assert (H2 : otp_read_lock (authorize_otp o2 t2 w).2 = false)
      by (rewrite (authorize_otp_world _ _ _ Hlock); exact Hlock).
    split; [|split].
    + rewrite !(authorize_otp_eq o2), H1, Hlock.
      rewrite (authorize_otp_world _ _ _ Hlock). simpl.
      rewrite lookup_alter_ne by exact Hne.
      destruct (otp_repository w !! o2); reflexivity.
    + rewrite !(authorize_otp_eq o1), H2, Hlock.
      rewrite (authorize_otp_world _ _ _ Hlock). simpl.
      rewrite lookup_alter_ne by congruence.
      destruct (otp_repository w !! o1); reflexivity.
    + rewrite (authorize_otp_world o2 t2 _ H1), (authorize_otp_world o1 t1 _ H2).
      rewrite !(authorize_otp_world _ _ _ Hlock). simpl.
      unfold set_otp_repository; simpl. f_equal.
      apply map_eq. intros k. rewrite !lookup_alter.
      repeat case_decide; subst; try congruence;
        rewrite ?lookup_alter_eq, ?lookup_alter_ne by congruence; reflexivity.
Qed.

Lemma authorize_otp_commutes_witness :
  (authorize_otp Sample.otp' 1003 (authorize_otp Sample.otp 1002 Sample.world).2).1
  = (authorize_otp Sample.otp' 1003 Sample.world).1
  /\ (authorize_otp Sample.otp 1002 (authorize_otp Sample.otp' 1003 Sample.world).2).1
     = (authorize_otp Sample.otp 1002 Sample.world).1
  /\ (authorize_otp Sample.otp' 1003 (authorize_otp Sample.otp 1002 Sample.world).2).2
     = (authorize_otp Sample.otp 1002 (authorize_otp Sample.otp' 1003 Sample.world).2).2.
Proof.
  apply (authorize_otp_commutes Sample.otp Sample.otp' 1002 1003 Sample.world).
  discriminate.
Defined.

(** An OTP that was presented is spent, whatever the answer was: after an
    [authorize_otp(o)] for an OTP of the repository, be it answered [True], or
    [False] because the OTP had expired or was used, every later
    [authorize_otp(o)] answers [False] and writes nothing. *)
Theorem presented_otp_is_spent
    (parse : float -> Token -> outcome ParsedToken) (generate_token : string -> Token)
    (get_auth_token : User -> Token)
    (w : Island) (o : OTP) (r : OTPRecord) (now later : float) (ops : list Op) :
  otp_read_lock w = false ->
  otp_repository w !! o = Some r ->
  new_draws parse generate_token get_auth_token ops (authorize_otp o now w).2 = true ->
  authorize_otp o later
    (exec_all parse generate_token get_auth_token ops (authorize_otp o now w).2)
  = (Return false,
     exec_all parse generate_token get_auth_token ops (authorize_otp o now w).2).
Proof.
  intros Hlock Hr Hnew.
  set (w1 := (authorize_otp o now w).2) in *.
  assert (Hr1 : otp_repository w1 !! o = Some (OTPRepository.mark_used r)).
  { subst w1. rewrite (authorize_otp_world _ _ _ Hlock). simpl.
    rewrite lookup_alter_eq, Hr. reflexivity. }
  pose proof (exec_all_keeps_used parse generate_token get_auth_token
                o _ ops w1 Hnew Hr1 eq_refl) as Hr2.
  pose proof (exec_all_otp_read_lock parse generate_token get_auth_token ops w1) as Hl2.
  assert (Hl1 : otp_read_lock w1 = false)
    by (subst w1; rewrite (authorize_otp_world _ _ _ Hlock); exact Hlock).
  rewrite Hl1 in Hl2.
  set (w2 := exec_all parse generate_token get_auth_token ops w1) in *.
  rewrite authorize_otp_eq, Hl2, Hr2. simpl. f_equal.
  rewrite alter_id; [apply set_same_otp_repository|].
  intros x Hx. rewrite Hr2 in Hx. injection Hx as <-. reflexivity.
Qed.

Lemma presented_otp_is_spent_witness :
  authorize_otp Sample.otp 1110
    (exec_all PlainCodec.parse PlainCodec.generate_token PlainCodec.get_auth_token
       Sample.after (authorize_otp Sample.otp 5000 Sample.world).2)
  = (Return false,
     exec_all PlainCodec.parse PlainCodec.generate_token PlainCodec.get_auth_token
       Sample.after (authorize_otp Sample.otp 5000 Sample.world).2).
Proof.
  apply (presented_otp_is_spent
           PlainCodec.parse PlainCodec.generate_token PlainCodec.get_auth_token
           Sample.world Sample.otp {| expiration_time := 1120; used := false |}
           5000 1110 Sample.after); reflexivity.
Defined.

(** [generate_otp] writes one record and nothing else: when the value it
    draws is new, the repository grows by exactly this record and keeps all
    others; users, encryptor, calls on collaborators and the lock are as
    before. *)
Theorem generate_otp_frame (rnd : nat -> nat) (now : float) (w w' : Island) (o : OTP) :
  generate_otp rnd now w = (Return o, w') ->
  otp_repository w !! o = None ->
  dom (otp_repository w') = {[o]} ∪ dom (otp_repository w)
  /\ size (otp_repository w') = S (size (otp_repository w))
  /\ (forall o' : OTP, o' <> o -> otp_repository w' !! o' = otp_repository w !! o')
  /\ datastore w' = datastore w
  /\ repository_encryptor w' = repository_encryptor w
  /\ calls w' = calls w
  /\ otp_read_lock w' = otp_read_lock w.
Proof.
  intros Hgen Hnew. apply generate_otp_inv in Hgen as [_ ->]. simpl.
  repeat split.
  - apply dom_insert_L.
  - apply map_size_insert_None, Hnew.
  - intros o' Hne. apply lookup_insert_ne. congruence.
Qed.

Lemma generate_otp_frame_witness :
  dom (otp_repository Sample.world) = {[Sample.otp]} ∪ dom (otp_repository empty_island)
  /\ size (otp_repository Sample.world) = S (size (otp_repository empty_island))
  /\ (forall o' : OTP, o' <> Sample.otp ->
        otp_repository Sample.world !! o' = otp_repository empty_island !! o')
  /\ datastore Sample.world = datastore empty_island
  /\ repository_encryptor Sample.world = repository_encryptor empty_island
  /\ calls Sample.world = calls empty_island
  /\ otp_read_lock Sample.world = otp_read_lock empty_island.
Proof.
  apply (generate_otp_frame Sample.rnd 1000 empty_island Sample.world Sample.otp);
    reflexivity.
Defined.

(** ** Revocation and removal *)

Lemma find_none_of_all_false {A} (f : A -> bool) (l : list A) :
  (forall x, In x l -> f x = false) -> List.find f l = None.
Proof.
  induction l as [|a l IH]; intros H; simpl; [reflexivity|].
  rewrite (H a (or_introl eq_refl)). apply IH. intros x Hx. apply H. now right.
Qed.

Lemma rotate_username (n fresh : string) (x : User) :
  username (UserDatastore.rotate n fresh x) = username x.
Proof. unfold UserDatastore.rotate. destruct (String.eqb (username x) n); reflexivity. Qed.

(** A refresh token whose uniquifier none of the users has is turned down
    with the builtin exception. *)
Lemma refresh_without_holder
    (parse : float -> Token -> outcome ParsedToken) (generate_token : string -> Token)
    (get_auth_token : User -> Token) (w : Island) (r : Token) (now : float)
    (p : ParsedToken) :
  parse now r = Return p ->
  (forall x, In x (datastore w) -> fs_uniquifier x <> user_uniquifier p) ->
  generate_new_token_pair parse generate_token get_auth_token r now w
  = (Raise (Exception "Invalid refresh token"), w).
Proof.
  intros Hp Hnone. rewrite generate_new_token_pair_eq, Hp.
  rewrite find_none_of_all_false; [reflexivity|].
  intros x Hx. apply String.eqb_neq, Hnone, Hx.
Qed.

(** Revocation does what it is for: once [revoke_all_tokens_for_user(user)]
    has drawn another uniquifier, a refresh token that carries the old
    uniquifier of [user] is turned down by [generate_new_token_pair]; the
    exception is the builtin [Exception("Invalid refresh token")]. *)
Theorem revoked_token_is_refused
    (parse : float -> Token -> outcome ParsedToken) (generate_token : string -> Token)
    (get_auth_token : User -> Token)
    (w : Island) (user : User) (fresh : string) (r : Token) (now : float)
    (p : ParsedToken) :
  parse now r = Return p ->
  only_holder user (user_uniquifier p) (datastore w) = true ->
  String.eqb fresh (user_uniquifier p) = false ->
  generate_new_token_pair parse generate_token get_auth_token r now
    (revoke_all_tokens_for_user user fresh w).2
  = (Raise (Exception "Invalid refresh token"),
     (revoke_all_tokens_for_user user fresh w).2).
Proof.
  intros Hp Honly Hfresh. apply refresh_without_holder with (p := p); [exact Hp|].
  unfold revoke_all_tokens_for_user, UserDatastore.set_uniquifier. unfold_py.
  intros x' Hx'. apply in_map_iff in Hx' as (x & <- & Hx).
  unfold only_holder in Honly. rewrite forallb_forall in Honly. specialize (Honly x Hx).
  unfold UserDatastore.rotate.
  destruct (String.eqb (username x) (username user)) eqn:Hn; simpl.
  - apply String.eqb_neq, Hfresh.
  - destruct (String.eqb (fs_uniquifier x) (user_uniquifier p)) eqn:Hu;
      [discriminate | apply String.eqb_neq, Hu].
Qed.

Lemma revoked_token_is_refused_witness :
  generate_new_token_pair
    PlainCodec.parse PlainCodec.generate_token PlainCodec.get_auth_token "rt:u1" 1000
    (revoke_all_tokens_for_user Sample.alice "u3" Sample.island).2
  = (Raise (Exception "Invalid refresh token"),
     (revoke_all_tokens_for_user Sample.alice "u3" Sample.island).2).
Proof.
  apply (revoked_token_is_refused
           PlainCodec.parse PlainCodec.generate_token PlainCodec.get_auth_token
           Sample.island Sample.alice "u3" "rt:u1" 1000 {| user_uniquifier := "u1" |});
    reflexivity.
Defined.

Lemma filter_rotated (name fresh : string) (l : list User) :
  List.filter (fun x => negb (String.eqb (username x) name))
    (List.map (UserDatastore.rotate name fresh) l)
  = List.filter (fun x => negb (String.eqb (username x) name)) l.
Proof.
  induction l as [|a l IH]; simpl; [reflexivity|].
  rewrite rotate_username, IH.
  destruct (String.eqb (username a) name) eqn:Ha; simpl; [reflexivity|].
  unfold UserDatastore.rotate. rewrite Ha. reflexivity.
Qed.

Lemma filter_all {A} (f : A -> bool) (l : list A) :
  (forall x, In x l -> f x = true) -> List.filter f l = l.
Proof.
  induction l as [|a l IH]; intros H; simpl; [reflexivity|].
  rewrite (H a (or_introl eq_refl)), IH; [reflexivity|].
  intros x Hx. apply H. now right.
Qed.

(** [remove_user] in closed form. *)
Lemma remove_user_eq (name fresh : string) (w : Island) :
  remove_user name fresh w
  = (Return tt,
     set_datastore
       (List.filter (fun x => negb (String.eqb (username x) name)) (datastore w)) w).
Proof.
  unfold remove_user, revoke_all_tokens_for_user, UserDatastore.find_user_by_username,
    UserDatastore.set_uniquifier, UserDatastore.delete_user.
  unfold_py.
  destruct (List.find _ (datastore w)) as [u|] eqn:Hfind; simpl.
  - apply List.find_some in Hfind as [_ Hu]. apply String.eqb_eq in Hu. subst name.
    unfold set_datastore; simpl. rewrite filter_rotated. reflexivity.
  - rewrite filter_all; [rewrite set_same_datastore; reflexivity|].
    intros x Hx. pose proof (List.find_none _ _ Hfind x Hx) as H. simpl in H.
    rewrite H. reflexivity.
Qed.

(** [remove_user(name)] returns, and what it leaves of the datastore are the
    users that are not called [name], each as it was and in the old order;
    nothing else of the world changes. Nobody is called [name] afterwards, and
    if nobody was called [name] before, the call is no error and changes
    nothing at all. *)
Theorem remove_user_removes (name fresh : string) (w : Island) :
  remove_user name fresh w
  = (Return tt,
     set_datastore
       (List.filter (fun x => negb (String.eqb (username x) name)) (datastore w)) w)
  /\ (UserDatastore.find_user_by_username name (remove_user name fresh w).2).1
     = Return None
  /\ ((UserDatastore.find_user_by_username name w).1 = Return None ->
      remove_user name fresh w = (Return tt, w)).
Proof.
  split; [apply remove_user_eq|]. split.
  - rewrite remove_user_eq.
    unfold UserDatastore.find_user_by_username. unfold_py. f_equal.
    apply find_none_of_all_false. intros x Hx. apply filter_In in Hx as [_ Hx].
    apply negb_true_iff in Hx. exact Hx.
  - unfold remove_user, UserDatastore.find_user_by_username. unfold_py.
    intros [= ->]. reflexivity.
Qed.

(** The refresh token of a removed user is turned down: after
    [remove_user(name)] a token whose uniquifier only users called [name] had
    gets the builtin [Exception("Invalid refresh token")]. *)
Theorem removed_user_token_is_refused
    (parse : float -> Token -> outcome ParsedToken) (generate_token : string -> Token)
    (get_auth_token : User -> Token)
    (w : Island) (name fresh : string) (r : Token) (now : float) (p : ParsedToken) :
  parse now r = Return p ->
  only_named name (user_uniquifier p) (datastore w) = true ->
  generate_new_token_pair parse generate_token get_auth_token r now
    (remove_user name fresh w).2
  = (Raise (Exception "Invalid refresh token"), (remove_user name fresh w).2).
Proof.
  intros Hp Honly. apply refresh_without_holder with (p := p); [exact Hp|].
  rewrite remove_user_eq. simpl.
  intros x Hx. apply filter_In in Hx as [Hx Hn]. apply negb_true_iff in Hn.
  unfold only_named in Honly. rewrite forallb_forall in Honly. specialize (Honly x Hx).
  rewrite Hn in Honly.
  destruct (String.eqb (fs_uniquifier x) (user_uniquifier p)) eqn:Hu;
    [discriminate | apply String.eqb_neq, Hu].
Qed.

Lemma removed_user_token_is_refused_witness :
  generate_new_token_pair
    PlainCodec.parse PlainCodec.generate_token PlainCodec.get_auth_token "rt:u2" 1000
    (remove_user "bob" "u9" Sample.island).2
  = (Raise (Exception "Invalid refresh token"), (remove_user "bob" "u9" Sample.island).2).
Proof.
  apply (removed_user_token_is_refused
           PlainCodec.parse PlainCodec.generate_token PlainCodec.get_auth_token
           Sample.island "bob" "u9" "rt:u2" 1000 {| user_uniquifier := "u2" |});
    reflexivity.
Defined.

(** ** Revocation for all users *)


(** The rotations reach every user whose name is among the users of the
    loop: such a user ends with one of the uniquifiers drawn. *)
Lemma rotate_each_drawn (users : list User) (fresh : nat -> string) :
  forall (i : nat) (l : list User),
    (forall x, In x l ->
       (exists k, k < i /\ fs_uniquifier x = fresh k)
       \/ In (username x) (List.map username users)) ->
    forall x, In x (rotate_each users fresh i l) ->
      exists k, k < i + length users /\ fs_uniquifier x = fresh k.
Proof.
  induction users as [|u users IH]; intros i l H x Hx; simpl in *.
  - destruct (H x Hx) as [(k & Hk & Hf)|[]]. exists k. split; [lia | exact Hf].
  - destruct (IH (S i) (List.map (UserDatastore.rotate (username u) (fresh i)) l))
      with (x := x) as (k & Hk & Hf); [|exact Hx|].
    + intros y' Hy'. apply in_map_iff in Hy' as (y & <- & Hy).
      rewrite rotate_username. unfold UserDatastore.rotate.
      destruct (String.eqb_spec (username y) (username u)) as [He|Hne]; simpl.
      * left. exists i. split; [lia | reflexivity].
      * destruct (H y Hy) as [(k & Hk & Hf)|[Hin|Hin]].
        -- left. exists k. split; [lia | exact Hf].
        -- congruence.
        -- right. exact Hin.
    + exists k. split; [lia | exact Hf].
Qed.


(** After [revoke_all_tokens_for_all_users] no refresh token issued before is
    good: a token whose uniquifier is none of those just drawn is turned down
    by [generate_new_token_pair]. *)
Theorem revoke_all_refuses_old_tokens
    (parse : float -> Token -> outcome ParsedToken) (generate_token : string -> Token)
    (get_auth_token : User -> Token)
    (w : Island) (fresh : nat -> string) (r : Token) (now : float) (p : ParsedToken) :
  parse now r = Return p ->
  none_drawn fresh (length (datastore w)) (user_uniquifier p) = true ->
  generate_new_token_pair parse generate_token get_auth_token r now
    (revoke_all_tokens_for_all_users fresh w).2
  = (Raise (Exception "Invalid refresh token"),
     (revoke_all_tokens_for_all_users fresh w).2).
Proof.
  intros Hp Hnone. apply refresh_without_holder with (p := p); [exact Hp|].
  rewrite revoke_all_tokens_for_all_users_eq. simpl. intros x Hx.
  destruct (rotate_each_drawn (datastore w) fresh 0 (datastore w)) with (x := x)
    as (k & Hk & Hf); [intros y Hy; right; apply in_map, Hy | exact Hx |].
  unfold none_drawn in Hnone. rewrite forallb_forall in Hnone.
  specialize (Hnone k). rewrite Hf. apply String.eqb_neq, negb_true_iff, Hnone.
  apply in_seq. lia.
Qed.

Lemma revoke_all_refuses_old_tokens_witness :
  generate_new_token_pair
    PlainCodec.parse PlainCodec.generate_token PlainCodec.get_auth_token "rt:u2" 1000
    (revoke_all_tokens_for_all_users (fun i => if i is 0 then "n0" else "n1")
       Sample.island).2
  = (Raise (Exception "Invalid refresh token"),
     (revoke_all_tokens_for_all_users (fun i => if i is 0 then "n0" else "n1")
        Sample.island).2).
Proof.
  apply (revoke_all_refuses_old_tokens
           PlainCodec.parse PlainCodec.generate_token PlainCodec.get_auth_token
           Sample.island (fun i => if i is 0 then "n0" else "n1")
           "rt:u2" 1000 {| user_uniquifier := "u2" |});
    reflexivity.
Defined.

(** ** Issuing and exchanging refresh tokens *)

(** A refresh token that [generate_refresh_token] issues for a user of the
    datastore is good: with a codec that reads back the uniquifier it wrote,
    [generate_new_token_pair] accepts the token, for a user with the same
    uniquifier, and returns that user's access token with a refresh token for
    the same uniquifier; neither call writes the world. *)
Theorem issued_refresh_token_is_accepted
    (parse : float -> Token -> outcome ParsedToken) (generate_token : string -> Token)
    (get_auth_token : User -> Token) (w : Island) (user : User) (now : float) :
  In user (datastore w) ->
  parse now (generate_token (fs_uniquifier user))
  = Return {| user_uniquifier := fs_uniquifier user |} ->
  exists (token : Token) (owner : User),
    generate_refresh_token generate_token user w = (Return token, w)
    /\ In owner (datastore w)
    /\ fs_uniquifier owner = fs_uniquifier user
    /\ generate_new_token_pair parse generate_token get_auth_token token now w
       = (Return (get_auth_token owner, generate_token (fs_uniquifier user)), w).
Proof.
  intros Hin Hcodec.
  destruct (find_finds (fun x => String.eqb (fs_uniquifier x) (fs_uniquifier user))
              (datastore w) user Hin (String.eqb_refl _)) as [owner Hfind].
  exists (generate_token (fs_uniquifier user)), owner.
  pose proof (List.find_some _ _ Hfind) as [Hin' Hu]. apply String.eqb_eq in Hu.
  split; [reflexivity|]. split; [exact Hin'|]. split; [exact Hu|].
  rewrite generate_new_token_pair_eq, Hcodec. simpl. rewrite Hfind, Hu. reflexivity.
Qed.

Lemma issued_refresh_token_is_accepted_witness :
  exists (token : Token) (owner : User),
    generate_refresh_token PlainCodec.generate_token Sample.bob Sample.island
    = (Return token, Sample.island)
    /\ In owner (datastore Sample.island)
    /\ fs_uniquifier owner = fs_uniquifier Sample.bob
    /\ generate_new_token_pair
         PlainCodec.parse PlainCodec.generate_token PlainCodec.get_auth_token
         token 1000 Sample.island
       = (Return (PlainCodec.get_auth_token owner,
                  PlainCodec.generate_token (fs_uniquifier Sample.bob)),
          Sample.island).
Proof.
  apply (issued_refresh_token_is_accepted
           PlainCodec.parse PlainCodec.generate_token PlainCodec.get_auth_token
           Sample.island Sample.bob 1000).
  - simpl. auto.
  - reflexivity.
Defined.

(** ** The secret and the credentials *)

(** Where [str.encode()] returns, it returns different bytes for different
    strings. *)
Lemma encode_injective (s1 s2 : string) (b : list Byte.byte) :
  encode s1 = Return b -> encode s2 = Return b -> s1 = s2.
Proof.
  unfold encode. destruct (has_surrogate s1); [discriminate|].
  destruct (has_surrogate s2); [discriminate|]. intros [= H1] [= H2].
  rewrite <- (string_of_list_byte_of_string s1), <- (string_of_list_byte_of_string s2).
  congruence.
Qed.

Lemma secret_cons (c : ascii) (u p : string) :
  _get_secret_from_credentials (String c u) p
  = String c (_get_secret_from_credentials u p).
Proof. reflexivity. Qed.

Lemma secret_nil (p : string) :
  _get_secret_from_credentials EmptyString p = String ":" p.
Proof. reflexivity. Qed.

Lemma secret_injective (u1 p1 u2 p2 : string) :
  no_colon u1 = true -> no_colon u2 = true ->
  _get_secret_from_credentials u1 p1 = _get_secret_from_credentials u2 p2 ->
  u1 = u2 /\ p1 = p2.
Proof.
  revert u2; induction u1 as [|c1 u1 IH]; intros [|c2 u2] H1 H2 Heq.
  - rewrite !secret_nil in Heq. injection Heq as ->. auto.
  - rewrite secret_nil, secret_cons in Heq. injection Heq as <- _.
    simpl in H2. discriminate.
  - rewrite secret_nil, secret_cons in Heq. injection Heq as -> _.
    simpl in H1. discriminate.
  - rewrite !secret_cons in Heq. injection Heq as -> Heq.
    simpl in H1, H2. apply andb_prop in H1 as [_ H1]. apply andb_prop in H2 as [_ H2].
    destruct (IH u2 H1 H2 Heq) as [-> ->]. auto.
Qed.

(** As long as user names have no colon, different credentials give
    different secrets, and the bytes that [str.encode()] returns for the one
    secret it does not return for the other, so that the encryptor is never
    handed the same bytes for both. *)
Theorem secrets_differ_without_colon (u1 p1 u2 p2 : string) :
  no_colon u1 = true -> no_colon u2 = true ->
  (u1, p1) <> (u2, p2) ->
  _get_secret_from_credentials u1 p1 <> _get_secret_from_credentials u2 p2
  /\ forall secret_bytes : list Byte.byte,
       encode (_get_secret_from_credentials u1 p1) = Return secret_bytes ->
       encode (_get_secret_from_credentials u2 p2) <> Return secret_bytes.
Proof.
  intros H1 H2 Hne.
  assert (Hs : _get_secret_from_credentials u1 p1 <> _get_secret_from_credentials u2 p2).
  { intros Heq. destruct (secret_injective u1 p1 u2 p2 H1 H2 Heq) as [-> ->].
    apply Hne. reflexivity. }
  split; [exact Hs|]. intros b Hb1 Hb2. apply Hs.
  exact (encode_injective _ _ b Hb1 Hb2).
Qed.

Lemma secrets_differ_without_colon_witness :
  _get_secret_from_credentials "alice" "b:c" <> _get_secret_from_credentials "alic" "e:b:c"
  /\ forall secret_bytes : list Byte.byte,
       encode (_get_secret_from_credentials "alice" "b:c") = Return secret_bytes ->
       encode (_get_secret_from_credentials "alic" "e:b:c") <> Return secret_bytes.
Proof.
  apply (secrets_differ_without_colon "alice" "b:c" "alic" "e:b:c");
    [reflexivity | reflexivity | discriminate].
Defined.

(** A login never resets. [handle_successful_login] makes at most one call on
    its collaborators: the [unlock] with the bytes of the secret, when
    [str.encode()] returns them; when the secret holds a surrogate it raises
    [UnicodeEncodeError] before any call and the world is as before. In both
    cases it publishes nothing and does not call [reset_key], key material that
    is bound to a secret stays bound to it, and users, OTPs and the lock are as
    before. *)
Theorem login_never_resets (username password : string) (w : Island) :
  (forall secret_bytes : list Byte.byte,
     encode (_get_secret_from_credentials username password) = Return secret_bytes ->
     calls (handle_successful_login username password w).2
     = (calls w ++ [Unlock secret_bytes])%list)
  /\ (has_surrogate (_get_secret_from_credentials username password) = false ->
      encode (_get_secret_from_credentials username password)
      = Return (list_byte_of_string (_get_secret_from_credentials username password)))
  /\ (has_surrogate (_get_secret_from_credentials username password) = true ->
      handle_successful_login username password w = (Raise UnicodeEncodeError, w))
  /\ (forall k, key_secret (repository_encryptor w) = Some k ->
        key_secret (repository_encryptor (handle_successful_login username password w).2)
        = Some k)
  /\ datastore (handle_successful_login username password w).2 = datastore w
  /\ role_names (handle_successful_login username password w).2 = role_names w
  /\ otp_repository (handle_successful_login username password w).2 = otp_repository w
  /\ otp_read_lock (handle_successful_login username password w).2 = otp_read_lock w.
Proof.
  rewrite handle_successful_login_eq.
  destruct (encode_cases (_get_secret_from_credentials username password))
    as [[Hs He]|[Hs He]]; rewrite Hs, He; cbv zeta.
  - destruct (key_secret (repository_encryptor w)) as [k|] eqn:Hk; simpl.
    + destruct (LockableEncryptor.bytes_eqb k _); simpl; repeat split; auto;
        try discriminate; try (intros b [= <-]; reflexivity);
        intros k0 [= <-]; simpl; auto.
    + repeat split; auto; try discriminate. intros b [= <-]; reflexivity.
  - repeat split; auto; discriminate.
Qed.

(** After a registration whose secret [str.encode()] can encode, the encryptor
    opens for the secret of the registration and for no other: a login with
    credentials of the same secret returns and leaves the encryptor unlocked; a
    login with credentials of another secret raises, the encryptor's error or,
    if that secret holds a surrogate, [UnicodeEncodeError], and leaves the
    encryptor as the registration left it. *)
Theorem login_after_registration
    (u p u' p' : string) (w : Island) (secret : list Byte.byte) :
  encode (_get_secret_from_credentials u p) = Return secret ->
  let registered := (handle_successful_registration u p w).2 in
  (_get_secret_from_credentials u' p' = _get_secret_from_credentials u p ->
     (handle_successful_login u' p' registered).1 = Return tt
     /\ repository_encryptor (handle_successful_login u' p' registered).2
        = {| key_secret := Some secret; unlocked := true |})
  /\ (_get_secret_from_credentials u' p' <> _get_secret_from_credentials u p ->
     ((handle_successful_login u' p' registered).1 = Raise EncryptorError
      \/ (handle_successful_login u' p' registered).1 = Raise UnicodeEncodeError)
     /\ ((handle_successful_login u' p' registered).1 = Raise UnicodeEncodeError
         <-> has_surrogate (_get_secret_from_credentials u' p') = true)
     /\ repository_encryptor (handle_successful_login u' p' registered).2
        = repository_encryptor registered).
Proof.
  intros He. cbv zeta. rewrite handle_successful_registration_eq. cbv zeta.
  rewrite He. cbn [snd].
  rewrite handle_successful_login_eq. split.
  - intros ->. rewrite He. simpl.
    rewrite (proj2 (bytes_eqb_eq _ _) eq_refl). split; reflexivity.
  - intros Hne.
    destruct (encode_cases (_get_secret_from_credentials u' p')) as [[Hs He']|[Hs He']];
      rewrite Hs, He'; simpl.
    + destruct (LockableEncryptor.bytes_eqb _ _) eqn:Hb.
      * apply bytes_eqb_eq in Hb. subst secret.
        exfalso. apply Hne. symmetry. exact (encode_injective _ _ _ He He').
      * split; [left; reflexivity|]. split; [|reflexivity].
        split; discriminate.
    + split; [right; reflexivity|]. split; [|reflexivity]. split; reflexivity.
Qed.

Lemma login_after_registration_witness :
  (_get_secret_from_credentials "a" "b:c" = _get_secret_from_credentials "a:b" "c" ->
     (handle_successful_login "a" "b:c"
        (handle_successful_registration "a:b" "c" Sample.island).2).1 = Return tt
     /\ repository_encryptor
          (handle_successful_login "a" "b:c"
             (handle_successful_registration "a:b" "c" Sample.island).2).2
        = {| key_secret := Some (list_byte_of_string "a:b:c"); unlocked := true |})
  /\ (_get_secret_from_credentials "a" "b:c" <> _get_secret_from_credentials "a:b" "c" ->
     ((handle_successful_login "a" "b:c"
         (handle_successful_registration "a:b" "c" Sample.island).2).1
      = Raise EncryptorError
      \/ (handle_successful_login "a" "b:c"
            (handle_successful_registration "a:b" "c" Sample.island).2).1
         = Raise UnicodeEncodeError)
     /\ ((handle_successful_login "a" "b:c"
            (handle_successful_registration "a:b" "c" Sample.island).2).1
         = Raise UnicodeEncodeError
         <-> has_surrogate (_get_secret_from_credentials "a" "b:c") = true)
     /\ repository_encryptor
          (handle_successful_login "a" "b:c"
             (handle_successful_registration "a:b" "c" Sample.island).2).2
        = repository_encryptor (handle_successful_registration "a:b" "c" Sample.island).2).
Proof.
  apply (login_after_registration "a:b" "c" "a" "b:c" Sample.island
           (list_byte_of_string "a:b:c")).
  reflexivity.
Defined.

(** ** Concurrent callers: progress, different OTPs, and the world they leave *)

(** No deadlock, and every call returns: in whatever configuration callers
    of [authorize_otp] (with any OTPs) are after any schedule, as long as one
    call is not over some caller can make its next step, whatever the clock
    reads; and the scheduler can go on from there until all calls are over. *)
Theorem authorize_otp_no_deadlock
    (otps : list OTP) (w : Island) (schedule : list (nat * float)) (c : config)
    (now : float) :
  otp_read_lock w = false ->
  run schedule (callers_with otps, w) = Some c ->
  (forallb finished c.1 = false ->
     exists (i : nat) (c' : config), sched_step (i, now) c = Some c')
  /\ exists (rest : list (nat * float)) (c' : config),
       run (schedule ++ rest) (callers_with otps, w) = Some c'
       /\ forallb finished c'.1 = true
       /\ Forall (fun ev : nat * float => ev.2 = now) rest.
Proof.
  intros Hlock Hrun. apply PositionFacts.run_positions in Hrun as (c0 & Hrun & ->).
  split.
  - intros Hunf. simpl in Hunf. rewrite PositionFacts.all_finished_todo in Hunf.
    destruct (PositionFacts.some_caller_can_step _ w schedule c0 now Hlock Hrun Hunf)
      as (i & c1 & Hstep).
    exists i, (Positions.processes c1).
    rewrite PositionFacts.processes_sched_step, Hstep. reflexivity.
  - destruct (PositionFacts.calls_can_finish _ w schedule c0 now Hlock Hrun)
      as (rest & c1 & Hrun1 & Hfin1 & Hnow).
    exists rest, (Positions.processes c1). split; [|split; [|exact Hnow]].
    + apply PositionFacts.run_processes. exact Hrun1.
    + simpl. rewrite PositionFacts.all_finished_todo. exact Hfin1.
Qed.

Lemma authorize_otp_no_deadlock_witness :
  exists c : config,
    run [(2, 1005%float); (2, 1006%float)] (callers 3 Sample.otp, Sample.world) = Some c
    /\ forallb finished c.1 = false
    /\ otp_read_lock c.2 = true
    /\ (forallb finished c.1 = false ->
        exists (i : nat) (c' : config), sched_step (i, 1007%float) c = Some c')
    /\ exists (rest : list (nat * float)) (c' : config),
         run ([(2, 1005%float); (2, 1006%float)] ++ rest)
           (callers 3 Sample.otp, Sample.world) = Some c'
         /\ forallb finished c'.1 = true
         /\ Forall (fun ev : nat * float => ev.2 = 1007%float) rest.
Proof.
  eexists. split; [vm_compute; reflexivity|]. split; [reflexivity|].
  split; [reflexivity|].
  apply (authorize_otp_no_deadlock (replicate 3 Sample.otp) Sample.world
           [(2, 1005%float); (2, 1006%float)] _ 1007).
  - reflexivity.
  - vm_compute; reflexivity.
Defined.

(** Callers with different OTPs do not take each other's authorization:
    among callers of [authorize_otp] that present whatever OTPs, known or not,
    those that present a newly created OTP [o] get exactly one [True] between
    them and otherwise [False], under every schedule during which the clock
    does not pass the expiration of [o]. *)
Theorem mixed_callers_authorize_once
    (w w1 : Island) (rnd : nat -> nat) (created : float) (o : OTP)
    (otps : list OTP) (schedule : list (nat * float)) (c : config) :
  otp_read_lock w = false ->
  generate_otp rnd created w = (Return o, w1) ->
  In o otps ->
  Forall (fun ev : nat * float =>
            PrimFloat.ltb (PrimFloat.add created (float_of_int OTP_EXPIRATION_TIME)) ev.2
            = false) schedule ->
  run schedule (callers_with otps, w1) = Some c ->
  forallb finished c.1 = true ->
  returned_to o true otps c.1 = 1
  /\ returned_to o true otps c.1 + returned_to o false otps c.1 = presenting o otps.
Proof.
  intros Hlock Hgen Hsome Hclock Hrun Hfin.
  destruct (generate_otp_record _ _ _ _ _ Hgen) as [Hrec Hl1]. rewrite Hlock in Hl1.
  apply PositionFacts.run_positions in Hrun as (c0 & Hrun & ->).
  simpl in Hfin. rewrite PositionFacts.all_finished_todo in Hfin. simpl.
  rewrite <- (PositionFacts.args_reached _ _ _ _ Hrun) at 1 2 3.
  rewrite !PositionFacts.returned_to_todo, PositionFacts.presenting_callers.
  exact (PositionFacts.one_true_among o _ w1 otps schedule c0 Hl1 Hrec eq_refl Hsome
           Hclock Hrun Hfin).
Qed.

Lemma mixed_callers_authorize_once_witness :
  exists c : config,
    run Sample2.schedule (callers_with Sample2.mixed, Sample2.world) = Some c
    /\ returned_to Sample.otp' true Sample2.mixed c.1 = 1
    /\ returned_to Sample.otp' true Sample2.mixed c.1
       + returned_to Sample.otp' false Sample2.mixed c.1
       = presenting Sample.otp' Sample2.mixed.
Proof.
  eexists. split; [vm_compute; reflexivity|].
  apply (mixed_callers_authorize_once Sample.world Sample2.world Sample.rnd' 1001
           Sample.otp' Sample2.mixed Sample2.schedule).
  - reflexivity.
  - vm_compute. reflexivity.
  - simpl. auto.
  - repeat constructor.
  - vm_compute. reflexivity.
  - vm_compute. reflexivity.
Defined.

(** An OTP that was never created gets nobody in, also among concurrent
    callers with other OTPs: under every schedule the repository still does
    not hold it, no caller that presented it has got [True], and once all
    calls are over every caller that presented it has got [False]. *)
Theorem unknown_otp_callers_are_refused
    (o : OTP) (otps : list OTP) (w : Island) (schedule : list (nat * float))
    (c : config) :
  otp_repository w !! o = None ->
  run schedule (callers_with otps, w) = Some c ->
  otp_repository c.2 !! o = None
  /\ returned_to o true otps c.1 = 0
  /\ (forallb finished c.1 = true -> returned_to o false otps c.1 = presenting o otps).
Proof.
  intros Hnone Hrun. apply PositionFacts.run_positions in Hrun as (c0 & Hrun & ->).
  destruct (PositionFacts.unknown_stays_reached o otps w schedule c0 Hnone Hrun)
    as [Hn Hall].
  destruct (PositionFacts.turned_down_counts o c0.1 Hall) as [H0 Hfalse].
  pose proof (PositionFacts.args_reached _ _ _ _ Hrun) as Hargs.
  split; [exact Hn|]. simpl. rewrite <- Hargs at 1 2.
  rewrite !PositionFacts.returned_to_todo, PositionFacts.all_finished_todo.
  split; [exact H0|]. intros Hfin. rewrite (Hfalse Hfin).
  rewrite PositionFacts.presenting_callers.
  apply PositionFacts.count_presents. rewrite Hargs.
  symmetry. apply PositionFacts.args_callers_with.
Qed.

Lemma unknown_otp_callers_are_refused_witness :
  exists c : config,
    run Sample2.schedule (callers_with Sample2.mixed, Sample2.world) = Some c
    /\ forallb finished c.1 = true
    /\ otp_repository c.2 !! "unknown" = None
    /\ returned_to "unknown" true Sample2.mixed c.1 = 0
    /\ (forallb finished c.1 = true ->
        returned_to "unknown" false Sample2.mixed c.1 = presenting "unknown" Sample2.mixed).
Proof.
  eexists. split; [vm_compute; reflexivity|]. split; [reflexivity|].
  apply (unknown_otp_callers_are_refused "unknown" Sample2.mixed Sample2.world
           Sample2.schedule).
  - reflexivity.
  - vm_compute. reflexivity.
Defined.

(** However many callers present an OTP at once and however they are
    scheduled, once all calls are over the world is the one a single
    [authorize_otp] for that OTP leaves: the lock is free again, the record of
    the OTP, if there is one, is marked used, and nothing else has changed. *)
Theorem concurrent_calls_leave_one_mark
    (o : OTP) (n : nat) (w : Island) (schedule : list (nat * float)) (c : config)
    (now : float) :
  otp_read_lock w = false ->
  1 <= n ->
  run schedule (callers n o, w) = Some c ->
  forallb finished c.1 = true ->
  c.2 = (authorize_otp o now w).2.
Proof.
  intros Hlock Hn Hrun Hfin.
  apply PositionFacts.run_positions in Hrun as (c0 & Hrun & ->).
  simpl in Hfin. rewrite PositionFacts.all_finished_todo in Hfin.
  rewrite (authorize_otp_world o now w Hlock).
  exact (PositionFacts.one_mark_left o n w schedule c0 Hlock Hn Hrun Hfin).
Qed.

Lemma concurrent_calls_leave_one_mark_witness :
  exists c : config,
    run Sample.schedule (callers 3 Sample.otp, Sample.world) = Some c
    /\ c.2 = (authorize_otp Sample.otp 1500 Sample.world).2.
Proof.
  eexists. split; [vm_compute; reflexivity|].
  apply (concurrent_calls_leave_one_mark Sample.otp 3 Sample.world Sample.schedule
           _ 1500).
  - reflexivity.
  - lia.
  - vm_compute. reflexivity.
  - vm_compute. reflexivity.
Defined.

(** * Properties of the version update service *)

Section ServiceProperties.
Import VersionUpdate.

Variable MONKEY_ISLAND_ABS_PATH : string.
Variable os_path_join : string -> list string -> string.
Variable open_read : string -> result string.
Variable json_loads : string -> result pyval.
Variable get_version : string.
Variable str_of : pyval -> string.
Variable int_accepts : string -> bool.

Local Abbreviation deployment_of := (get_deployment_from_file open_read json_loads).
Local Abbreviation check_url :=
  (check_new_url MONKEY_ISLAND_ABS_PATH os_path_join open_read json_loads get_version str_of).
Local Abbreviation download_link :=
  (get_download_link MONKEY_ISLAND_ABS_PATH os_path_join open_read json_loads get_version
     str_of).
Local Abbreviation check :=
  (_check_new_version MONKEY_ISLAND_ABS_PATH os_path_join open_read json_loads get_version
     str_of int_accepts).
Local Abbreviation newer :=
  (get_newer_version MONKEY_ISLAND_ABS_PATH os_path_join open_read json_loads get_version
     str_of int_accepts).
Local Abbreviation polled :=
  (poll MONKEY_ISLAND_ABS_PATH os_path_join open_read json_loads get_version
     str_of int_accepts).

(** [get_deployment_from_file] never raises. It gives the entry "deployment"
    of the document if the file can be read, is JSON and is a dictionary with
    that key; a file that cannot be opened, a document that is not JSON, a
    document that is no dictionary and a dictionary without the key all give
    "unknown". *)
Theorem get_deployment_from_file_defaults (file_path : string) :
  (exists v, deployment_of file_path = Ok v)
  /\ (forall e, open_read file_path = Err e ->
        deployment_of file_path = Ok (PyStr "unknown"))
  /\ (forall content e,
        open_read file_path = Ok content -> json_loads content = Err e ->
        deployment_of file_path = Ok (PyStr "unknown"))
  /\ (forall content d,
        open_read file_path = Ok content -> json_loads content = Ok (PyDict d) ->
        deployment_of file_path
        = Ok (match assoc "deployment" d with Some v => v | None => PyStr "unknown" end))
  /\ (forall content info,
        open_read file_path = Ok content -> json_loads content = Ok info ->
        (forall d, info <> PyDict d) ->
        deployment_of file_path = Ok (PyStr "unknown")).
Proof.
  unfold get_deployment_from_file, read_deployment.
  split; [|split; [|split; [|split]]].
  - destruct (open_read file_path) as [content|e]; [|eauto].
    destruct (json_loads content) as [info|e]; [|eauto].
    destruct (subscript info "deployment"); eauto.
  - intros e ->. reflexivity.
  - intros content e -> ->. reflexivity.
  - intros content d -> ->. simpl. destruct (assoc "deployment" d); reflexivity.
  - intros content info -> -> Hnd. destruct info; try reflexivity.
    exfalso. eapply Hnd. reflexivity.
Qed.

Lemma append_nil_r (s : string) : s ++ EmptyString = s.
Proof.
  induction s as [|c s IH]; [reflexivity|].
  change (String c (s ++ EmptyString) = String c s). rewrite IH. reflexivity.
Qed.

Lemma check_url_literal :
  VERSION_SERVER_CHECK_NEW_URL
  = "https://updates.infectionmonkey.com?deployment=%s&monkey_version=%s".
Proof. reflexivity. Qed.

Lemma download_url_literal :
  VERSION_SERVER_DOWNLOAD_URL
  = "https://updates.infectionmonkey.com?deployment=%s&monkey_version=%s&is_download=true".
Proof. reflexivity. Qed.

Lemma deployment_returns (file_path : string) : exists v, deployment_of file_path = Ok v.
Proof.
  unfold get_deployment_from_file. destruct (read_deployment _ _ _); eauto.
Qed.

Lemma check_new_url_eq (dep : pyval) :
  deployment_of (deployment_info_file_path MONKEY_ISLAND_ABS_PATH os_path_join) = Ok dep ->
  check_url
  = Ok ("https://updates.infectionmonkey.com?deployment=" ++ format_s str_of dep
        ++ "&monkey_version=" ++ get_version).
Proof.
  intros Hdep. unfold check_new_url. rewrite Hdep. unfold percent.
  rewrite check_url_literal. cbn [percent_format Ascii.eqb Bool.eqb format_s].
  rewrite append_nil_r. reflexivity.
Qed.

(** Both URLs of the service can always be built: the version server is asked
    under its fixed address with the deployment and the version as the two
    parameters, taken as they are, and the download link is the same URL
    followed by [&is_download=true]. *)
Theorem download_link_extends_check_url :
  exists (dep : pyval) (url : string),
    deployment_of (deployment_info_file_path MONKEY_ISLAND_ABS_PATH os_path_join) = Ok dep
    /\ url = VERSION_SERVER_URL_PREF ++ "?deployment=" ++ format_s str_of dep
             ++ "&monkey_version=" ++ get_version
    /\ check_url = Ok url
    /\ download_link = Ok (url ++ "&is_download=true").
Proof.
  destruct (deployment_returns
              (deployment_info_file_path MONKEY_ISLAND_ABS_PATH os_path_join))
    as [dep Hdep].
  exists dep. eexists. split; [exact Hdep|]. split; [reflexivity|]. split.
  - rewrite (check_new_url_eq dep Hdep). reflexivity.
  - unfold get_download_link. rewrite Hdep. unfold percent.
    rewrite download_url_literal. cbn [percent_format Ascii.eqb Bool.eqb format_s].
    unfold VERSION_SERVER_URL_PREF.
    change ("https://updates.infectionmonkey.com" ++ "?deployment=" ++ format_s str_of dep
            ++ "&monkey_version=" ++ get_version)
      with ("https://updates.infectionmonkey.com?deployment="
            ++ (format_s str_of dep ++ ("&monkey_version=" ++ get_version))).
    rewrite !append_assoc. reflexivity.
Qed.
(** A value that [newer_version] holds is returned as it is, without a
    request. *)
Lemma get_newer_version_cached (server : string -> result (result pyval)) (st : service) :
  newer_version st <> PyNone -> newer server st = (Ok (newer_version st), st).
Proof.
  unfold get_newer_version. destruct (newer_version st); congruence.
Qed.

Lemma polled_cached (servers : list (string -> result (result pyval))) (st : service) :
  newer_version st <> PyNone -> polled servers st = st.
Proof.
  revert st; induction servers as [|server servers IH]; intros st Hc; [reflexivity|].
  unfold poll in *; simpl. rewrite (get_newer_version_cached server st Hc). simpl.
  apply IH, Hc.
Qed.

Lemma all_int_ok (parts : list string) :
  all_int int_accepts parts = Ok tt <-> forallb int_accepts parts = true.
Proof.
  induction parts as [|x parts IH]; simpl; [tauto|].
  destruct (int_accepts x); simpl; [exact IH|]. split; discriminate.
Qed.

(** What [_check_new_version] returns is [False] or a version string all of
    whose parts [int] accepts. *)
Lemma validate_well_formed (res v : pyval) :
  validate int_accepts res = Ok v -> v = res /\ well_formed int_accepts v = true /\ v <> PyNone.
Proof.
  unfold validate. destruct res as [|[|]| | |s| |]; try discriminate.
  - intros [= <-]. repeat split. discriminate.
  - destruct (all_int int_accepts (split "." s)) as [[]|e] eqn:Hall; [|discriminate].
    intros [= <-]. split; [reflexivity|]. split; [|discriminate].
    simpl. apply all_int_ok, Hall.
Qed.

Lemma check_returns (server : string -> result (result pyval)) (st : service) (v : pyval) :
  (check server st).1 = Ok v -> well_formed int_accepts v = true /\ v <> PyNone.
Proof.
  unfold _check_new_version.
  destruct (check_new_url _ _ _ _ _ _) as [url|e]; [|discriminate].
  destruct (server url) as [[body|e]|e]; simpl.
  - destruct (get_method body "newer_version") as [res|e]; simpl; [|discriminate].
    intros H. apply validate_well_formed in H. tauto.
  - discriminate.
  - destruct e; discriminate.
Qed.

Lemma check_keeps_cache (server : string -> result (result pyval)) (st : service) :
  newer_version (check server st).2 = newer_version st.
Proof.
  unfold _check_new_version.
  destruct (check_new_url _ _ _ _ _ _) as [url|e]; [|reflexivity].
  destruct (server url) as [[body|e]|e]; simpl; try reflexivity.
  - destruct (get_method body "newer_version"); reflexivity.
  - destruct e; reflexivity.
Qed.

(** The first answer of the version server sticks: once a call of
    [get_newer_version] has returned a value that is not [None], be it a
    version or the [False] of "nothing newer", every later call returns this
    value and sends no request, whatever the server would say by then. *)
Theorem first_answer_sticks
    (server later : string -> result (result pyval))
    (servers : list (string -> result (result pyval))) (st : service) (v : pyval) :
  (newer server st).1 = Ok v ->
  v <> PyNone ->
  newer later (polled servers (newer server st).2)
  = (Ok v, (newer server st).2).
Proof.
  intros Hv Hne.
  assert (Hc : newer_version (newer server st).2 = v).
  { revert Hv. unfold get_newer_version.
    destruct (newer_version st) eqn:Hn;
      try (simpl; intros [= <-]; exact Hn).
    destruct (check server st) as [[v'|e] st'] eqn:Hch; simpl.
    - intros [= ->]. reflexivity.
    - destruct e; simpl; try discriminate. intros [= <-]. reflexivity. }
  rewrite polled_cached by (rewrite Hc; exact Hne).
  rewrite get_newer_version_cached by (rewrite Hc; exact Hne).
  rewrite Hc. reflexivity.
Qed.

(** A check that fails leaves nothing behind: if [_check_new_version] raises,
    [newer_version] stays [None], so that the next call asks the server again;
    the call returns [None] if the failure was that the server could not be
    reached, and raises the exception otherwise, for instance the
    [ValueError] of a version that is no version or the [AttributeError] of a
    reply without the key. *)
Theorem failed_check_is_not_cached
    (server : string -> result (result pyval)) (st : service) (e : error) :
  newer_version st = PyNone ->
  (check server st).1 = Err e ->
  newer_version (newer server st).2 = PyNone
  /\ requested (newer server st).2 = requested (check server st).2
  /\ (newer server st).1
     = match e with
       | VersionServerConnectionError => Ok PyNone
       | _ => Err e
       end.
Proof.
  intros Hn He. unfold get_newer_version. rewrite Hn.
  pose proof (check_keeps_cache server st) as Hk. rewrite Hn in Hk.
  destruct (check server st) as [[v|e'] st'] eqn:Hch; simpl in *; [discriminate|].
  injection He as ->.
  destruct e; simpl; rewrite ?Hk; repeat split; reflexivity.
Qed.

(** [newer_version] only ever holds [None], [False] or a version string all
    of whose parts between the dots [int] accepts, whatever the version server
    answers over any number of calls of [get_newer_version]; and such is what
    a call returns. *)
Theorem cached_version_is_well_formed
    (servers : list (string -> result (result pyval)))
    (server : string -> result (result pyval)) (st : service) (v : pyval) :
  well_formed int_accepts (newer_version st) = true ->
  well_formed int_accepts (newer_version (polled servers st)) = true
  /\ ((newer server (polled servers st)).1 = Ok v -> well_formed int_accepts v = true).
Proof.
  assert (Hone : forall s0 st0,
            well_formed int_accepts (newer_version st0) = true ->
            well_formed int_accepts (newer_version (newer s0 st0).2) = true
            /\ forall v0, (newer s0 st0).1 = Ok v0 -> well_formed int_accepts v0 = true).
  { intros s0 st0 Hwf. unfold get_newer_version.
    pose proof (check_returns s0 st0) as Hret.
    pose proof (check_keeps_cache s0 st0) as Hk.
    destruct (newer_version st0) eqn:Hn;
      try (simpl; rewrite Hn; split; [exact Hwf | intros v0 [= <-]; exact Hwf]).
    destruct (check s0 st0) as [[v'|e] st'] eqn:Hch; simpl in *.
    - destruct (Hret v' eq_refl) as [Hw _]. split; [exact Hw|]. intros v0 [= <-]. exact Hw.
    - destruct e; simpl; rewrite ?Hk; split; try reflexivity; try discriminate.
      intros v0 [= <-]. reflexivity. }
  revert st; induction servers as [|s0 servers IH]; intros st Hwf.
  - split; [exact Hwf|]. exact (proj2 (Hone server st Hwf) v).
  - unfold poll in *; simpl. apply IH. exact (proj1 (Hone s0 st Hwf)).
Qed.
End ServiceProperties.

Lemma first_answer_sticks_witness :
  SampleService.get_newer_version (SampleService.server_says (VersionUpdate.PyStr "9.9"))
    (SampleService.poll
       [SampleService.server_down;
        SampleService.server_says (VersionUpdate.PyStr "3.0.0")]
       (SampleService.get_newer_version
          (SampleService.server_says (VersionUpdate.PyBool false)) SampleService.fresh).2)
  = (VersionUpdate.Ok (VersionUpdate.PyBool false),
     (SampleService.get_newer_version
        (SampleService.server_says (VersionUpdate.PyBool false)) SampleService.fresh).2).
Proof.
  apply (first_answer_sticks "/island" SampleService.os_path_join SampleService.open_read
           SampleService.json_loads "2.0.0" SampleService.str_of SampleService.int_accepts
           (SampleService.server_says (VersionUpdate.PyBool false))
           (SampleService.server_says (VersionUpdate.PyStr "9.9"))
           [SampleService.server_down;
            SampleService.server_says (VersionUpdate.PyStr "3.0.0")]
           SampleService.fresh (VersionUpdate.PyBool false)).
  - reflexivity.
  - discriminate.
Defined.

Lemma failed_check_is_not_cached_witness :
  VersionUpdate.newer_version
    (SampleService.get_newer_version
       (SampleService.server_says (VersionUpdate.PyStr "3.x")) SampleService.fresh).2
  = VersionUpdate.PyNone
  /\ VersionUpdate.requested
       (SampleService.get_newer_version
          (SampleService.server_says (VersionUpdate.PyStr "3.x")) SampleService.fresh).2
     = VersionUpdate.requested
         (SampleService._check_new_version
            (SampleService.server_says (VersionUpdate.PyStr "3.x")) SampleService.fresh).2
  /\ (SampleService.get_newer_version
        (SampleService.server_says (VersionUpdate.PyStr "3.x")) SampleService.fresh).1
     = VersionUpdate.Err VersionUpdate.ValueError.
Proof.
  apply (failed_check_is_not_cached "/island" SampleService.os_path_join
           SampleService.open_read SampleService.json_loads "2.0.0" SampleService.str_of
           SampleService.int_accepts
           (SampleService.server_says (VersionUpdate.PyStr "3.x")) SampleService.fresh
           VersionUpdate.ValueError); reflexivity.
Defined.

Lemma cached_version_is_well_formed_witness :
  VersionUpdate.well_formed SampleService.int_accepts
    (VersionUpdate.newer_version
       (SampleService.poll
          [SampleService.server_down;
           SampleService.server_says (VersionUpdate.PyStr "3.x");
           SampleService.server_says (VersionUpdate.PyStr "3.0.1")]
          SampleService.fresh)) = true
  /\ ((SampleService.get_newer_version SampleService.server_down
         (SampleService.poll
            [SampleService.server_down;
             SampleService.server_says (VersionUpdate.PyStr "3.x");
             SampleService.server_says (VersionUpdate.PyStr "3.0.1")]
            SampleService.fresh)).1
      = VersionUpdate.Ok (VersionUpdate.PyStr "3.0.1") ->
      VersionUpdate.well_formed SampleService.int_accepts (VersionUpdate.PyStr "3.0.1")
      = true).
Proof.
  apply (cached_version_is_well_formed "/island" SampleService.os_path_join
           SampleService.open_read SampleService.json_loads "2.0.0" SampleService.str_of
           SampleService.int_accepts
           [SampleService.server_down;
            SampleService.server_says (VersionUpdate.PyStr "3.x");
            SampleService.server_says (VersionUpdate.PyStr "3.0.1")]
           SampleService.server_down SampleService.fresh
           (VersionUpdate.PyStr "3.0.1")).
  reflexivity.
Defined.

